(** * typed-route: a shallow embedding of the runtime route engine

    The development follows the layout of the sources:
    - [Js]    : the few JavaScript string and array primitives the code uses;
    - [Path]  : the helpers imported as [P] from [./Path/index.js];
    - [AST]   : the pattern syntax tree, concatenation, parser, matcher
                compiler and interpolator compiler (the AST source file);
    - [EffectArray] : the stable sort behind [sortBy];
    - [Route] : routes, options, [concat], [getMatch], [getInterpolate],
                the specificity order and [sortRoutes] ([Route.ts]).

    Strings are texts of ASCII characters, one byte each: what the code
    does to other characters (the Unicode white space that [trim] removes,
    the two Unicode line separators that the dot of a regular expression
    refuses, lengths counted in code units) is not modelled. Parameter maps
    are finite maps with string keys: the own properties of JavaScript
    objects used as records. *)

From Stdlib Require Import String Ascii Bool List Arith Lia.
From stdpp Require Import base option list gmap strings pretty sorting.

Local Open Scope string_scope.
Local Open Scope list_scope.

(* ===================================================================== *)
(** ** Exceptions *)
(* ===================================================================== *)

(** A computation that may throw: [Thrown msg] stands for an exception
    (the [Error]s the code raises itself, and the TypeErrors of the
    runtime). It is kept apart from [option], which models the [Option] the
    matchers return. *)
Inductive Result (A : Type) : Type :=
| Ok (a : A)
| Thrown (msg : string).
Arguments Ok {A} a.
Arguments Thrown {A} msg.

#[global] Instance Result_ret : MRet Result := fun _ a => Ok a.
#[global] Instance Result_bind : MBind Result := fun _ _ k r =>
  match r with
  | Ok a => k a
  | Thrown msg => Thrown msg
  end.

(* ===================================================================== *)
(** ** JavaScript primitives *)
(* ===================================================================== *)

Module Js.

(** [s.split(c)] for a one-character separator (also the regular
    expression [/\//g]): never returns the empty array. *)
Fixpoint split_char (c : ascii) (s : string) : list string :=
  match s with
  | EmptyString => [EmptyString]
  | String a s' =>
      if Ascii.eqb a c then EmptyString :: split_char c s'
      else match split_char c s' with
           | p :: ps => String a p :: ps
           | [] => [String a EmptyString]
           end
  end.

Definition backslash : ascii := ascii_of_nat 92.

(** [parts.join(sep)]. *)
Fixpoint join (sep : string) (l : list string) : string :=
  match l with
  | [] => EmptyString
  | [x] => x
  | x :: rest => x +:+ sep +:+ join sep rest
  end.

(** [s.startsWith(p)]. *)
Fixpoint startsWith (p s : string) : bool :=
  match p, s with
  | EmptyString, _ => true
  | String a p', String b s' => Ascii.eqb a b && startsWith p' s'
  | String _ _, EmptyString => false
  end.

(** [s.split(sep)] for a separator string of at least one character.
    [skip] counts the characters of an already recognised separator that
    are still to be passed over. *)
Fixpoint split_from (sep : string) (skip : nat) (s : string) : list string :=
  match s with
  | EmptyString => [EmptyString]
  | String a s' =>
      match skip with
      | S k => split_from sep k s'
      | O =>
          if startsWith sep s
          then EmptyString :: split_from sep (String.length sep - 1) s'
          else match split_from sep 0 s' with
               | p :: ps => String a p :: ps
               | [] => [String a EmptyString]
               end
      end
  end.

Definition split_str (sep s : string) : list string := split_from sep 0 s.

(** The last character, if any, and the string without it:
    [s.endsWith(c)] and [s.slice(0, -1)]. *)
Fixpoint last_char (s : string) : option ascii :=
  match s with
  | EmptyString => None
  | String a EmptyString => Some a
  | String _ s' => last_char s'
  end.

Fixpoint drop_last (s : string) : string :=
  match s with
  | EmptyString => EmptyString
  | String _ EmptyString => EmptyString
  | String a s' => String a (drop_last s')
  end.

Definition endsWith_char (c : ascii) (s : string) : bool :=
  match last_char s with
  | Some a => Ascii.eqb a c
  | None => false
  end.

(** [s.slice(1)]. *)
Definition drop_first (s : string) : string :=
  match s with
  | EmptyString => EmptyString
  | String _ s' => s'
  end.

(** [s[0] === c]. *)
Definition head_is (c : ascii) (s : string) : bool :=
  match s with
  | String a _ => Ascii.eqb a c
  | EmptyString => false
  end.

(** [s.slice(n)]. *)
Fixpoint slice_from (n : nat) (s : string) : string :=
  match n, s with
  | O, _ => s
  | S k, String _ s' => slice_from k s'
  | S _, EmptyString => EmptyString
  end.

(** White space removed by [trim()], within the ASCII range. *)
Definition is_space (a : ascii) : bool :=
  let n := nat_of_ascii a in
  (Nat.leb 9 n && Nat.leb n 13) || Nat.eqb n 32.

Fixpoint trim_start (s : string) : string :=
  match s with
  | String a s' => if is_space a then trim_start s' else s
  | EmptyString => EmptyString
  end.

Definition rev_string (s : string) : string :=
  string_of_list_ascii (rev (list_ascii_of_string s)).

Definition trim (s : string) : string :=
  rev_string (trim_start (rev_string (trim_start s))).

(** [xs.reduce(f)] without an initial value. *)
Definition reduce {A} (f : A → A → A) (l : list A) : Result A :=
  match l with
  | [] => Thrown "Reduce of empty array with no initial value"
  | x :: rest => Ok (fold_left f rest x)
  end.

End Js.

(* ===================================================================== *)
(** ** Path helpers *)
(* ===================================================================== *)

Module Path.

(** Modelled from the spec: [removeTrailingSlash] of the Path module,
    which is not among the sources. The spec's notion of an empty literal
    (the empty string or a single separator) fixes it on those inputs: one
    trailing separator is removed. *)
Definition removeTrailingSlash (s : string) : string :=
  if Js.endsWith_char "/" s then Js.drop_last s else s.

(** Modelled from the spec: [removeLeadingSlash] of the Path module, the
    mirror image of [removeTrailingSlash] (an empty leading segment of a
    pattern is discarded). *)
Definition removeLeadingSlash (s : string) : string :=
  if Js.head_is "/" s then Js.drop_first s else s.

(** Modelled from the spec: the designated wildcard token [P.unnamed] of
    the Path module; its text is the path-to-regexp catch-all group. *)
Definition unnamed : string :=
  String "(" (String "." (String "*" (String ")" EmptyString))).

(** Modelled from the spec: [pathJoin] of the Path module. The non-empty
    parts are joined by the separator, each introduced by one; a rendered
    query block (it starts with a question mark) is appended as it is. A
    separator at either end of a part is dropped first, so that joining
    is stable under nesting. *)
Definition formatPart (part : string) : string :=
  let p := removeLeadingSlash (removeTrailingSlash part) in
  if String.eqb p EmptyString then EmptyString
  else if Js.head_is "?" p then p
  else "/" +:+ p.

Definition pathJoin (parts : list string) : string :=
  Js.join EmptyString (map formatPart parts).

(** The constructors of path templates ([P.param], [P.optional], ...)
    are not among the sources; [toPath] is stated over any
    implementation of them. *)
Class PathDSL : Type := {
  param : string → string;
  zeroOrMore : string → string;
  oneOrMore : string → string;
  optional : string → string;
  prefix : string → string → string;
  queryParam : string → string → string;
  queryParams : list string → string
}.

(** Modelled from the spec: the pattern syntax of the external
    interface, for the template constructors of the Path module that are
    not among the sources. *)
Definition syntaxDSL : PathDSL := {|
  param name := ":" +:+ name;
  zeroOrMore p := p +:+ "*";
  oneOrMore p := p +:+ "+";
  optional p := p +:+ "?";
  prefix pre p := "{" +:+ pre +:+ p +:+ "}";
  queryParam k v := k +:+ "=" +:+ v;
  queryParams ps := String Js.backslash ("?" +:+ Js.join "&" ps)
|}.

End Path.

(* ===================================================================== *)
(** ** The pattern syntax tree *)
(* ===================================================================== *)

Module AST.

(** The validator attached by [WithSchema] is an external collaborator;
    only its identity matters here. *)
Inductive SchemaRef : Type := SchemaId (n : nat).

Inductive AST : Type :=
| Literal (literal : string)
| UnnamedParam
| Param (param : string)
| ZeroOrMore (param : AST)
| OneOrMore (param : AST)
| Optional (param : AST)
| Prefix (prefix : string) (param : AST)
| QueryParams (previous : AST) (params : list QueryParam)
| Concat (left right : AST)
| WithSchema (ast : AST) (schema : SchemaRef)
with QueryParam : Type :=
| mkQueryParam (key : string) (value : AST).

Definition key (q : QueryParam) : string :=
  match q with mkQueryParam k _ => k end.
Definition value (q : QueryParam) : AST :=
  match q with mkQueryParam _ v => v end.

Definition _tag (a : AST) : string :=
  match a with
  | Literal _ => "Literal"
  | UnnamedParam => "UnnamedParam"
  | Param _ => "Param"
  | ZeroOrMore _ => "ZeroOrMore"
  | OneOrMore _ => "OneOrMore"
  | Optional _ => "Optional"
  | Prefix _ _ => "Prefix"
  | QueryParams _ _ => "QueryParams"
  | Concat _ _ => "Concat"
  | WithSchema _ _ => "WithSchema"
  end.

Definition isEmptyLiteral (ast : AST) : bool :=
  match ast with
  | Literal literal => String.eqb (Path.removeTrailingSlash literal) EmptyString
  | _ => false
  end.

(** [xs.some(p)] is [existsb], [xs.filter(p)] is [filter]. *)
Definition concat (left right : AST) : AST :=
  match left, right with
  | QueryParams lprev lparams, QueryParams rprev rparams =>
      QueryParams
        (if isEmptyLiteral rprev then lprev else Concat lprev rprev)
        (List.filter
           (fun x => negb (existsb (fun y => String.eqb (key x) (key y)) rparams))
           lparams ++ rparams)
  | QueryParams lprev lparams, _ =>
      QueryParams
        (if isEmptyLiteral lprev then right else Concat lprev right)
        lparams
  | _, QueryParams rprev rparams =>
      QueryParams
        (if isEmptyLiteral rprev then left else Concat left rprev)
        rparams
  | _, _ => Concat left right
  end.


Section ToPath.
Context `{Path.PathDSL}.

Fixpoint toPath_ (ast : AST) : string :=
  match ast with
  | Literal literal => literal
  | UnnamedParam => Path.unnamed
  | Param name => Path.param name
  | ZeroOrMore p => Path.zeroOrMore (toPath_ p)
  | OneOrMore p => Path.oneOrMore (toPath_ p)
  | Optional p => Path.optional (toPath_ p)
  | Prefix pre p => Path.prefix pre (toPath_ p)
  | Concat l r => Path.pathJoin [toPath_ l; toPath_ r]
  | WithSchema a _ => toPath_ a
  | QueryParams previous params =>
      Path.pathJoin
        [toPath_ previous;
         Path.queryParams
           (map (fun q => match q with
                          | mkQueryParam k v => Path.queryParam k (toPath_ v)
                          end) params)]
  end.

(** The cache in front of [toPath_] does not change what is returned. *)
Definition toPath (ast : AST) : string := Path.pathJoin [toPath_ ast].
End ToPath.

(** The query block of an AST, looked for at the root and down the right
    spine of concatenations; [None] is [null]. *)
Fixpoint getQueryParams (ast : AST) : option AST :=
  match ast with
  | QueryParams _ _ => Some ast
  | Concat _ r => getQueryParams r
  | WithSchema a _ => getQueryParams a
  | _ => None
  end.

(** The groups of an AST: every node other than a concatenation, a query
    block or a schema wrapper forms a group of its own. *)
Fixpoint getAstSegments (part : AST) : list (list AST) :=
  match part with
  | Literal literal =>
      if String.eqb literal "/" then [] else [[part]]
  | Param _ | UnnamedParam | ZeroOrMore _ | OneOrMore _ | Optional _
  | Prefix _ _ => [[part]]
  | Concat l r => getAstSegments l ++ getAstSegments r
  | QueryParams previous _ => getAstSegments previous ++ [[part]]
  | WithSchema ast _ => getAstSegments ast
  end.

(** *** Parser *)

Definition concatAll (asts : list AST) : Result AST := Js.reduce Concat asts.

(** [parseParam] peels modifiers off the end of the name; the recursion
    runs over the reversed characters. *)
Fixpoint parseParam_rev (r : list ascii) : AST :=
  match r with
  | a :: r' =>
      if Ascii.eqb a "?" then Optional (parseParam_rev r')
      else if Ascii.eqb a "*" then ZeroOrMore (parseParam_rev r')
      else if Ascii.eqb a "+" then OneOrMore (parseParam_rev r')
      else Param (string_of_list_ascii (rev r))
  | [] => Param EmptyString
  end.

Definition parseParam (param : string) : AST :=
  parseParam_rev (rev (list_ascii_of_string param)).

Definition parsePrefix (part : string) : AST :=
  match Js.split_char ":" (Js.drop_last (Js.drop_first part)) with
  | prefix :: segment :: _ => Prefix prefix (parseParam segment)
  | prefix :: [] => Prefix prefix UnnamedParam
  | [] => Prefix EmptyString UnnamedParam
  end.

Definition parsePathPart (part : string) : AST :=
  if Js.head_is "{" part then parsePrefix part
  else if String.eqb part Path.unnamed || String.eqb part "*" then UnnamedParam
  else if Js.head_is ":" part then parseParam (Js.drop_first part)
  else Literal part.

(** [segment.split(PREFIX_REGEXP)] with [PREFIX_REGEXP = /(\{.+\})/g]:
    the leftmost opening brace that is closed later on the same line, at
    least one character further, starts a match which extends to the last
    such closing brace; the matched text is kept among the pieces. The
    line terminators are those of ASCII. *)
Definition is_line_terminator (a : ascii) : bool :=
  Nat.eqb (nat_of_ascii a) 10 || Nat.eqb (nat_of_ascii a) 13.

Fixpoint last_close_from (i : nat) (s : string) : option nat :=
  match s with
  | EmptyString => None
  | String a s' =>
      if is_line_terminator a then None
      else match last_close_from (S i) s' with
           | Some j => Some j
           | None => if Ascii.eqb a "}" && Nat.leb 1 i then Some i else None
           end
  end.

Fixpoint take_string (n : nat) (s : string) : string :=
  match n, s with
  | S k, String a s' => String a (take_string k s')
  | _, _ => EmptyString
  end.

Fixpoint regexp_split_from (skip : nat) (s : string) : list string :=
  match s with
  | EmptyString => [EmptyString]
  | String a s' =>
      match skip with
      | S k => regexp_split_from k s'
      | O =>
          match (if Ascii.eqb a "{" then last_close_from 0 s' else None) with
          | Some j =>
              EmptyString :: String a (take_string (S j) s')
              :: regexp_split_from (S j) s'
          | None =>
              match regexp_split_from 0 s' with
              | p :: ps => String a p :: ps
              | [] => [String a EmptyString]
              end
          end
      end
  end.

Definition splitByPrefixes (segment : string) : list string :=
  map (fun x => if String.eqb x EmptyString then "/" else x)
      (regexp_split_from 0 segment).

Definition parsePathSegment (segment : string) : Result AST :=
  let parts := map parsePathPart (splitByPrefixes segment) in
  match parts with
  | [] => Ok (Literal "/")
  | [p] => Ok p
  | _ => concatAll parts
  end.

(** A pair without an equals sign has no value: splitting [undefined]
    is a TypeError. *)
Definition parseQueryParamValue (value : option string) : Result AST :=
  match value with
  | Some v => if String.eqb v EmptyString then Ok (Literal EmptyString)
              else parsePathSegment v
  | None => Thrown "Cannot read properties of undefined"
  end.

Definition parseQueryParam (param : string) : Result QueryParam :=
  match Js.split_char "=" param with
  | k :: rest =>
      v ← parseQueryParamValue (head rest); Ok (mkQueryParam k v)
  | [] => Thrown "unreachable"
  end.

Definition parseQuery (previous : AST) (queryString : string) : Result AST :=
  let queryString :=
    if Js.head_is "?" queryString then Js.drop_first queryString
    else queryString in
  let params := Js.split_char "&" queryString in
  match params with
  | [] => Ok previous
  | _ => ps ← mapM parseQueryParam params; Ok (QueryParams previous ps)
  end.

(** The separator between path and query in a pattern is the
    two-character text made of a backslash and a question mark. *)
Definition query_marker : string :=
  String Js.backslash (String "?" EmptyString).

Definition shift_empty (l : list string) : list string :=
  match l with
  | x :: rest => if String.eqb x EmptyString then rest else l
  | [] => l
  end.

Definition pop_empty (l : list string) : list string :=
  match last l with
  | Some x => if String.eqb x EmptyString then removelast l else l
  | None => l
  end.

Definition splitByQueryParams (path : string) : list string * string :=
  let path := Path.removeLeadingSlash (Path.removeTrailingSlash path) in
  if String.eqb path EmptyString then ([], EmptyString)
  else
    let pieces := Js.split_str query_marker path in
    let pathname := default EmptyString (head pieces) in
    let queryString := default EmptyString (pieces !! 1) in
    let pathname :=
      if Js.endsWith_char Js.backslash pathname then Js.drop_last pathname
      else pathname in
    (pop_empty (shift_empty (Js.split_char "/" pathname)), queryString).

(** The AST of the path part, the local [ast] of [parse]. *)
Definition pathAst (segments : list string) : Result AST :=
  allSegments ← mapM parsePathSegment segments;
  match allSegments with
  | [] => Ok (Literal "/")
  | _ => concatAll allSegments
  end.

Definition parse (path : string) : Result AST :=
  let '(segments, queryString) := splitByQueryParams path in
  ast ← pathAst segments;
  if String.eqb (Js.trim queryString) EmptyString then Ok ast
  else parseQuery ast queryString.

(** *** The platform's URL parser *)

(** [URLSearchParams]: an ordered multimap. *)
Definition URLSearchParams : Type := list (string * string).

Definition has_key (k : string) (kv : string * string) : bool :=
  String.eqb (fst kv) k.

(** [query.get(key)]; [None] is [null]. *)
Definition query_get (k : string) (q : URLSearchParams) : option string :=
  snd <$> List.find (has_key k) q.

Definition query_getAll (k : string) (q : URLSearchParams) : list string :=
  map snd (List.filter (has_key k) q).

Definition query_delete (k : string) (q : URLSearchParams) : URLSearchParams :=
  List.filter (fun kv => negb (has_key k kv)) q.

Definition query_append (k v : string) (q : URLSearchParams) : URLSearchParams :=
  q ++ [(k, v)].

(** The text before the first occurrence of [c], and the text after it. *)
Fixpoint before_char (c : ascii) (s : string) : string :=
  match s with
  | EmptyString => EmptyString
  | String a s' => if Ascii.eqb a c then EmptyString else String a (before_char c s')
  end.

Fixpoint after_char (c : ascii) (s : string) : string :=
  match s with
  | EmptyString => EmptyString
  | String a s' => if Ascii.eqb a c then s' else after_char c s'
  end.

(** [new URL(path, 'http://localhost')], as far as the engine looks at it:
    the fragment is cut off at the first hash sign, the query starts after
    the first question mark, and a relative path is resolved against the
    root. The model leaves out what the platform does to other inputs than
    those of [urlPlain] below: percent-encoding and decoding, plus signs in
    the query, dot segments, backslashes, control characters, inputs that
    name a scheme or a host, and the TypeError of an input that is no URL.
    A statement that depends on what the parser makes of a given path takes
    [urlPlain] as a hypothesis. *)
Definition url_pathname (path : string) : string :=
  let p := before_char "?" (before_char "#" path) in
  if Js.head_is "/" p then p else "/" +:+ p.

Definition url_searchParams (path : string) : URLSearchParams :=
  let q := after_char "?" (before_char "#" path) in
  map (fun pair => (before_char "=" pair, after_char "=" pair))
      (List.filter (fun pair => negb (String.eqb pair EmptyString))
                   (Js.split_char "&" q)).

Definition getPathAndQuery (path : string) : list string * URLSearchParams :=
  let pathSegments := Js.split_char "/" (url_pathname path) in
  (pop_empty (shift_empty pathSegments), url_searchParams path).

(** The inputs on which the platform's parser does what the model does.
    Letters, digits and the four marks that no part of a URL encodes. *)
Definition urlChar (c : ascii) : bool :=
  let n := nat_of_ascii c in
  (Nat.leb 48 n && Nat.leb n 57) || (Nat.leb 65 n && Nat.leb n 90)
  || (Nat.leb 97 n && Nat.leb n 122)
  || Nat.eqb n 45 || Nat.eqb n 46 || Nat.eqb n 95 || Nat.eqb n 126.

Fixpoint urlText (extra : ascii → bool) (s : string) : bool :=
  match s with
  | EmptyString => true
  | String a s' => (urlChar a || extra a) && urlText extra s'
  end.

(** A path part: segments of such characters, none of them a dot segment,
    and no second separator at the start, where a host would begin. *)
Definition urlPathPart (p : string) : bool :=
  negb (Js.startsWith "//" p)
  && forallb (fun segment =>
                urlText (fun _ => false) segment
                && negb (String.eqb segment ".")
                && negb (String.eqb segment ".."))
             (Js.split_char "/" p).

(** A path part, then possibly a question mark and pairs of such
    characters with equals signs and ampersands, then possibly a hash sign
    and a fragment of such characters. *)
Definition urlPlain (path : string) : bool :=
  let front := before_char "#" path in
  urlPathPart (before_char "?" front)
  && urlText (fun c => Ascii.eqb c "=" || Ascii.eqb c "&") (after_char "?" front)
  && urlText (fun _ => false) (after_char "#" path).

(** *** Matcher compiler *)

(** A parameter value: one string, or a list of strings. *)
Inductive ParamValue : Type :=
| Str (s : string)
| Arr (l : list string).

(** What a matcher stores under a key: a value of its own, or the
    [pathSegments] array itself. A repetition capture stores the array it
    was handed, not a copy, so the value seen by the caller is whatever
    the array holds once the whole match has run. *)
Inductive Captured : Type :=
| Own (v : ParamValue)
| SegmentsArray.

(** The two mutable arguments of a matcher. *)
Record Cursor : Type := mkCursor {
  pathSegments : list string;
  query : URLSearchParams
}.

Definition set_segments (c : Cursor) (segs : list string) : Cursor :=
  mkCursor segs (query c).

(** A matcher returns its [Option] and leaves its arguments mutated. *)
Definition Matcher : Type := Cursor → option (gmap string Captured) * Cursor.

(** [Object.assign(target, source)]: every own property of the source is
    written to the target by an ordinary assignment, so the source wins. The
    one key that an assignment does not turn into a property is
    [__proto__]: it reaches the setter that every object inherits, which
    replaces the prototype of the target when the value is an object, does
    nothing when it is a string, and adds no property in either case. The
    map holds the own properties of the object, which is what its keys and
    entries are; the prototype of the result is not part of the model. *)
Definition proto_key : string := "__proto__".

Definition assign {V} (target source : gmap string V) : gmap string V :=
  delete proto_key source ∪ target.

(** A property key made from a number. *)
Definition number_key (n : nat) : string := pretty n.

Definition getParamByKey (k : string) (isOptional isMultiple : bool) : Matcher :=
  fun c =>
    if negb isOptional && Nat.eqb (length (pathSegments c)) 0 then (None, c)
    else if isMultiple then (Some {[ k := SegmentsArray ]}, c)
    else
      match pathSegments c with
      | [] => if isOptional then (Some ∅, c) else (None, c)
      | v :: rest =>
          let c' := set_segments c rest in
          if isOptional && String.eqb v EmptyString then (Some ∅, c')
          else if String.eqb v EmptyString then (None, c')
          else (Some {[ k := Own (if isMultiple then Arr (Js.split_char "/" v)
                                  else Str v) ]}, c')
      end.

Definition literalMatcher (literal : string) : Matcher :=
  fun c =>
    match pathSegments c with
    | s :: rest =>
        if String.eqb s literal then (Some ∅, set_segments c rest)
        else (None, c)
    | [] => (None, c)
    end.

Definition prefixMatcher (prefix : string) (inner : Matcher) : Matcher :=
  fun c =>
    match pathSegments c with
    | s :: rest =>
        if Js.startsWith prefix s
        then inner (set_segments c (Js.slice_from (String.length prefix) s :: rest))
        else (None, c)
    | [] => (None, c)
    end.

(** [ctx.unnamed] is threaded through as a number. The recursive calls of
    the source pass through [ensureSimpleAst], which throws on the two
    node kinds that have no case here. *)
Fixpoint simpleAstToMatcher (ast : AST) (ctx : nat) (isOptional isMultiple : bool)
  : Result (Matcher * nat) :=
  match ast with
  | Optional p => simpleAstToMatcher p ctx true isMultiple
  | OneOrMore p => simpleAstToMatcher p ctx isOptional true
  | ZeroOrMore p => simpleAstToMatcher p ctx true true
  | WithSchema a _ => simpleAstToMatcher a ctx isOptional isMultiple
  | Literal literal => Ok (literalMatcher literal, ctx)
  | Prefix prefix p =>
      '(inner, ctx') ← simpleAstToMatcher p ctx isOptional isMultiple;
      Ok (prefixMatcher prefix inner, ctx')
  | Param name => Ok (getParamByKey name isOptional isMultiple, ctx)
  | UnnamedParam => Ok (getParamByKey (number_key ctx) isOptional isMultiple, S ctx)
  | Concat _ _ => Thrown "Unexpected Concatatenation of AST segments"
  | QueryParams _ _ => Thrown "Unexpected QueryParams"
  end.

Definition getQueryParamByKey (k outKey : string) (isOptional isMultiple : bool)
  : Matcher :=
  fun c =>
    if isMultiple then
      let values := query_getAll k (query c) in
      if isOptional then (Some {[ outKey := Own (Arr values) ]}, c)
      else if Nat.eqb (length values) 0 then (None, c)
      else (Some {[ outKey := Own (Arr values) ]}, c)
    else
      match query_get k (query c) with
      | None => if isOptional then (Some ∅, c) else (None, c)
      | Some v => (Some {[ outKey := Own (Str v) ]}, c)
      end.

Definition literalQueryMatcher (k literal : string) : Matcher :=
  fun c =>
    match query_get k (query c) with
    | Some v => if String.eqb v literal then (Some ∅, c) else (None, c)
    | None => (None, c)
    end.

Definition prefixQueryMatcher (k prefix : string) (inner : Matcher) : Matcher :=
  fun c =>
    let values := query_getAll k (query c) in
    let trimmed := map (Js.slice_from (String.length prefix)) values in
    let q := fold_left (fun q v => query_append k v q) trimmed
                       (query_delete k (query c)) in
    inner (mkCursor (pathSegments c) q).

Fixpoint simpleAstToQueryMatcher (k : string) (ast : AST) (ctx : nat)
    (isOptional isMultiple : bool) : Result (Matcher * nat) :=
  match ast with
  | Optional p => simpleAstToQueryMatcher k p ctx true isMultiple
  | OneOrMore p => simpleAstToQueryMatcher k p ctx isOptional true
  | ZeroOrMore p => simpleAstToQueryMatcher k p ctx true true
  | WithSchema a _ => simpleAstToQueryMatcher k a ctx isOptional isMultiple
  | Literal literal => Ok (literalQueryMatcher k literal, ctx)
  | Prefix prefix p =>
      '(inner, ctx') ← simpleAstToQueryMatcher k p ctx isOptional isMultiple;
      Ok (prefixQueryMatcher k prefix inner, ctx')
  | Param name => Ok (getQueryParamByKey k name isOptional isMultiple, ctx)
  | UnnamedParam =>
      Ok (getQueryParamByKey k (number_key ctx) isOptional isMultiple, S ctx)
  | Concat _ _ => Thrown "Unexpected Concatatenation of AST segments"
  | QueryParams _ _ => Thrown "Unexpected QueryParams"
  end.

(** [xs.map(x => compile(x, ctx))] with the counter passed along. *)
Fixpoint compileAll {A B S} (compile : A → S → Result (B * S))
    (xs : list A) (ctx : S) : Result (list B * S) :=
  match xs with
  | [] => Ok ([], ctx)
  | x :: rest =>
      '(m, ctx') ← compile x ctx;
      '(ms, ctx'') ← compileAll compile rest ctx';
      Ok (m :: ms, ctx'')
  end.

(** The loop shared by [astToMatcher] and [queryParamsToMatcher]: run the
    matchers in order, give up at the first failure, merge the results. *)
Fixpoint runMatchers (matchers : list Matcher) (result : gmap string Captured)
    (c : Cursor) : option (gmap string Captured) * Cursor :=
  match matchers with
  | [] => (Some result, c)
  | matcher :: rest =>
      match matcher c with
      | (None, c') => (None, c')
      | (Some m, c') => runMatchers rest (assign result m) c'
      end
  end.

Definition queryParamsToMatcher (params : list QueryParam) (ctx : nat)
  : Result (Matcher * nat) :=
  '(matchers, ctx') ←
    compileAll (fun p ctx => simpleAstToQueryMatcher (key p) (value p) ctx false false)
               params ctx;
  Ok (fun c => runMatchers matchers ∅ c, ctx').

(** A compound group runs every part, whatever the earlier ones
    returned, and succeeds when all of them did. *)
Fixpoint runParts (parts : list Matcher) (c : Cursor)
  : list (option (gmap string Captured)) * Cursor :=
  match parts with
  | [] => ([], c)
  | part :: rest =>
      let '(r, c') := part c in
      let '(rs, c'') := runParts rest c' in
      (r :: rs, c'')
  end.

Definition astSegmentToMatcher (astSegment : list AST) (ctx : nat)
  : Result (Matcher * nat) :=
  match astSegment with
  | [] => Thrown "Empty AST segment"
  | [ast] =>
      match ast with
      | Concat _ _ => Thrown "Unexpected Concatatenation of AST segments"
      | QueryParams _ params => queryParamsToMatcher params ctx
      | _ => simpleAstToMatcher ast ctx false false
      end
  | _ =>
      '(parts, ctx') ←
        compileAll (fun a ctx => simpleAstToMatcher a ctx false false)
                   astSegment ctx;
      Ok (fun c =>
            let '(result, c') := runParts parts c in
            if forallb (fun x => bool_decide (is_Some x)) result
            then (Some (fold_left assign (omap id result) ∅), c')
            else (None, c'),
          ctx')
  end.

(** The caller reads the captured values after the match has returned. *)
Definition observe (segments : list string) (v : Captured) : ParamValue :=
  match v with
  | Own v => v
  | SegmentsArray => Arr segments
  end.

Definition MatchFn : Type :=
  list string → URLSearchParams → option (gmap string ParamValue).

Definition astToMatcher (ast : AST) (end_ : bool) : Result MatchFn :=
  '(matchers, _) ← compileAll astSegmentToMatcher (getAstSegments ast) 0;
  Ok (fun segments q =>
        match runMatchers matchers ∅ (mkCursor segments q) with
        | (None, _) => None
        | (Some result, c) =>
            if end_ && Nat.ltb 0 (length (pathSegments c)) then None
            else Some (observe (pathSegments c) <$> result)
        end).

(** *** Interpolator compiler *)

Definition Interpolater : Type := gmap string ParamValue → Result string.

Inductive InterpolationPart : Type :=
| InterpolateLiteral (value : string)
| InterpolateParam (interpolate : Interpolater).

Definition partValue (part : InterpolationPart) (params : gmap string ParamValue)
  : Result string :=
  match part with
  | InterpolateLiteral v => Ok v
  | InterpolateParam f => f params
  end.

Definition nonEmpty (values : list string) : list string :=
  List.filter (fun v => negb (String.eqb v EmptyString)) values.

(** The names of the properties that every object inherits. Reading one
    of them from a parameter object that has no property of its own under
    that name gives the inherited function, not [undefined]. *)
Definition objectPrototypeKeys : list string :=
  ["constructor"; "hasOwnProperty"; "isPrototypeOf"; "propertyIsEnumerable";
   "toLocaleString"; "toString"; "valueOf"; "__proto__";
   "__defineGetter__"; "__defineSetter__";
   "__lookupGetter__"; "__lookupSetter__"].

Definition ordinaryKey (k : string) : bool :=
  negb (existsb (String.eqb k) objectPrototypeKeys).

(** [params[key]], for a parameter object whose own properties are the
    entries of the map: [!value] holds for a missing key and for the empty
    string; an array, even an empty one, is truthy. What is read under a
    key of [objectPrototypeKeys] that the map does not have is an inherited
    function, which the model has no value for: a statement about
    rendering a map that may lack a key keeps that key to [ordinaryKey]. *)
Definition getParam (k : string) (isOptional isMultiple : bool) : Interpolater :=
  fun params =>
    match params !! k with
    | None | Some (Str EmptyString) =>
        if isOptional then Ok EmptyString
        else Thrown "Expected value for parameter"
    | Some (Arr l) =>
        if negb isOptional && Nat.eqb (length l) 0
        then Thrown "Expected value for at least one parameter"
        else if isMultiple then Ok (Js.join "/" l)
        else Thrown "Expected single value for parameter"
    | Some (Str v) => Ok v
    end.

(** The counter object of the interpolator. Inside a query block the
    source hands the array index to the compiler instead ([None] here);
    incrementing a property of a number is a TypeError in a module. *)
Definition InterpolationCtx : Type := option nat.

Fixpoint simpleAstToInterpolationPart (ast : AST) (ctx : InterpolationCtx)
    (isOptional isMultiple : bool) : Result (InterpolationPart * InterpolationCtx) :=
  match ast with
  | Literal literal => Ok (InterpolateLiteral literal, ctx)
  | OneOrMore p => simpleAstToInterpolationPart p ctx isOptional true
  | Optional p => simpleAstToInterpolationPart p ctx true isMultiple
  | Param name => Ok (InterpolateParam (getParam name isOptional isMultiple), ctx)
  | Prefix prefix p =>
      '(inner, ctx') ← simpleAstToInterpolationPart p ctx isOptional isMultiple;
      match inner with
      | InterpolateLiteral v => Ok (InterpolateLiteral (prefix +:+ v), ctx')
      | InterpolateParam f =>
          Ok (InterpolateParam (fun params =>
                v ← f params;
                Ok (if String.eqb v EmptyString then EmptyString else prefix +:+ v)),
              ctx')
      end
  | UnnamedParam =>
      match ctx with
      | Some n =>
          Ok (InterpolateParam (getParam (number_key n) isOptional isMultiple),
              Some (S n))
      | None => Thrown "Cannot create property 'unnamed' on number"
      end
  | WithSchema a _ => simpleAstToInterpolationPart a ctx isOptional isMultiple
  | ZeroOrMore p => simpleAstToInterpolationPart p ctx true true
  | Concat _ _ => Thrown "Unexpected Concatatenation of AST segments"
  | QueryParams _ _ => Thrown "Unexpected QueryParams"
  end.

Definition queryParamToInterpolationPart (queryParam : QueryParam)
    (ctx : InterpolationCtx) : Result InterpolationPart :=
  '(simplePart, _) ← simpleAstToInterpolationPart (value queryParam) ctx false false;
  match simplePart with
  | InterpolateLiteral v => Ok (InterpolateLiteral (key queryParam +:+ "=" +:+ v))
  | InterpolateParam f =>
      Ok (InterpolateParam (fun params =>
            v ← f params;
            Ok (if String.eqb v EmptyString then EmptyString
                else key queryParam +:+ "=" +:+ v)))
  end.

Definition queryParamsToInterpolationPart (params : list QueryParam)
  : Result InterpolationPart :=
  parts ← mapM (fun qp => queryParamToInterpolationPart qp None) params;
  Ok (InterpolateParam (fun ps =>
        values ← mapM (fun part => partValue part ps) parts;
        let query := Js.join "&" (nonEmpty values) in
        Ok (if String.eqb query EmptyString then EmptyString else "?" +:+ query))).

Definition astSegmentToInterpolationPart (astSegment : list AST)
    (ctx : InterpolationCtx) : Result (InterpolationPart * InterpolationCtx) :=
  match astSegment with
  | [] => Thrown "Empty AST segment"
  | [ast] =>
      match ast with
      | Concat _ _ => Thrown "Unexpected Concatatenation of AST segments"
      | QueryParams _ params =>
          part ← queryParamsToInterpolationPart params; Ok (part, ctx)
      | _ => simpleAstToInterpolationPart ast ctx false false
      end
  | _ =>
      '(parts, ctx') ←
        compileAll (fun a ctx => simpleAstToInterpolationPart a ctx false false)
                   astSegment ctx;
      Ok (InterpolateParam (fun params =>
            values ← mapM (fun part => partValue part params) parts;
            Ok (Js.join EmptyString (nonEmpty values))),
          ctx')
  end.

Definition isLiteralPart (part : InterpolationPart) : bool :=
  match part with
  | InterpolateLiteral _ => true
  | InterpolateParam _ => false
  end.

(** [x || '/']. *)
Definition orRoot (x : string) : string :=
  if String.eqb x EmptyString then "/" else x.

Definition astToInterpolation (ast : AST) : Result InterpolationPart :=
  '(parts, _) ← compileAll astSegmentToInterpolationPart (getAstSegments ast) (Some 0);
  if forallb isLiteralPart parts
  then
    Ok (InterpolateLiteral
          (orRoot (Path.pathJoin
             (map (fun part => match part with
                               | InterpolateLiteral v => v
                               | InterpolateParam _ => EmptyString
                               end) parts))))
  else
    Ok (InterpolateParam (fun params =>
          values ← mapM (fun part => partValue part params) parts;
          Ok (orRoot (Path.pathJoin values)))).

End AST.

(* ===================================================================== *)
(** ** effect/Array *)
(* ===================================================================== *)

Module EffectArray.

(** [sortBy(order)(xs)] copies the input and calls the platform's
    [Array.prototype.sort], which is stable: an element is placed in front
    of the first element it does not have to follow. *)
Fixpoint insert {A} (compare : A → A → Z) (x : A) (sorted : list A) : list A :=
  match sorted with
  | [] => [x]
  | y :: rest =>
      if Z.leb (compare x y) 0 then x :: sorted
      else y :: insert compare x rest
  end.

Definition sortBy {A} (compare : A → A → Z) (xs : list A) : list A :=
  foldr (insert compare) [] xs.

End EffectArray.

(* ===================================================================== *)
(** ** Routes *)
(* ===================================================================== *)

Module Route.
Import AST.

Record RouteOptions : Type := mkRouteOptions { end_ : bool }.

Record Route : Type := mkRoute {
  routeAst : AST;
  routeOptions : RouteOptions
}.

(** [Partial<RouteOptions> | undefined]: the flag, when it is given. *)
Definition PartialRouteOptions : Type := option bool.

(** The constructor of [RouteImpl]: [{ end: false, ...options }]. *)
Definition make (ast : AST) (options : PartialRouteOptions) : Route :=
  mkRoute ast (mkRouteOptions (default false options)).

Definition parse (path : string) (options : PartialRouteOptions) : Result Route :=
  ast ← AST.parse path; Ok (make ast options).

Definition literal (l : string) (options : PartialRouteOptions) : Route :=
  make (Literal (Path.removeLeadingSlash (Path.removeTrailingSlash l))) options.

Definition separator : Route := make (Literal "/") None.
Definition home : Route := make (Literal "/") (Some true).
Definition param (name : string) (options : PartialRouteOptions) : Route :=
  make (Param name) options.

Definition dontMergeTags : list string := ["WithSchema"; "QueryParams"; "QueryParam"].

(** [tags.includes(tag)]. *)
Definition includes (tags : list string) (tag : string) : bool :=
  existsb (String.eqb tag) tags.

Definition concat (left right : Route) : Route :=
  make (AST.concat (routeAst left) (routeAst right))
       (Some (end_ (if includes dontMergeTags (_tag (routeAst right))
                    then routeOptions left else routeOptions right))).

(** [getMatch(route, options)]: [options?.end ?? false]. *)
Definition getMatch (route : Route) (options : PartialRouteOptions)
  : Result (string → option (gmap string ParamValue)) :=
  matcher ← astToMatcher (routeAst route) (default false options);
  Ok (fun path =>
        let '(segments, q) := getPathAndQuery path in matcher segments q).

(** [route.match(path)]; the matcher is compiled on first use and kept,
    which a pure function cannot tell apart from compiling it each time. *)
Definition match_ (route : Route) (path : string)
  : Result (option (gmap string ParamValue)) :=
  m ← getMatch route (Some (end_ (routeOptions route))); Ok (m path).

Definition getInterpolate (route : Route)
  : Result (gmap string ParamValue → Result string) :=
  i ← astToInterpolation (routeAst route);
  match i with
  | InterpolateLiteral v => Ok (fun _ => Ok v)
  | InterpolateParam f => Ok f
  end.

Definition interpolate (route : Route) (params : gmap string ParamValue)
  : Result string :=
  i ← getInterpolate route; i params.

(** [decode(route, path)]: the structural match, then the validator of
    the route's schema. The validator is an external collaborator and is
    passed in; the failure says which of the two steps gave up. *)
Inductive DecodeFailure : Type := RouteNotMatched | RouteDecodeError.

Definition decode {T} (schemaDecode : gmap string ParamValue → option T)
    (route : Route) (path : string) : Result (DecodeFailure + T) :=
  m ← match_ route path;
  Ok (match m with
      | None => inl RouteNotMatched
      | Some params =>
          match schemaDecode params with
          | Some t => inr t
          | None => inl RouteDecodeError
          end
      end).

(** *** Specificity *)

Definition guessComplexity (part : string) : Z :=
  if String.eqb part EmptyString then (-1)%Z
  else
    fold_left
      (fun complexity c =>
         let complexity :=
           if Ascii.eqb c ":" then (complexity + 1)%Z else complexity in
         if Ascii.eqb c "{" then (complexity + 1)%Z else complexity)
      (list_ascii_of_string part) 0%Z.

(** The loop of the comparator over the positions both templates have;
    [None] when it runs to its end. *)
Fixpoint compareParts (aParts bParts : list string) : option Z :=
  match aParts, bParts with
  | a :: aRest, b :: bRest =>
      if String.eqb a b then compareParts aRest bRest
      else
        let aComplexity := guessComplexity a in
        let bComplexity := guessComplexity b in
        if Z.eqb aComplexity bComplexity then compareParts aRest bRest
        else if Z.eqb aComplexity 0 then Some (-1)%Z
        else if Z.eqb bComplexity 0 then Some 1%Z
        else if Z.ltb aComplexity bComplexity then Some (-1)%Z
        else Some 1%Z
  | _, _ => None
  end.

Definition comparePaths (aPath bPath : string) : Z :=
  let aParts := Js.split_char "/" aPath in
  let bParts := Js.split_char "/" bPath in
  match compareParts aParts bParts with
  | Some r => r
  | None =>
      if Nat.eqb (length aParts) (length bParts) then 0%Z
      else if Nat.ltb (length bParts) (length aParts) then (-1)%Z
      else 1%Z
  end.

Section Order.
Context `{Path.PathDSL}.

Definition path (route : Route) : string := toPath (routeAst route).

(** [Ord.make] answers 0 for one and the same object before it asks the
    comparator, which answers 0 there too. *)
Definition Order (a b : Route) : Z := comparePaths (path a) (path b).

Definition sortRoutes (routes : list Route) : list Route :=
  EffectArray.sortBy Order routes.
End Order.

End Route.

(* ===================================================================== *)
(** * Properties *)
(* ===================================================================== *)

Import AST.

(** ** Vocabulary of the properties *)

(** *** Concatenation *)

(** The combination rule as the specification words it: an empty first
    argument gives way to the second. *)
Definition merge_as_specified (a b : AST) : AST :=
  if isEmptyLiteral a then b else Concat a b.

Definition isQueryParams (a : AST) : bool :=
  match a with
  | QueryParams _ _ => true
  | _ => false
  end.

(** Looking a key up in a parameter list: the first entry that has it. *)
Definition definition_of (k : string) (params : list QueryParam) : option AST :=
  value <$> List.find (fun q => String.eqb (key q) k) params.

(** The parameter list of a query block at the root, if there is one. *)
Definition queryParamsOf (a : AST) : list QueryParam :=
  match a with
  | QueryParams _ params => params
  | _ => []
  end.

(** A node that [ensureSimpleAst] lets through, all the way down. *)
Fixpoint simpleNode (a : AST) : bool :=
  match a with
  | Literal _ | UnnamedParam | Param _ => true
  | ZeroOrMore p | OneOrMore p | Optional p | Prefix _ p | WithSchema p _ =>
      simpleNode p
  | Concat _ _ | QueryParams _ _ => false
  end.

(** A path without a query block: simple nodes under concatenations. *)
Fixpoint flatPath (a : AST) : bool :=
  match a with
  | Concat l r => flatPath l && flatPath r
  | WithSchema p _ => flatPath p
  | _ => simpleNode a
  end.

(** At most one query block, at the root, with simple values. *)
Definition wellFormed (a : AST) : bool :=
  match a with
  | QueryParams previous params =>
      flatPath previous && forallb (λ q, simpleNode (value q)) params
  | _ => flatPath a
  end.

(** The path under the query block, or the whole AST when there is none. *)
Definition pathPartOf (a : AST) : AST :=
  match a with
  | QueryParams previous _ => previous
  | _ => a
  end.

(** *** Example routes *)

(** The AST of the article pattern. *)
Definition articleAst : AST := Concat (Literal "articles") (Param "slug").

(** The pattern of C6 written with the escaped marker in front of the
    query block. *)
Definition searchPattern : string :=
  "/search" +:+ query_marker +:+ "q=:query&page=:page?".

Definition searchAst : AST :=
  QueryParams (Literal "search")
    [mkQueryParam "q" (Param "query");
     mkQueryParam "page" (Optional (Param "page"))].

(** A literal followed by a repetition. *)
Definition filesAst : AST := Concat (Literal "files") (OneOrMore (Param "path")).

(** *** Sorting *)

(** Two elements stand in order when the comparator does not put the
    first after the second. *)
Definition inOrder {A} (compare : A → A → Z) (x y : A) : Prop :=
  (compare x y ≤ 0)%Z.

(** Two elements tie when the comparator answers zero. *)
Definition tied {A} (compare : A → A → Z) (x y : A) : bool :=
  Z.eqb (compare x y) 0.

(** The four user routes, built from literals and one parameter. *)
Definition usersRoute : Route.Route := Route.literal "users" None.
Definition userIdRoute : Route.Route :=
  Route.concat usersRoute (Route.param "id" None).
Definition settingsRoute : Route.Route :=
  Route.concat usersRoute (Route.literal "settings" None).
Definition postsRoute : Route.Route :=
  Route.concat userIdRoute (Route.literal "posts" None).

(** The comparator read on the complexities of the parts alone. *)
Fixpoint compareKeys (aKeys bKeys : list Z) : Z :=
  match aKeys, bKeys with
  | x :: aRest, y :: bRest =>
      if Z.eqb x y then compareKeys aRest bRest
      else if Z.eqb x 0 then (-1)%Z
      else if Z.eqb y 0 then 1%Z
      else if Z.ltb x y then (-1)%Z
      else 1%Z
  | [], [] => 0%Z
  | _ :: _, [] => (-1)%Z
  | [], _ :: _ => 1%Z
  end.

(** *** Patterns *)

(** An occurrence of the separator somewhere in the text. *)
Fixpoint occurs (sep s : string) : bool :=
  match s with
  | EmptyString => false
  | String _ s' => Js.startsWith sep s || occurs sep s'
  end.

(** A text of ASCII characters. *)
Fixpoint asciiText (s : string) : bool :=
  match s with
  | EmptyString => true
  | String a s' => Nat.ltb (nat_of_ascii a) 128 && asciiText s'
  end.

(** The segments of a path part: one backslash at its end is dropped, the
    rest is cut at the separators, and an empty first and an empty last
    segment are discarded. *)
Definition segmentsOf (pathPart : string) : list string :=
  pop_empty
    (shift_empty
       (Js.split_char "/"
          (if Js.endsWith_char Js.backslash pathPart then Js.drop_last pathPart
           else pathPart))).

(** The pairs of a query part, as [parseQuery] cuts them out. *)
Definition queryPairs (queryString : string) : list string :=
  Js.split_char "&"
    (if Js.head_is "?" queryString then Js.drop_first queryString
     else queryString).

(** *** Plain routes *)

(** A character that the URL parser hands back unchanged anywhere in a
    path: a letter, a digit, or one of the four unreserved marks. *)
Definition plainChar (c : ascii) : bool :=
  let n := nat_of_ascii c in
  (Nat.leb 48 n && Nat.leb n 57) || (Nat.leb 65 n && Nat.leb n 90)
  || (Nat.leb 97 n && Nat.leb n 122)
  || Nat.eqb n 45 || Nat.eqb n 46 || Nat.eqb n 95 || Nat.eqb n 126.

Fixpoint allPlain (s : string) : bool :=
  match s with
  | EmptyString => true
  | String a s' => plainChar a && allPlain s'
  end.

(** A plain segment is not empty, is made of plain characters, and is not
    one of the two dot segments. *)
Definition plainSegment (s : string) : bool :=
  negb (String.eqb s EmptyString) && allPlain s
  && negb (String.eqb s ".") && negb (String.eqb s "..").

(** The routes of the round trip: literals that are the bare separator or a
    plain segment, named parameters, and their concatenations. *)
Fixpoint plainRoute (a : AST) : bool :=
  match a with
  | Literal l => String.eqb l "/" || plainSegment l
  | Param _ => true
  | Concat l r => plainRoute l && plainRoute r
  | _ => false
  end.

Fixpoint paramNames (a : AST) : list string :=
  match a with
  | Param name => [name]
  | Concat l r => paramNames l ++ paramNames r
  | _ => []
  end.

Fixpoint hasChar (c : ascii) (s : string) : bool :=
  match s with
  | EmptyString => false
  | String a s' => Ascii.eqb a c || hasChar c s'
  end.

(** The rendering of a list of plain segments: each one behind a
    separator. *)
Fixpoint slashed (segments : list string) : string :=
  match segments with
  | [] => EmptyString
  | s :: rest => "/" +:+ s +:+ slashed rest
  end.

(** The groups of a plain route, one leaf each. *)
Inductive Leaf : Type :=
| LeafLiteral (literal : string)
| LeafParam (name : string).

Definition leafAst (x : Leaf) : AST :=
  match x with
  | LeafLiteral l => Literal l
  | LeafParam n => Param n
  end.

Fixpoint leaves (a : AST) : list Leaf :=
  match a with
  | Literal l => if String.eqb l "/" then [] else [LeafLiteral l]
  | Param n => [LeafParam n]
  | Concat l r => leaves l ++ leaves r
  | _ => []
  end.

Definition leafNames (ls : list Leaf) : list string :=
  omap (λ x, match x with LeafParam n => Some n | LeafLiteral _ => None end) ls.

Definition leafMatcher (x : Leaf) : Matcher :=
  match x with
  | LeafLiteral l => literalMatcher l
  | LeafParam n => getParamByKey n false false
  end.

Definition leafPart (x : Leaf) : InterpolationPart :=
  match x with
  | LeafLiteral l => InterpolateLiteral l
  | LeafParam n => InterpolateParam (getParam n false false)
  end.

(** The segment a leaf is rendered as. *)
Definition render (P : gmap string ParamValue) (x : Leaf) : string :=
  match x with
  | LeafLiteral l => l
  | LeafParam n => match P !! n with
                   | Some (Str s) => s
                   | _ => EmptyString
                   end
  end.

Definition validLeaf (P : gmap string ParamValue) (x : Leaf) : Prop :=
  match x with
  | LeafLiteral l => plainSegment l = true
  | LeafParam n => ∃ s, P !! n = Some (Str s) ∧ plainSegment s = true
  end.

(** *** Segment routes *)

(** A route in which every group takes exactly one segment: literals,
    named and unnamed parameters, either of them behind a prefix, and
    concatenations. A piece is a group with its key worked out. *)
Inductive Piece : Type :=
| PieceLiteral (literal : string)
| PieceKey (k : string)
| PiecePrefix (prefix k : string).

(** The pieces of an AST, with the counter of unnamed parameters passed
    along; [None] outside the class. *)
Fixpoint pieces (a : AST) (ctx : nat) : option (list Piece * nat) :=
  match a with
  | Literal l => Some (if String.eqb l "/" then [] else [PieceLiteral l], ctx)
  | Param n => Some ([PieceKey n], ctx)
  | UnnamedParam => Some ([PieceKey (number_key ctx)], S ctx)
  | Prefix p (Param n) => Some ([PiecePrefix p n], ctx)
  | Prefix p UnnamedParam => Some ([PiecePrefix p (number_key ctx)], S ctx)
  | Concat l r =>
      match pieces l ctx with
      | Some (ls, ctx1) =>
          match pieces r ctx1 with
          | Some (rs, ctx2) => Some (ls ++ rs, ctx2)
          | None => None
          end
      | None => None
      end
  | _ => None
  end.

Definition pieceKeys (ps : list Piece) : list string :=
  omap (λ p, match p with
             | PieceLiteral _ => None
             | PieceKey k | PiecePrefix _ k => Some k
             end) ps.

Definition pieceMatcher (p : Piece) : Matcher :=
  match p with
  | PieceLiteral l => literalMatcher l
  | PieceKey k => getParamByKey k false false
  | PiecePrefix pre k => prefixMatcher pre (getParamByKey k false false)
  end.

Definition piecePart (p : Piece) : InterpolationPart :=
  match p with
  | PieceLiteral l => InterpolateLiteral l
  | PieceKey k => InterpolateParam (getParam k false false)
  | PiecePrefix pre k =>
      InterpolateParam (fun params =>
        v ← getParam k false false params;
        Ok (if String.eqb v EmptyString then EmptyString else pre +:+ v))
  end.

(** Whether a piece takes a segment, and what it captures from it. *)
Definition accepts (p : Piece) (s : string) : bool :=
  match p with
  | PieceLiteral l => String.eqb s l
  | PieceKey _ => negb (String.eqb s EmptyString)
  | PiecePrefix pre _ =>
      Js.startsWith pre s
      && negb (String.eqb (Js.slice_from (String.length pre) s) EmptyString)
  end.

Definition captureOf (p : Piece) (s : string) : gmap string Captured :=
  match p with
  | PieceLiteral _ => ∅
  | PieceKey k => {[ k := Own (Str s) ]}
  | PiecePrefix pre k => {[ k := Own (Str (Js.slice_from (String.length pre) s)) ]}
  end.

(** Matching the pieces against the segments, one for one. *)
Fixpoint matchPieces (ps : list Piece) (segments : list string)
    (result : gmap string Captured)
  : option (gmap string Captured * list string) :=
  match ps with
  | [] => Some (result, segments)
  | p :: ps' =>
      match segments with
      | s :: rest =>
          if accepts p s then matchPieces ps' rest (assign result (captureOf p s))
          else None
      | [] => None
      end
  end.

(** What the pieces capture from the segments they are paired with. *)
Definition capturedBy (ps : list Piece) (used : list string)
    (result : gmap string Captured) : gmap string Captured :=
  fold_left (λ m x, assign m (captureOf (fst x) (snd x))) (zip ps used) result.

(** A piece whose fixed text is made of plain characters. *)
Definition plainPiece (p : Piece) : bool :=
  match p with
  | PieceLiteral l => plainSegment l
  | PieceKey _ => true
  | PiecePrefix pre _ => allPlain pre
  end.

(** The segment a piece is rendered as from a parameter map. *)
Definition renderPiece (P : gmap string ParamValue) (p : Piece) : string :=
  match p with
  | PieceLiteral l => l
  | PieceKey k =>
      match P !! k with Some (Str s) => s | _ => EmptyString end
  | PiecePrefix pre k =>
      pre +:+ match P !! k with Some (Str s) => s | _ => EmptyString end
  end.

(** The value a piece has in a map: where it is, and plain. *)
Definition pieceBound (P : gmap string ParamValue) (p : Piece) : Prop :=
  match p with
  | PieceLiteral _ => True
  | PieceKey k | PiecePrefix _ k =>
      ∃ s, P !! k = Some (Str s) ∧ plainSegment s = true
  end.

(** A repetition of a named parameter: zero or more when [optional],
    one or more otherwise. *)
Definition repetition (optional : bool) (k : string) : AST :=
  if optional then ZeroOrMore (Param k) else OneOrMore (Param k).

(** *** Query strings *)

(** Two query strings that hold the same values, in the same order, under
    each of the given keys. *)
Definition agreeOn (keys : list string) (q q' : URLSearchParams) : Prop :=
  ∀ k, k ∈ keys → query_getAll k q = query_getAll k q'.

(** A matcher that does not look at the query and leaves it as it is. *)
Definition pathOnly (m : Matcher) : Prop :=
  ∀ segments, ∃ r segments',
    ∀ q, m (mkCursor segments q) = (r, mkCursor segments' q).

(** A matcher whose result, and whose effect on the segments and on the
    values under the given keys, depend on the segments and on the values
    under these keys only. *)
Definition readsOnly (keys : list string) (m : Matcher) : Prop :=
  ∀ c c',
    pathSegments c = pathSegments c' →
    agreeOn keys (query c) (query c') →
    fst (m c) = fst (m c')
    ∧ pathSegments (snd (m c)) = pathSegments (snd (m c'))
    ∧ agreeOn keys (query (snd (m c))) (query (snd (m c'))).

(** A matcher that leaves a key out of the query when it is not there, and
    one that fails when it is not there. *)
Definition keepsAbsent (k : string) (m : Matcher) : Prop :=
  ∀ c, query_getAll k (query c) = [] → query_getAll k (query (snd (m c))) = [].

Definition needsKey (k : string) (m : Matcher) : Prop :=
  ∀ c, query_getAll k (query c) = [] → fst (m c) = None.

(** Whether the value of a query parameter makes its key mandatory: a
    literal always does, a parameter does unless an [Optional] or a
    [ZeroOrMore] stands above it. *)
Fixpoint requiresKey (v : AST) (isOptional : bool) : bool :=
  match v with
  | Literal _ => true
  | Param _ | UnnamedParam => negb isOptional
  | Optional p | ZeroOrMore p => requiresKey p true
  | OneOrMore p | Prefix _ p | WithSchema p _ => requiresKey p isOptional
  | Concat _ _ | QueryParams _ _ => false
  end.

(** *** Patterns written segment by segment *)

(** A segment of a pattern: a literal, or a colon and the name of a
    parameter with its modifiers. *)
Inductive Token : Type :=
| TokenLiteral (text : string)
| TokenParam (name : string).

Definition tokenText (t : Token) : string :=
  match t with
  | TokenLiteral text => text
  | TokenParam name => String ":" name
  end.

Definition tokenNode (t : Token) : AST :=
  match t with
  | TokenLiteral text => Literal text
  | TokenParam name => parseParam name
  end.

(** A text without separator, backslash and opening brace. *)
Definition freeText (s : string) : bool :=
  negb (hasChar "/" s) && negb (hasChar Js.backslash s) && negb (hasChar "{" s).

(** A literal is not empty, does not start with a colon and is not one of
    the two wildcards. *)
Definition validToken (t : Token) : bool :=
  freeText (tokenText t)
  && match t with
     | TokenLiteral text =>
         negb (String.eqb text EmptyString) && negb (Js.head_is ":" text)
         && negb (String.eqb text Path.unnamed) && negb (String.eqb text "*")
     | TokenParam _ => true
     end.

(** *** Query routes *)

(** A field of a query block: a key of the query string and the name of
    the parameter it carries, mandatory or optional. *)
Inductive Field : Type :=
| FieldRequired (k name : string)
| FieldOptional (k name : string).

Definition fieldKey (f : Field) : string :=
  match f with FieldRequired k _ | FieldOptional k _ => k end.

Definition fieldName (f : Field) : string :=
  match f with FieldRequired _ name | FieldOptional _ name => name end.

Definition fieldOptional (f : Field) : bool :=
  match f with FieldRequired _ _ => false | FieldOptional _ _ => true end.

Definition fieldParam (f : Field) : QueryParam :=
  match f with
  | FieldRequired k name => mkQueryParam k (Param name)
  | FieldOptional k name => mkQueryParam k (Optional (Param name))
  end.

Definition requiredNames (fs : list Field) : list string :=
  fieldName <$> List.filter (λ f, negb (fieldOptional f)) fs.

Definition fieldMatcher (f : Field) : Matcher :=
  getQueryParamByKey (fieldKey f) (fieldName f) (fieldOptional f) false.

Definition fieldPart (f : Field) : InterpolationPart :=
  InterpolateParam (fun params =>
    v ← getParam (fieldName f) (fieldOptional f) false params;
    Ok (if String.eqb v EmptyString then EmptyString
        else fieldKey f +:+ "=" +:+ v)).

(** The string a map gives to a name, if it gives one. *)
Definition stringAt (P : gmap string ParamValue) (name : string) : option string :=
  match P !! name with
  | Some (Str s) => Some s
  | _ => None
  end.

(** The pairs of the query string that renders a map, and its text. *)
Definition fieldPairs (P : gmap string ParamValue) (fs : list Field)
  : URLSearchParams :=
  omap (λ f, (λ s, (fieldKey f, s)) <$> stringAt P (fieldName f)) fs.

Definition pairText (kv : string * string) : string :=
  fst kv +:+ "=" +:+ snd kv.

Definition queryText (q : URLSearchParams) : string :=
  let query := Js.join "&" (map pairText q) in
  if String.eqb query EmptyString then EmptyString else "?" +:+ query.

(** What the fields capture from the query string that renders a map. *)
Definition fieldCaptures (P : gmap string ParamValue) (fs : list Field)
    (result : gmap string Captured) : gmap string Captured :=
  fold_left (λ m f, assign m (match stringAt P (fieldName f) with
                              | Some s => {[ fieldName f := Own (Str s) ]}
                              | None => ∅
                              end)) fs result.

(** The value a field has in a map: a plain string, or none when the
    field is optional. *)
Definition fieldBound (P : gmap string ParamValue) (f : Field) : Prop :=
  match P !! fieldName f with
  | Some (Str s) => plainSegment s = true
  | Some (Arr _) => False
  | None => fieldOptional f = true
  end.

(** *** Prefix segments *)

(** A text that can stand inside the braces of a prefix segment, on either
    side of the colon: ASCII characters other than the separator, the
    backslash, the braces, the colon and the line terminators. *)
Fixpoint braceFree (s : string) : bool :=
  match s with
  | EmptyString => true
  | String a s' =>
      Nat.ltb (nat_of_ascii a) 128
      && negb (Ascii.eqb a "/") && negb (Ascii.eqb a Js.backslash)
      && negb (Ascii.eqb a "{") && negb (Ascii.eqb a "}")
      && negb (Ascii.eqb a ":") && negb (is_line_terminator a)
      && braceFree s'
  end.

(** The text of a prefix segment. *)
Definition prefixText (pre name : string) : string :=
  String "{" (pre +:+ String ":" (name +:+ "}")).

(** ** Statements and proofs *)

(** ** Concatenation *)

Lemma isEmptyLiteral_spec (a : AST) :
  isEmptyLiteral a = true ↔ a = Literal EmptyString ∨ a = Literal "/".
Proof.
  split.
  - destruct a as [l| | | | | | | | |]; simpl; try discriminate.
    unfold Path.removeTrailingSlash, Js.endsWith_char.
    destruct l as [|c [|d l]]; simpl; auto.
    + destruct (Ascii.eqb c "/") eqn:E; simpl; intros H; try discriminate.
      apply Ascii.eqb_eq in E. subst. auto.
    + match goal with |- context [if ?b then _ else _] => destruct b end;
        simpl; intros H; discriminate.
  - intros [-> | ->]; reflexivity.
Qed.

Lemma existsb_key_elem (k : string) (params : list QueryParam) :
  existsb (fun y => String.eqb k (key y)) params = true ↔ k ∈ map key params.
Proof.
  rewrite existsb_exists, list_elem_of_In, in_map_iff. split.
  - intros (y & Hy & E). apply String.eqb_eq in E. eauto.
  - intros (y & E & Hy). exists y. split; [done|]. by apply String.eqb_eq.
Qed.

Lemma find_filter_out (k : string) (rparams lparams : list QueryParam) :
  k ∈ map key rparams →
  List.find (fun q => String.eqb (key q) k)
    (List.filter
       (fun x => negb (existsb (fun y => String.eqb (key x) (key y)) rparams))
       lparams) = None.
Proof.
  intros Hk. induction lparams as [|x l IH]; simpl; [done|].
  destruct (existsb _ rparams) eqn:E; simpl; [done|].
  destruct (String.eqb (key x) k) eqn:Ek; [|done].
  apply String.eqb_eq in Ek. subst k.
  apply existsb_key_elem in Hk. congruence.
Qed.

Lemma find_app_None {A} (f : A → bool) (l1 l2 : list A) :
  List.find f l1 = None → List.find f (l1 ++ l2) = List.find f l2.
Proof.
  induction l1 as [|x l1 IH]; simpl; [done|]. destruct (f x); [done|auto].
Qed.

(** C4: concatenating two ASTs whose roots are both query blocks gives a
    query block whose parameter list is the left list without the keys the
    right list declares, in its order, followed by the whole right list; a
    key declared on both sides keeps the right-hand definition. *)
Theorem concat_query_blocks (lprev rprev : AST) (lparams rparams : list QueryParam) :
  ∃ previous,
    concat (QueryParams lprev lparams) (QueryParams rprev rparams)
    = QueryParams previous
        (base.filter (λ x, key x ∉ map key rparams) lparams ++ rparams)
    ∧ ∀ k, k ∈ map key lparams → k ∈ map key rparams →
        definition_of k
          (base.filter (λ x, key x ∉ map key rparams) lparams ++ rparams)
        = definition_of k rparams.
Proof.
  assert (Hf : List.filter
            (fun x => negb (existsb (fun y => String.eqb (key x) (key y)) rparams))
            lparams
          = base.filter (λ x, key x ∉ map key rparams) lparams).
  { induction lparams as [|x l IH]; simpl; [done|].
    rewrite filter_cons. destruct (existsb _ rparams) eqn:E; simpl.
    - apply existsb_key_elem in E. by rewrite decide_False by auto.
    - rewrite decide_True; [by rewrite IH|].
      intros Hin. apply existsb_key_elem in Hin. congruence. }
  eexists. split.
  - simpl. rewrite Hf. reflexivity.
  - intros k _ Hr. rewrite <- Hf. unfold definition_of.
    by rewrite find_app_None by by apply find_filter_out.
Qed.

Lemma concat_query_blocks_witness :
  ∃ previous,
    concat (QueryParams (Literal "a") [mkQueryParam "k" (Param "x");
                                       mkQueryParam "l" (Param "y")])
           (QueryParams (Literal "/") [mkQueryParam "m" (Param "z");
                                       mkQueryParam "k" (Param "w")])
    = QueryParams previous [mkQueryParam "l" (Param "y");
                            mkQueryParam "m" (Param "z");
                            mkQueryParam "k" (Param "w")]
    ∧ definition_of "k" [mkQueryParam "l" (Param "y");
                         mkQueryParam "m" (Param "z");
                         mkQueryParam "k" (Param "w")] = Some (Param "w").
Proof.
  destruct (concat_query_blocks (Literal "a") (Literal "/")
              [mkQueryParam "k" (Param "x"); mkQueryParam "l" (Param "y")]
              [mkQueryParam "m" (Param "z"); mkQueryParam "k" (Param "w")])
    as (previous & Heq & Hdef).
  exists previous. split.
  - exact Heq.
  - apply (Hdef "k"); simpl; set_solver.
Defined.

(** C7, as stated, fails where only the right operand is a query block: an
    empty left literal is kept, because the test is made on the other
    argument. *)
Lemma concat_merge_counterexample :
  concat (Literal EmptyString) (QueryParams (Param "x") [])
  = QueryParams (Concat (Literal EmptyString) (Param "x")) []
  ∧ concat (Literal EmptyString) (QueryParams (Param "x") [])
    ≠ QueryParams (merge_as_specified (Literal EmptyString) (Param "x")) [].
Proof. split; [reflexivity | discriminate]. Qed.

(** C7 (amended): where only the right operand is a query block, the new
    previous node is the left operand when the block's previous node is an
    empty literal, and the concatenation of the two otherwise; where only
    the left operand is a query block, the new previous node is the
    specified merge of the block's previous node with the right operand.
    An empty literal is a literal whose text is empty or the separator. *)
Theorem concat_previous_rule (l r previous : AST) (params : list QueryParam) :
  (isQueryParams l = false →
     concat l (QueryParams previous params)
     = QueryParams (if isEmptyLiteral previous then l else Concat l previous) params)
  ∧ (isQueryParams r = false →
     concat (QueryParams previous params) r
     = QueryParams (merge_as_specified previous r) params)
  ∧ (isEmptyLiteral previous = true
     ↔ previous = Literal EmptyString ∨ previous = Literal "/").
Proof.
  split; [|split].
  - destruct l; simpl; intros Hl; try discriminate; reflexivity.
  - destruct r; simpl; intros Hr; try discriminate; reflexivity.
  - apply isEmptyLiteral_spec.
Qed.

Lemma concat_previous_rule_witness :
  concat (Literal "users") (QueryParams (Literal "/") [mkQueryParam "q" (Param "query")])
  = QueryParams (Literal "users") [mkQueryParam "q" (Param "query")]
  ∧ concat (QueryParams (Literal "/") [mkQueryParam "q" (Param "query")]) (Literal "users")
    = QueryParams (Literal "users") [mkQueryParam "q" (Param "query")].
Proof.
  destruct (concat_previous_rule (Literal "users") (Literal "users") (Literal "/")
              [mkQueryParam "q" (Param "query")]) as (Hr & Hl & _).
  split.
  - apply Hr. reflexivity.
  - apply Hl. reflexivity.
Defined.

(** C10: the concatenation of two routes carries the right route's options,
    unless the root tag of the right AST is one of WithSchema, QueryParams
    and QueryParam, in which case it carries the left route's options. *)
Theorem concat_route_options (l r : Route.Route) :
  Route.routeOptions (Route.concat l r)
  = if bool_decide (_tag (Route.routeAst r) ∈ ["WithSchema"; "QueryParams"; "QueryParam"])
    then Route.routeOptions l else Route.routeOptions r.
Proof.
  unfold Route.concat, Route.make. cbn [Route.routeOptions].
  assert (Hinc : Route.includes Route.dontMergeTags (_tag (Route.routeAst r))
                 = bool_decide (_tag (Route.routeAst r)
                                ∈ ["WithSchema"; "QueryParams"; "QueryParam"])).
  { destruct (Route.routeAst r); vm_compute; reflexivity. }
  rewrite Hinc. destruct (bool_decide _).
  - by destruct (Route.routeOptions l).
  - by destruct (Route.routeOptions r).
Qed.

(** ** Matching examples *)

(** C2: the pattern of an article, matched with and without the
    requirement that the whole path be consumed. *)
Theorem article_route_examples :
  Route.parse "/articles/:slug" (Some true)
  = Ok (Route.mkRoute articleAst (Route.mkRouteOptions true))
  ∧ Route.match_ (Route.make articleAst (Some true)) "/articles/123"
    = Ok (Some {[ "slug" := Str "123" ]})
  ∧ Route.match_ (Route.make articleAst (Some true)) "/articles/123/comments"
    = Ok None
  ∧ Route.match_ (Route.make articleAst (Some false)) "/articles/123/comments"
    = Ok (Some {[ "slug" := Str "123" ]})
  ∧ Route.match_ (Route.make articleAst (Some false)) "/articles/123"
    = Ok (Some {[ "slug" := Str "123" ]}).
Proof. repeat split; vm_compute; reflexivity. Qed.

(** C6, as stated, fails: a bare question mark does not start a query block
    in a pattern, the whole pattern is one literal segment and matches no
    path. *)
Lemma search_pattern_counterexample :
  Route.parse "/search?q=:query&page=:page?" None
  = Ok (Route.make (Literal "search?q=:query&page=:page?") None)
  ∧ Route.match_ (Route.make (Literal "search?q=:query&page=:page?") None)
      "/search?q=test" = Ok None.
Proof. split; vm_compute; reflexivity. Qed.

(** C6 (amended): with the query block introduced by the escaped marker,
    the required key must be present and the optional one may be. *)
Theorem search_route_examples :
  Route.parse searchPattern None = Ok (Route.make searchAst None)
  ∧ Route.match_ (Route.make searchAst None) "/search?q=test"
    = Ok (Some {[ "query" := Str "test" ]})
  ∧ Route.match_ (Route.make searchAst None) "/search" = Ok None
  ∧ Route.match_ (Route.make searchAst None) "/search?q=test&page=2"
    = Ok (Some ({[ "query" := Str "test" ]} ∪ {[ "page" := Str "2" ]})).
Proof. repeat split; vm_compute; reflexivity. Qed.

(** ** Repetition *)

(** C3: what the code does at a repetition capture. The capture stores the
    segments array and leaves the cursor as it found it, so the segments
    are still there after the group has run; a route that requires the
    whole path to be consumed then fails. *)
Theorem repetition_leaves_cursor :
  (∀ name ctx,
     simpleAstToMatcher (OneOrMore (Param name)) ctx false false
     = Ok (getParamByKey name false true, ctx)
     ∧ simpleAstToMatcher (ZeroOrMore (Param name)) ctx false false
       = Ok (getParamByKey name true true, ctx))
  ∧ (∀ k isOptional c, snd (getParamByKey k isOptional true c) = c)
  ∧ getParamByKey "path" false true (mkCursor ["a"; "b"] [])
    = (Some {[ "path" := SegmentsArray ]}, mkCursor ["a"; "b"] [])
  ∧ Route.match_ (Route.make filesAst (Some true)) "/files/a/b" = Ok None
  ∧ Route.match_ (Route.make filesAst (Some false)) "/files/a/b"
    = Ok (Some {[ "path" := Arr ["a"; "b"] ]}).
Proof.
  split; [by split|].
  split; [|repeat split; vm_compute; reflexivity].
  intros k o c. unfold getParamByKey.
  destruct (negb o && Nat.eqb (length (pathSegments c)) 0); reflexivity.
Qed.

(** ** Parsing *)

Lemma split_char_nonempty (c : ascii) (s : string) : Js.split_char c s ≠ [].
Proof.
  induction s as [|a s IH]; simpl; [done|].
  destruct (Ascii.eqb a c); [done|]. by destruct (Js.split_char c s).
Qed.

Lemma mapM_Ok_Forall {A B} (f : A → Result B) (P : B → Prop) (l : list A) :
  (∀ x b, f x = Ok b → P b) →
  ∀ l', mapM f l = Ok l' → Forall P l'.
Proof.
  intros Hf. induction l as [|x l IH]; simpl; intros l' H.
  - injection H as <-. constructor.
  - destruct (f x) as [b|] eqn:Eb; simpl in H; [|discriminate].
    destruct (mapM f l) as [bs|] eqn:Ebs; simpl in H; [|discriminate].
    injection H as <-. constructor; eauto.
Qed.

Lemma parseParam_rev_not_query (r : list ascii) :
  isQueryParams (parseParam_rev r) = false.
Proof.
  destruct r as [|a r]; simpl; [done|].
  repeat (match goal with |- context [if ?b then _ else _] => destruct b end);
    reflexivity.
Qed.

Lemma parsePathPart_not_query (part : string) :
  isQueryParams (parsePathPart part) = false.
Proof.
  unfold parsePathPart, parsePrefix, parseParam.
  repeat (match goal with
          | |- context [if ?b then _ else _] => destruct b
          | |- context [match ?l with [] => _ | _ :: _ => _ end] => destruct l
          end);
    simpl; auto using parseParam_rev_not_query.
Qed.

Lemma fold_left_Concat_root (rest : list AST) (x : AST) :
  rest ≠ [] → isQueryParams (fold_left Concat rest x) = false.
Proof.
  revert x. induction rest as [|y rest IH]; intros x Hne; [done|]. simpl.
  destruct rest as [|z rest]; [reflexivity|]. by apply IH.
Qed.

Lemma parsePathSegment_not_query (segment : string) (a : AST) :
  parsePathSegment segment = Ok a → isQueryParams a = false.
Proof.
  unfold parsePathSegment.
  assert (Hparts : Forall (λ p, isQueryParams p = false)
                     (map parsePathPart (splitByPrefixes segment))).
  { apply Forall_forall. intros p Hp. apply list_elem_of_In, in_map_iff in Hp.
    destruct Hp as (x & <- & _). apply parsePathPart_not_query. }
  destruct (map parsePathPart (splitByPrefixes segment)) as [|p [|p' ps]].
  - by intros [= <-].
  - intros [= <-]. exact (Forall_inv Hparts).
  - intros [= <-]. apply (fold_left_Concat_root (p' :: ps) p). discriminate.
Qed.

Lemma pathAst_not_query (segments : list string) (a : AST) :
  pathAst segments = Ok a → isQueryParams a = false.
Proof.
  unfold pathAst. destruct (mapM parsePathSegment segments) as [all|] eqn:E;
    simpl; [|discriminate].
  apply (mapM_Ok_Forall _ (λ p, isQueryParams p = false)) in E;
    [|apply parsePathSegment_not_query].
  destruct all as [|x [|y rest]].
  - by intros [= <-].
  - intros [= <-]. exact (Forall_inv E).
  - intros [= <-]. apply (fold_left_Concat_root (y :: rest) x). discriminate.
Qed.

Lemma parsePathSegment_total (segment : string) :
  ∃ a, parsePathSegment segment = Ok a.
Proof.
  unfold parsePathSegment.
  destruct (map parsePathPart (splitByPrefixes segment)) as [|p [|p' ps]];
    eexists; reflexivity.
Qed.

Lemma mapM_total {A B} (f : A → Result B) (l : list A) :
  (∀ x, ∃ b, f x = Ok b) → ∃ l', mapM f l = Ok l'.
Proof.
  intros Hf. induction l as [|x l [l' IH]]; [by eexists|].
  destruct (Hf x) as [b Eb]. exists (b :: l'). cbn [mapM]. by rewrite Eb, IH.
Qed.

Lemma pathAst_total (segments : list string) : ∃ a, pathAst segments = Ok a.
Proof.
  unfold pathAst.
  destruct (mapM_total parsePathSegment segments parsePathSegment_total)
    as [all ->].
  destruct all; eexists; reflexivity.
Qed.

Lemma parseQuery_wraps (previous : AST) (queryString : string) (ast : AST) :
  parseQuery previous queryString = Ok ast →
  ∃ params, ast = QueryParams previous params.
Proof.
  unfold parseQuery.
  set (q := if Js.head_is "?" queryString then _ else _).
  pose proof (split_char_nonempty "&" q) as Hne.
  destruct (Js.split_char "&" q) as [|x l]; [done|].
  destruct (mapM parseQueryParam (x :: l)) as [ps|]; simpl; [|discriminate].
  intros [= <-]. eauto.
Qed.

Lemma startsWith_marker (a : ascii) (s : string) :
  Js.startsWith query_marker (String a s)
  = Ascii.eqb Js.backslash a && Js.head_is "?" s.
Proof.
  unfold query_marker. cbn [Js.startsWith Js.head_is].
  destruct s as [|b s]; [reflexivity|].
  by rewrite andb_true_r, (Ascii.eqb_sym "?" b).
Qed.

Lemma split_marker_free (q : string) :
  occurs query_marker q = false → Js.split_str query_marker q = [q].
Proof.
  unfold Js.split_str. induction q as [|a q IH]; [done|].
  cbn [occurs Js.split_from]. intros H. apply orb_false_iff in H as [H1 H2].
  by rewrite H1, IH.
Qed.

Lemma split_at_marker (p q : string) :
  occurs query_marker p = false →
  Js.split_str query_marker (p +:+ query_marker +:+ q)
  = p :: Js.split_str query_marker q.
Proof.
  unfold Js.split_str. induction p as [|a p IH]; intros H.
  - reflexivity.
  - cbn [occurs] in H. apply orb_false_iff in H as [H1 H2].
    change (String a p +:+ query_marker +:+ q)
      with (String a (p +:+ query_marker +:+ q)).
    cbn [Js.split_from].
    assert (Hpre : Js.startsWith query_marker
                     (String a (p +:+ query_marker +:+ q)) = false).
    { rewrite startsWith_marker in *.
      destruct (Ascii.eqb Js.backslash a); [|done].
      destruct p as [|b p]; [reflexivity|exact H1]. }
    rewrite Hpre. by rewrite (IH H2).
Qed.

(** C5, as stated, fails twice: a bare question mark does not separate path
    and query, and after the marker that does, an empty query part leaves
    the path AST unwrapped. *)
Lemma parse_query_counterexample :
  parse "/a?b=:c" = Ok (Literal "a?b=:c")
  ∧ parse ("/a" +:+ query_marker) = Ok (Literal "a")
  ∧ parse ("/a" +:+ query_marker +:+ "b=:c")
    = Ok (QueryParams (Literal "a") [mkQueryParam "b" (Param "c")]).
Proof. repeat split; vm_compute; reflexivity. Qed.

Lemma occurs_marker_cut (s : string) :
  occurs query_marker s = true →
  ∃ p r, s = p +:+ query_marker +:+ r ∧ occurs query_marker p = false.
Proof.
  induction s as [|a s IH]; [done|]. cbn [occurs]. intros H.
  destruct (Js.startsWith query_marker (String a s)) eqn:E.
  - exists EmptyString. rewrite startsWith_marker in E.
    apply andb_true_iff in E as [Ea Es]. apply Ascii.eqb_eq in Ea as <-.
    destruct s as [|b s]; [done|]. cbn [Js.head_is] in Es.
    apply Ascii.eqb_eq in Es as ->. by exists s.
  - destruct (IH H) as (p & r & -> & Hp). exists (String a p), r.
    split; [done|]. cbn [occurs]. rewrite Hp, orb_false_r.
    rewrite startsWith_marker in *. destruct (Ascii.eqb Js.backslash a); [|done].
    destruct p as [|b p]; [done|exact E].
Qed.

Lemma append_marker_nonempty (p r : string) :
  String.eqb (p +:+ query_marker +:+ r) EmptyString = false.
Proof. by destruct p. Qed.

(** C5 (amended): let the stripped pattern be what the two helpers of the
    Path module leave of the pattern. It is split at the escaped marker, a
    backslash followed by a question mark: the path part is its text in
    front of the first marker, all of it when there is none; the query part
    is the text between the first marker and the second, or the end, and
    empty when there is no marker. The path part, cut into segments, parses
    to the path AST, whose root is never a query block. When the query part
    is blank, [parse] returns the path AST; when it is not, and is a text
    of ASCII characters, whatever [parse] returns is a query block that
    wraps the path AST. *)
Theorem parse_query_block (pattern : string) :
  ∃ pathPart queryPart a,
    occurs query_marker pathPart = false
    ∧ occurs query_marker queryPart = false
    ∧ (Path.removeLeadingSlash (Path.removeTrailingSlash pattern) = pathPart
       ∧ queryPart = EmptyString
       ∨ Path.removeLeadingSlash (Path.removeTrailingSlash pattern)
         = pathPart +:+ query_marker +:+ queryPart
       ∨ ∃ tail,
           Path.removeLeadingSlash (Path.removeTrailingSlash pattern)
           = pathPart +:+ query_marker +:+ queryPart +:+ query_marker +:+ tail)
    ∧ splitByQueryParams pattern = (segmentsOf pathPart, queryPart)
    ∧ pathAst (segmentsOf pathPart) = Ok a
    ∧ isQueryParams a = false
    ∧ if String.eqb (Js.trim queryPart) EmptyString
      then parse pattern = Ok a
      else asciiText queryPart = true →
           ∀ ast, parse pattern = Ok ast → ∃ params, ast = QueryParams a params.
Proof.
  assert (Hsplit : ∃ pathPart queryPart,
            occurs query_marker pathPart = false
            ∧ occurs query_marker queryPart = false
            ∧ (Path.removeLeadingSlash (Path.removeTrailingSlash pattern)
               = pathPart ∧ queryPart = EmptyString
               ∨ Path.removeLeadingSlash (Path.removeTrailingSlash pattern)
                 = pathPart +:+ query_marker +:+ queryPart
               ∨ ∃ tail,
                   Path.removeLeadingSlash (Path.removeTrailingSlash pattern)
                   = pathPart +:+ query_marker +:+ queryPart
                     +:+ query_marker +:+ tail)
            ∧ splitByQueryParams pattern = (segmentsOf pathPart, queryPart)).
  { unfold splitByQueryParams.
    set (s := Path.removeLeadingSlash (Path.removeTrailingSlash pattern)).
    destruct (occurs query_marker s) eqn:Es.
    - destruct (occurs_marker_cut s Es) as (p & r & Hs & Hp).
      destruct (occurs query_marker r) eqn:Er.
      + destruct (occurs_marker_cut r Er) as (q & tail & Hr & Hq).
        exists p, q. split; [done|]. split; [done|].
        split; [right; right; exists tail; by rewrite Hs, Hr|].
        rewrite Hs, Hr, append_marker_nonempty.
        by rewrite !split_at_marker by done.
      + exists p, r. split; [done|]. split; [done|].
        split; [right; by left|].
        rewrite Hs, append_marker_nonempty.
        by rewrite split_at_marker, split_marker_free by done.
    - exists s, EmptyString. split; [done|]. split; [done|].
      split; [by left|].
      destruct (String.eqb_spec s EmptyString) as [->|_]; [reflexivity|].
      by rewrite split_marker_free by done. }
  destruct Hsplit as (pathPart & queryPart & Hp & Hq & Hshape & Hsplit).
  destruct (pathAst_total (segmentsOf pathPart)) as [a Ea].
  exists pathPart, queryPart, a.
  split; [done|]. split; [done|]. split; [done|]. split; [done|].
  split; [done|]. split; [by eapply pathAst_not_query|].
  unfold parse. rewrite Hsplit, Ea. cbn [mbind Result_bind].
  destruct (String.eqb (Js.trim queryPart) EmptyString); [done|].
  intros _ ast. by apply parseQuery_wraps.
Qed.

Lemma parse_query_block_witness :
  ∃ a params,
    parse ("/a" +:+ query_marker +:+ "b=:c") = Ok (QueryParams a params).
Proof.
  destruct (parse_query_block ("/a" +:+ query_marker +:+ "b=:c"))
    as (pathPart & queryPart & a & _ & _ & _ & Hsplit & _ & _ & Hroot).
  vm_compute in Hsplit. injection Hsplit as _ <-.
  vm_compute in Hroot. destruct (Hroot eq_refl _ eq_refl) as [params Hparams].
  exists a, params. vm_compute. by rewrite Hparams.
Defined.

(** ** Sorting by specificity *)

Section StableSort.
Context {A : Type} (compare : A → A → Z).

(** The comparator never places two elements after each other both
    ways. *)
Hypothesis compare_total : ∀ x y, (0 < compare x y)%Z → (compare y x ≤ 0)%Z.

Lemma insert_head (x : A) (l : list A) :
  HdRel (inOrder compare) x l → EffectArray.insert compare x l = x :: l.
Proof.
  destruct l as [|y l]; [done|]. intros Hx. apply HdRel_inv in Hx. simpl.
  by rewrite (proj2 (Z.leb_le _ _) Hx).
Qed.

Lemma sortBy_sorted_id (l : list A) :
  Sorted (inOrder compare) l → EffectArray.sortBy compare l = l.
Proof.
  induction 1 as [|x l Hl IH Hx]; [done|].
  unfold EffectArray.sortBy in *. simpl. rewrite IH. by apply insert_head.
Qed.

Lemma insert_sorted (x : A) (l : list A) :
  Sorted (inOrder compare) l → Sorted (inOrder compare) (EffectArray.insert compare x l).
Proof.
  induction 1 as [|y l Hl IH Hy]; simpl.
  - repeat constructor.
  - destruct (Z.leb (compare x y) 0) eqn:E.
    + apply Z.leb_le in E. repeat constructor; done.
    + apply Z.leb_gt in E. constructor; [done|].
      destruct l as [|z l]; simpl.
      * constructor. by apply compare_total.
      * apply HdRel_inv in Hy.
        destruct (Z.leb (compare x z) 0); constructor;
          [by apply compare_total|done].
Qed.

Lemma sortBy_sorted (l : list A) : Sorted (inOrder compare) (EffectArray.sortBy compare l).
Proof.
  induction l as [|x l IH]; [constructor|]. by apply insert_sorted.
Qed.

Lemma insert_Permutation (x : A) (l : list A) :
  EffectArray.insert compare x l ≡ₚ x :: l.
Proof.
  induction l as [|y l IH]; simpl; [done|].
  destruct (Z.leb (compare x y) 0); [done|]. rewrite IH. apply perm_swap.
Qed.

Lemma sortBy_Permutation (l : list A) : EffectArray.sortBy compare l ≡ₚ l.
Proof.
  induction l as [|x l IH]; [done|]. unfold EffectArray.sortBy in *. simpl.
  by rewrite insert_Permutation, IH.
Qed.

Lemma sortBy_idempotent (l : list A) :
  EffectArray.sortBy compare (EffectArray.sortBy compare l)
  = EffectArray.sortBy compare l.
Proof. apply sortBy_sorted_id, sortBy_sorted. Qed.
End StableSort.

Lemma compareParts_swap (aParts bParts : list string) :
  Route.compareParts bParts aParts = Z.opp <$> Route.compareParts aParts bParts.
Proof.
  revert bParts. induction aParts as [|a aRest IH]; intros [|b bRest];
    try reflexivity.
  simpl. rewrite (String.eqb_sym b a). destruct (String.eqb a b); [apply IH|].
  rewrite (Z.eqb_sym (Route.guessComplexity b)).
  destruct (Z.eqb_spec (Route.guessComplexity a) (Route.guessComplexity b))
    as [E|E]; [apply IH|].
  destruct (Z.eqb_spec (Route.guessComplexity a) 0) as [Ea|Ea],
           (Z.eqb_spec (Route.guessComplexity b) 0) as [Eb|Eb];
    try reflexivity; [lia|].
  destruct (Z.ltb_spec (Route.guessComplexity a) (Route.guessComplexity b)),
           (Z.ltb_spec (Route.guessComplexity b) (Route.guessComplexity a));
    try reflexivity; lia.
Qed.

Lemma comparePaths_swap (aPath bPath : string) :
  Route.comparePaths bPath aPath = (- Route.comparePaths aPath bPath)%Z.
Proof.
  unfold Route.comparePaths. rewrite compareParts_swap.
  destruct (Route.compareParts _ _); simpl; [done|].
  rewrite (Nat.eqb_sym (length (Js.split_char "/" bPath))).
  destruct (Nat.eqb_spec (length (Js.split_char "/" aPath))
                         (length (Js.split_char "/" bPath))); [done|].
  destruct (Nat.ltb_spec (length (Js.split_char "/" aPath))
                         (length (Js.split_char "/" bPath))),
           (Nat.ltb_spec (length (Js.split_char "/" bPath))
                         (length (Js.split_char "/" aPath)));
    try reflexivity; lia.
Qed.

Lemma Order_total `{Path.PathDSL} (a b : Route.Route) :
  (0 < Route.Order a b)%Z → (Route.Order b a ≤ 0)%Z.
Proof. unfold Route.Order. rewrite (comparePaths_swap (Route.path a)). lia. Qed.

(** C9: sorting a list of routes that has been sorted already changes
    nothing. *)
Theorem sortRoutes_idempotent `{Path.PathDSL} (xs : list Route.Route) :
  Route.sortRoutes (Route.sortRoutes xs) = Route.sortRoutes xs.
Proof. apply sortBy_idempotent, @Order_total. Qed.

Section UserRoutes.
Context `{Path.PathDSL}.
Variables users userId settings posts : Route.Route.
Hypothesis path_users : Route.path users = "/users".
Hypothesis path_userId : Route.path userId = "/users/:id".
Hypothesis path_settings : Route.path settings = "/users/settings".
Hypothesis path_posts : Route.path posts = "/users/:id/posts".

Local Ltac order_value :=
  unfold Route.Order;
  rewrite ?path_users, ?path_userId, ?path_settings, ?path_posts;
  vm_compute; reflexivity.

Local Lemma Order_uu : Route.Order users users = 0%Z. Proof. order_value. Qed.
Local Lemma Order_ui : Route.Order users userId = 1%Z. Proof. order_value. Qed.
Local Lemma Order_us : Route.Order users settings = 1%Z. Proof. order_value. Qed.
Local Lemma Order_up : Route.Order users posts = 1%Z. Proof. order_value. Qed.
Local Lemma Order_iu : Route.Order userId users = (-1)%Z. Proof. order_value. Qed.
Local Lemma Order_is : Route.Order userId settings = 1%Z. Proof. order_value. Qed.
Local Lemma Order_ip : Route.Order userId posts = 1%Z. Proof. order_value. Qed.
Local Lemma Order_su : Route.Order settings users = (-1)%Z. Proof. order_value. Qed.
Local Lemma Order_si : Route.Order settings userId = (-1)%Z. Proof. order_value. Qed.
Local Lemma Order_sp : Route.Order settings posts = (-1)%Z. Proof. order_value. Qed.
Local Lemma Order_pu : Route.Order posts users = (-1)%Z. Proof. order_value. Qed.
Local Lemma Order_pi : Route.Order posts userId = (-1)%Z. Proof. order_value. Qed.
Local Lemma Order_ps : Route.Order posts settings = 1%Z. Proof. order_value. Qed.

Local Ltac sort_step :=
  cbn [EffectArray.insert];
  rewrite ?Order_ui, ?Order_us, ?Order_up, ?Order_iu, ?Order_is, ?Order_ip,
          ?Order_su, ?Order_si, ?Order_sp, ?Order_pu, ?Order_pi, ?Order_ps;
  cbn [Z.leb Z.compare].

Lemma user_routes_sorted (routes : list Route.Route) :
  routes ≡ₚ [users; userId; settings; posts] →
  Route.sortRoutes routes = [settings; posts; userId; users].
Proof.
  intros Hperm. symmetry in Hperm. apply permutations_Permutation in Hperm.
  cbn in Hperm.
  repeat (apply elem_of_cons in Hperm as [->|Hperm]);
    [..|by apply elem_of_nil in Hperm];
    unfold Route.sortRoutes, EffectArray.sortBy; cbn [foldr];
    repeat sort_step; reflexivity.
Qed.
End UserRoutes.

(** C8: whatever the order in which the four user routes are given, sorting
    puts the settings route first, then the posts of a user, then the user,
    then the list of users. *)
Theorem sort_user_routes `{Path.PathDSL}
    (users userId settings posts : Route.Route) (routes : list Route.Route) :
  Route.path users = "/users" →
  Route.path userId = "/users/:id" →
  Route.path settings = "/users/settings" →
  Route.path posts = "/users/:id/posts" →
  routes ≡ₚ [users; userId; settings; posts] →
  Route.sortRoutes routes = [settings; posts; userId; users].
Proof. intros. by apply user_routes_sorted. Qed.

Lemma sort_user_routes_witness :
  @Route.sortRoutes Path.syntaxDSL
    [userIdRoute; usersRoute; settingsRoute; postsRoute]
  = [settingsRoute; postsRoute; userIdRoute; usersRoute].
Proof.
  apply (@sort_user_routes Path.syntaxDSL usersRoute userIdRoute settingsRoute
           postsRoute); try (vm_compute; reflexivity).
  apply perm_swap.
Defined.

(** ** Round trip *)

Lemma plainChar_not_special (c : ascii) :
  plainChar c = true →
  Ascii.eqb c "/" = false ∧ Ascii.eqb c "?" = false ∧ Ascii.eqb c "#" = false.
Proof.
  destruct c as [[] [] [] [] [] [] [] []]; vm_compute; intros Hc;
    first [discriminate Hc | repeat split].
Qed.

Lemma allPlain_hasChar (s : string) (c : ascii) :
  allPlain s = true → plainChar c = false → hasChar c s = false.
Proof.
  intros Hs Hc. induction s as [|a s IH]; simpl in *; [done|].
  apply andb_true_iff in Hs as [Ha Hs]. rewrite (IH Hs), orb_false_r.
  destruct (Ascii.eqb_spec a c) as [->|]; [congruence|done].
Qed.

Lemma append_cons (a : ascii) (s t : string) :
  String a s +:+ t = String a (s +:+ t).
Proof. reflexivity. Qed.

Lemma append_empty_r (s : string) : s +:+ EmptyString = s.
Proof. induction s as [|a s IH]; [done|]. by rewrite append_cons, IH. Qed.

Lemma append_assoc (s t u : string) : (s +:+ t) +:+ u = s +:+ t +:+ u.
Proof. induction s as [|a s IH]; [done|]. by rewrite !append_cons, IH. Qed.

Lemma hasChar_app (c : ascii) (s t : string) :
  hasChar c (s +:+ t) = hasChar c s || hasChar c t.
Proof.
  induction s as [|a s IH]; [done|].
  rewrite append_cons. simpl. by rewrite IH, orb_assoc.
Qed.

Lemma before_char_absent (c : ascii) (s : string) :
  hasChar c s = false → before_char c s = s.
Proof.
  induction s as [|a s IH]; simpl; [done|]. intros H.
  apply orb_false_iff in H as [-> H]. by rewrite IH.
Qed.

Lemma after_char_absent (c : ascii) (s : string) :
  hasChar c s = false → after_char c s = EmptyString.
Proof.
  induction s as [|a s IH]; simpl; [done|]. intros H.
  apply orb_false_iff in H as [-> H]. by apply IH.
Qed.

Lemma split_char_app (c : ascii) (s t : string) :
  hasChar c s = false →
  Js.split_char c (s +:+ t)
  = match Js.split_char c t with
    | p :: ps => (s +:+ p) :: ps
    | [] => [s]
    end.
Proof.
  induction s as [|a s IH].
  - intros _. change (EmptyString +:+ t) with t.
    pose proof (split_char_nonempty c t). by destruct (Js.split_char c t).
  - rewrite append_cons. simpl. intros H.
    apply orb_false_iff in H as [-> H]. rewrite (IH H).
    pose proof (split_char_nonempty c t). by destruct (Js.split_char c t).
Qed.

Lemma plainSegment_inv (s : string) :
  plainSegment s = true →
  s ≠ EmptyString ∧ allPlain s = true.
Proof.
  unfold plainSegment. rewrite !andb_true_iff, negb_true_iff.
  intros [[[Hne Hall] _] _]. split; [|done].
  intros ->. discriminate.
Qed.

Lemma last_char_plain (s : string) (c : ascii) :
  allPlain s = true → Js.last_char s = Some c → plainChar c = true.
Proof.
  induction s as [|a s IH]; [done|]. simpl.
  intros Hs. apply andb_true_iff in Hs as [Ha Hs].
  destruct s as [|b s]; [by intros [= <-]|]. by apply IH.
Qed.

Lemma formatPart_plain (s : string) :
  plainSegment s = true → Path.formatPart s = "/" +:+ s.
Proof.
  intros Hs. apply plainSegment_inv in Hs as [Hne Hall].
  unfold Path.formatPart.
  assert (Htrail : Path.removeTrailingSlash s = s).
  { unfold Path.removeTrailingSlash, Js.endsWith_char.
    destruct (Js.last_char s) as [c|] eqn:Ec; [|done].
    apply (last_char_plain _ _ Hall) in Ec.
    by destruct (plainChar_not_special _ Ec) as (-> & _). }
  rewrite Htrail. destruct s as [|a s]; [done|].
  simpl in Hall. apply andb_true_iff in Hall as [Ha _].
  destruct (plainChar_not_special _ Ha) as (Hslash & Hq & _).
  unfold Path.removeLeadingSlash. cbn [Js.head_is]. rewrite Hslash.
  cbn [String.eqb Js.head_is]. by rewrite Hq.
Qed.

Lemma join_empty_cons (x : string) (l : list string) :
  Js.join EmptyString (x :: l) = x +:+ Js.join EmptyString l.
Proof. destruct l; simpl; [by rewrite append_empty_r|done]. Qed.

Lemma pathJoin_plain (segments : list string) :
  Forall (λ s, plainSegment s = true) segments →
  Path.pathJoin segments = slashed segments.
Proof.
  unfold Path.pathJoin. induction 1 as [|s rest Hs _ IH]; [done|].
  cbn [map slashed]. rewrite join_empty_cons, IH, (formatPart_plain _ Hs).
  by rewrite append_assoc.
Qed.

Lemma slashed_absent (c : ascii) (segments : list string) :
  plainChar c = false → Ascii.eqb "/" c = false →
  Forall (λ s, plainSegment s = true) segments →
  hasChar c (slashed segments) = false.
Proof.
  intros Hc Hslash. induction 1 as [|s rest Hs _ IH]; [done|].
  cbn [slashed]. rewrite append_cons. cbn [hasChar].
  change (EmptyString +:+ s +:+ slashed rest) with (s +:+ slashed rest).
  rewrite Hslash, hasChar_app, IH.
  apply plainSegment_inv in Hs as [_ Hs].
  by rewrite (allPlain_hasChar _ _ Hs Hc).
Qed.

Lemma split_slashed (s : string) (rest : list string) :
  Forall (λ s, plainSegment s = true) (s :: rest) →
  Js.split_char "/" (slashed (s :: rest)) = EmptyString :: s :: rest.
Proof.
  revert s. induction rest as [|t rest IH]; intros s Hall.
  - apply Forall_inv, plainSegment_inv in Hall as [_ Hs].
    cbn [slashed]. rewrite append_empty_r.
    change (EmptyString :: Js.split_char "/" s = [EmptyString; s]).
    rewrite <- (append_empty_r s) at 1.
    rewrite split_char_app by by apply allPlain_hasChar. simpl.
    by rewrite append_empty_r.
  - pose proof (Forall_inv Hall) as Hs. apply plainSegment_inv in Hs as [_ Hs].
    apply Forall_inv_tail in Hall.
    change (slashed (s :: t :: rest)) with ("/" +:+ s +:+ slashed (t :: rest)).
    change (EmptyString :: Js.split_char "/" (s +:+ slashed (t :: rest))
            = EmptyString :: s :: t :: rest).
    rewrite split_char_app by by apply allPlain_hasChar.
    rewrite (IH t Hall). by rewrite append_empty_r.
Qed.

Lemma pop_empty_plain (segments : list string) :
  Forall (λ s, plainSegment s = true) segments → pop_empty segments = segments.
Proof.
  intros Hall. unfold pop_empty. destruct (last segments) as [x|] eqn:E; [|done].
  apply last_Some_elem_of in E. rewrite Forall_forall in Hall.
  apply Hall, plainSegment_inv in E as [Hne _].
  destruct (String.eqb_spec x EmptyString); done.
Qed.

Lemma getPathAndQuery_slashed (segments : list string) :
  Forall (λ s, plainSegment s = true) segments →
  getPathAndQuery (orRoot (slashed segments)) = (segments, []).
Proof.
  intros Hall. destruct segments as [|s rest]; [reflexivity|].
  assert (Hroot : orRoot (slashed (s :: rest)) = slashed (s :: rest)) by done.
  rewrite Hroot. unfold getPathAndQuery, url_pathname, url_searchParams.
  rewrite (before_char_absent "#") by by apply slashed_absent.
  rewrite (before_char_absent "?") by by apply slashed_absent.
  rewrite (after_char_absent "?") by by apply slashed_absent.
  change (Js.head_is "/" (slashed (s :: rest))) with true. cbn iota.
  rewrite (split_slashed _ _ Hall). f_equal.
  change (pop_empty (s :: rest) = s :: rest). by apply pop_empty_plain.
Qed.

Lemma assign_empty {V} (m : gmap string V) : assign m ∅ = m.
Proof. unfold assign. by rewrite delete_empty, (left_id_L ∅ (∪)). Qed.

Lemma assign_union {V} (m source : gmap string V) :
  source !! proto_key = None → assign m source = source ∪ m.
Proof. intros H. unfold assign. by rewrite delete_id. Qed.

Lemma assign_singleton {V} (m : gmap string V) (k : string) (v : V) :
  k ≠ proto_key → assign m {[ k := v ]} = {[ k := v ]} ∪ m.
Proof. intros H. apply assign_union. by apply lookup_singleton_ne. Qed.

Lemma assign_least {V} (m source M : gmap string V) :
  source ⊆ M → m ⊆ M → assign m source ⊆ M.
Proof.
  intros Hs Hm. unfold assign. apply map_union_least; [|done].
  etrans; [apply delete_subseteq|done].
Qed.

Lemma dom_assign_target {V} (m source : gmap string V) (k : string) :
  k ∈ dom m → k ∈ dom (assign m source).
Proof. intros H. unfold assign. rewrite dom_union_L, elem_of_union. by right. Qed.

Lemma ordinaryKey_proto (k : string) : ordinaryKey k = true → k ≠ proto_key.
Proof. intros H ->. vm_compute in H. discriminate. Qed.

Section RoundTrip.
Variable P : gmap string ParamValue.

Lemma getAstSegments_plain (a : AST) :
  plainRoute a = true → getAstSegments a = map (λ x, [leafAst x]) (leaves a).
Proof.
  induction a; simpl; try discriminate.
  - by destruct (String.eqb _ "/").
  - done.
  - intros H. apply andb_true_iff in H as [H1 H2].
    by rewrite IHa1, IHa2, map_app.
Qed.

Lemma leafNames_leaves (a : AST) :
  plainRoute a = true → leafNames (leaves a) = paramNames a.
Proof.
  unfold leafNames. induction a; simpl; try discriminate.
  - by destruct (String.eqb _ "/").
  - done.
  - intros H. apply andb_true_iff in H as [H1 H2].
    by rewrite omap_app, IHa1, IHa2.
Qed.

Lemma leaves_valid (a : AST) :
  plainRoute a = true →
  (∀ n, n ∈ paramNames a → ∃ s, P !! n = Some (Str s) ∧ plainSegment s = true) →
  Forall (validLeaf P) (leaves a).
Proof.
  induction a; simpl; try discriminate.
  - destruct (String.eqb _ "/"); simpl; intros H _; repeat constructor; done.
  - intros _ H. repeat constructor. apply H. by left.
  - intros H Hn. apply andb_true_iff in H as [H1 H2]. apply Forall_app. split.
    + apply IHa1; [done|]. intros n Hin. apply Hn, elem_of_app. by left.
    + apply IHa2; [done|]. intros n Hin. apply Hn, elem_of_app. by right.
Qed.

Lemma render_plain (ls : list Leaf) :
  Forall (validLeaf P) ls → Forall (λ s, plainSegment s = true) (map (render P) ls).
Proof.
  induction 1 as [|x ls Hx _ IH]; [constructor|]. constructor; [|done].
  destruct x as [l|n]; simpl; [done|]. by destruct Hx as (s & -> & Hs).
Qed.

Lemma compile_leaf_matchers (ls : list Leaf) (ctx : nat) :
  compileAll astSegmentToMatcher (map (λ x, [leafAst x]) ls) ctx
  = Ok (map leafMatcher ls, ctx).
Proof.
  induction ls as [|x ls IH]; [done|]. cbn [map compileAll].
  destruct x; simpl; by rewrite IH.
Qed.

Lemma compile_leaf_parts (ls : list Leaf) (ctx : InterpolationCtx) :
  compileAll astSegmentToInterpolationPart (map (λ x, [leafAst x]) ls) ctx
  = Ok (map leafPart ls, ctx).
Proof.
  induction ls as [|x ls IH]; [done|]. cbn [map compileAll].
  destruct x; simpl; by rewrite IH.
Qed.

Lemma leaf_part_values (ls : list Leaf) :
  Forall (validLeaf P) ls →
  mapM (λ part, partValue part P) (map leafPart ls) = Ok (map (render P) ls).
Proof.
  induction 1 as [|x ls Hx _ IH]; [done|]. cbn [map mapM]. rewrite IH.
  destruct x as [l|n]; [done|]. destruct Hx as (s & Hs & Hplain).
  apply plainSegment_inv in Hplain as [Hne _].
  simpl. unfold getParam. rewrite Hs. by destruct s.
Qed.

Lemma leaf_literal_values (ls : list Leaf) :
  forallb isLiteralPart (map leafPart ls) = true →
  map (λ part, match part with
               | InterpolateLiteral v => v
               | InterpolateParam _ => EmptyString
               end) (map leafPart ls)
  = map (render P) ls.
Proof.
  induction ls as [|x ls IH]; [done|]. destruct x; simpl; [|discriminate].
  intros H. by rewrite IH.
Qed.

Lemma interpolate_plain (a : AST) (o : Route.RouteOptions) :
  plainRoute a = true → Forall (validLeaf P) (leaves a) →
  Route.interpolate (Route.mkRoute a o) P
  = Ok (orRoot (slashed (map (render P) (leaves a)))).
Proof.
  intros Ha Hvalid.
  rewrite <- (pathJoin_plain _ (render_plain _ Hvalid)).
  unfold Route.interpolate, Route.getInterpolate, astToInterpolation.
  cbn [Route.routeAst]. rewrite (getAstSegments_plain _ Ha), compile_leaf_parts.
  cbn [mbind Result_bind].
  destruct (forallb isLiteralPart (map leafPart (leaves a))) eqn:E.
  - by rewrite (leaf_literal_values _ E).
  - cbn [mbind Result_bind]. by rewrite (leaf_part_values _ Hvalid).
Qed.

Lemma run_leaf_matchers (ls : list Leaf) :
  Forall (validLeaf P) ls →
  proto_key ∉ leafNames ls →
  ∀ (acc : gmap string Captured) (rest : list string) (q : URLSearchParams),
  ∃ res,
    runMatchers (map leafMatcher ls) acc (mkCursor (map (render P) ls ++ rest) q)
    = (Some res, mkCursor rest q)
    ∧ ∀ k, res !! k = if decide (k ∈ leafNames ls)
                      then Own <$> P !! k else acc !! k.
Proof.
  induction 1 as [|x ls Hx _ IH]; intros Hproto acc rest q.
  - exists acc. split; [done|]. intros k. by rewrite decide_False by set_solver.
  - destruct x as [l|n].
    + destruct (IH Hproto acc rest q) as (res & Hrun & Hres).
      exists res. split; [|done].
      cbn [map runMatchers leafMatcher render app].
      unfold literalMatcher. cbn [pathSegments]. rewrite String.eqb_refl.
      by rewrite assign_empty.
    + destruct Hx as (s & Hs & Hplain).
      unfold leafNames in Hproto. cbn [omap list_omap] in Hproto.
      fold (leafNames ls) in Hproto.
      apply not_elem_of_cons in Hproto as [Hn Hproto].
      destruct (IH Hproto (assign acc {[ n := Own (Str s) ]}) rest q)
        as (res & Hrun & Hres).
      exists res. split.
      * cbn [map runMatchers leafMatcher render app]. rewrite Hs.
        apply plainSegment_inv in Hplain as [Hne _].
        unfold getParamByKey. cbn [pathSegments negb andb length Nat.eqb].
        destruct (String.eqb_spec s EmptyString) as [|_]; [done|].
        exact Hrun.
      * intros k. rewrite Hres. unfold leafNames. cbn [omap list_omap].
        fold (leafNames ls). rewrite assign_singleton by done.
        destruct (decide (k ∈ leafNames ls)) as [Hin|Hin].
        { by rewrite decide_True by set_solver. }
        destruct (decide (k = n)) as [->|Hkn].
        { rewrite decide_True by set_solver.
          by rewrite lookup_union_l', Hs, lookup_singleton_eq
            by (rewrite lookup_singleton_eq; eauto). }
        rewrite decide_False by (rewrite elem_of_cons; by intros [?|?]).
        apply lookup_union_r. by apply lookup_singleton_ne.
Qed.

Lemma match_plain (a : AST) (o : Route.RouteOptions) :
  plainRoute a = true → Forall (validLeaf P) (leaves a) →
  proto_key ∉ paramNames a →
  dom P = list_to_set (paramNames a) →
  Route.match_ (Route.mkRoute a o) (orRoot (slashed (map (render P) (leaves a))))
  = Ok (Some P).
Proof.
  intros Ha Hvalid Hproto Hdom. rewrite <- (leafNames_leaves _ Ha) in Hproto.
  unfold Route.match_, Route.getMatch, astToMatcher. cbn [Route.routeAst].
  rewrite (getAstSegments_plain _ Ha), compile_leaf_matchers.
  cbn [mbind Result_bind]. rewrite (getPathAndQuery_slashed _ (render_plain _ Hvalid)).
  destruct (run_leaf_matchers _ Hvalid Hproto ∅ [] []) as (res & Hrun & Hres).
  rewrite app_nil_r in Hrun. rewrite Hrun. cbn [pathSegments length Nat.ltb Nat.leb].
  rewrite andb_false_r. do 2 f_equal. apply map_eq. intros k.
  rewrite lookup_fmap, Hres, (leafNames_leaves _ Ha).
  destruct (decide (k ∈ paramNames a)) as [Hin|Hin].
  - by destruct (P !! k).
  - rewrite lookup_empty. symmetry. apply not_elem_of_dom.
    rewrite Hdom. by rewrite elem_of_list_to_set.
Qed.
End RoundTrip.

(** C1, as stated, fails in two ways. A literal holds one segment, so a
    literal with a separator inside is rendered but never matched; and a
    parameter value is rendered as it is, so a value with a question mark in
    it comes back cut off. *)
Lemma round_trip_counterexample :
  (Route.interpolate (Route.literal "a/b" None) ∅ = Ok "/a/b"
   ∧ Route.match_ (Route.literal "a/b" None) "/a/b" = Ok None
   ∧ Route.match_ (Route.literal "a/b" None) "/a/b" ≠ Ok (Some ∅))
  ∧ (Route.interpolate (Route.param "x" None) {[ "x" := Str "a?b" ]} = Ok "/a?b"
     ∧ Route.match_ (Route.param "x" None) "/a?b"
       = Ok (Some {[ "x" := Str "a" ]})
     ∧ ({[ "x" := Str "a" ]} : gmap string ParamValue) ≠ {[ "x" := Str "a?b" ]}).
Proof.
  assert (Hnone : Route.match_ (Route.literal "a/b" None) "/a/b" = Ok None)
    by (vm_compute; reflexivity).
  repeat split; try (vm_compute; reflexivity).
  - rewrite Hnone. discriminate.
  - intros H. apply (f_equal (λ m : gmap string ParamValue, m !! "x")) in H.
    rewrite !lookup_singleton_eq in H. discriminate.
Qed.

(** A parameter named [__proto__] is not captured: the assignment that
    collects the captures adds no property under that name, so what renders
    the path [/a] is not what matching it returns. *)
Example proto_key_not_captured :
  Route.interpolate (Route.param proto_key None) {[ proto_key := Str "a" ]}
  = Ok "/a"
  ∧ Route.match_ (Route.param proto_key None) "/a" = Ok (Some ∅).
Proof. split; vm_compute; reflexivity. Qed.

(** C1 (amended): take a route built from literals, named parameters and
    concatenations only, whose literals are the bare separator or plain
    segments and none of whose parameters is named [__proto__], and a
    parameter map whose keys are exactly the declared names and whose
    values are plain segments. Then the route renders the map as a path,
    matching that path gives the map back, and decoding it gives the map
    back whenever the route's validator accepts the map as it is. *)
Theorem plain_route_round_trip (ast : AST) (options : Route.RouteOptions)
    (P : gmap string ParamValue) :
  plainRoute ast = true →
  proto_key ∉ paramNames ast →
  dom P = list_to_set (paramNames ast) →
  (∀ k v, P !! k = Some v → ∃ s, v = Str s ∧ plainSegment s = true) →
  ∃ path,
    Route.interpolate (Route.mkRoute ast options) P = Ok path
    ∧ Route.match_ (Route.mkRoute ast options) path = Ok (Some P)
    ∧ ∀ schemaDecode : gmap string ParamValue → option (gmap string ParamValue),
        schemaDecode P = Some P →
        Route.decode schemaDecode (Route.mkRoute ast options) path = Ok (inr P).
Proof.
  intros Hast Hproto Hdom Hvalues.
  assert (Hvalid : Forall (validLeaf P) (leaves ast)).
  { apply leaves_valid; [done|]. intros n Hn.
    assert (Hin : n ∈ dom P) by (rewrite Hdom; by apply elem_of_list_to_set).
    apply elem_of_dom in Hin as [v Hv].
    destruct (Hvalues n v Hv) as (s & -> & Hs). eauto. }
  exists (orRoot (slashed (map (render P) (leaves ast)))).
  pose proof (match_plain P ast options Hast Hvalid Hproto Hdom) as Hmatch.
  split; [by apply interpolate_plain|]. split; [done|].
  intros schemaDecode Hdecode. unfold Route.decode. rewrite Hmatch.
  cbn [mbind Result_bind]. by rewrite Hdecode.
Qed.

Lemma plain_route_round_trip_witness :
  ∃ path,
    Route.interpolate (Route.mkRoute articleAst (Route.mkRouteOptions true))
      {[ "slug" := Str "123" ]} = Ok path
    ∧ Route.match_ (Route.mkRoute articleAst (Route.mkRouteOptions true)) path
      = Ok (Some {[ "slug" := Str "123" ]})
    ∧ Route.decode Some (Route.mkRoute articleAst (Route.mkRouteOptions true)) path
      = Ok (inr {[ "slug" := Str "123" ]}).
Proof.
  destruct (plain_route_round_trip articleAst (Route.mkRouteOptions true)
              {[ "slug" := Str "123" ]}) as (path & Hi & Hm & Hd).
  - vm_compute. reflexivity.
  - apply (bool_decide_unpack _). vm_compute. reflexivity.
  - vm_compute. reflexivity.
  - intros k v Hkv. apply lookup_singleton_Some in Hkv as [_ <-].
    exists "123". split; [reflexivity | vm_compute; reflexivity].
  - exists path. split; [exact Hi|]. split; [exact Hm|]. by apply Hd.
Defined.

(** * Further properties *)

(** ** Groups *)

(** X1: every group of an AST holds exactly one node, and that node is not a
    concatenation: compound groups do not arise. *)
Theorem getAstSegments_singletons (a : AST) :
  Forall (λ g, ∃ x, g = [x] ∧ _tag x ≠ "Concat") (getAstSegments a).
Proof.
  induction a; simpl; try (repeat constructor; eexists; split; [done|done]).
  - destruct (String.eqb _ "/"); repeat constructor. eexists. by split.
  - apply Forall_app. split; [done|]. repeat constructor. eexists. by split.
  - by apply Forall_app.
  - done.
Qed.

(** ** Concatenation keeps ASTs well formed *)

Lemma simpleNode_flatPath (a : AST) : simpleNode a = true → flatPath a = true.
Proof. induction a; simpl; try done. Qed.

Lemma flatPath_not_query (a : AST) : flatPath a = true → isQueryParams a = false.
Proof. by destruct a. Qed.

Lemma forallb_filter_app {A} (f g : A → bool) (l r : list A) :
  forallb f l = true → forallb f r = true →
  forallb f (List.filter g l ++ r) = true.
Proof.
  intros Hl Hr. rewrite forallb_app, Hr, andb_true_r.
  induction l as [|x l IH]; simpl in *; [done|].
  apply andb_true_iff in Hl as [Hx Hl].
  destruct (g x); simpl; [by rewrite Hx, IH|by apply IH].
Qed.

(** X2: concatenation keeps the query block single and outermost: when both
    operands have at most one query block, at the root, over a path of
    simple nodes and with simple values, so has the result. *)
Theorem concat_wellFormed (l r : AST) :
  wellFormed l = true → wellFormed r = true → wellFormed (concat l r) = true.
Proof.
  intros Hl Hr.
  destruct l; destruct r; simpl in *;
    repeat match goal with
           | H : _ && _ = true |- _ => apply andb_true_iff in H as [? ?]
           end;
    repeat match goal with
           | |- context [if ?b then _ else _] => destruct b
           end;
    simpl;
    repeat match goal with
           | H : ?x = true |- context [?x] => rewrite H
           end;
    simpl; auto using forallb_filter_app.
Qed.

Lemma concat_wellFormed_witness :
  wellFormed (concat (QueryParams (Literal "a") [mkQueryParam "k" (Param "x")])
                     (Concat (Literal "b") (Optional (Param "y")))) = true.
Proof. apply concat_wellFormed; reflexivity. Defined.

Lemma filter_all {A} (f : A → bool) (l : list A) :
  (∀ x, f x = true) → List.filter f l = l.
Proof.
  intros Hf. induction l as [|x l IH]; simpl; [done|]. by rewrite Hf, IH.
Qed.

Lemma filter_filter_andb {A} (f g : A → bool) (l : list A) :
  List.filter f (List.filter g l) = List.filter (λ x, g x && f x) l.
Proof.
  induction l as [|x l IH]; simpl; [done|].
  destruct (g x); simpl; [|done]. destruct (f x); by rewrite IH.
Qed.

(** The keys that a right-hand parameter list takes over. *)
Lemma queryParamsOf_concat (l r : AST) :
  queryParamsOf (concat l r)
  = List.filter
      (λ x, negb (existsb (λ y, String.eqb (key x) (key y)) (queryParamsOf r)))
      (queryParamsOf l)
    ++ queryParamsOf r.
Proof.
  destruct l; destruct r; simpl; try reflexivity;
    by rewrite filter_all, app_nil_r.
Qed.

Lemma existsb_key_filter_app (k : string) (B C : list QueryParam) :
  existsb (λ y, String.eqb k (key y))
    (List.filter
       (λ x, negb (existsb (λ y, String.eqb (key x) (key y)) C)) B ++ C)
  = existsb (λ y, String.eqb k (key y)) B
    || existsb (λ y, String.eqb k (key y)) C.
Proof.
  rewrite existsb_app. induction B as [|y B IH]; simpl; [done|].
  destruct (existsb (λ z, String.eqb (key y) (key z)) C) eqn:E; simpl.
  - rewrite IH. destruct (String.eqb_spec k (key y)) as [->|]; [|done].
    simpl. by rewrite E, orb_true_r.
  - by rewrite <- !orb_assoc, IH.
Qed.

(** X3: the parameter list of a concatenation of three ASTs does not depend
    on how the concatenation is grouped. *)
Theorem concat_params_assoc (a b c : AST) :
  queryParamsOf (concat (concat a b) c) = queryParamsOf (concat a (concat b c)).
Proof.
  rewrite !queryParamsOf_concat.
  rewrite List.filter_app, filter_filter_andb, <- app_assoc. f_equal.
  apply List.filter_ext. intros x.
  by rewrite existsb_key_filter_app, negb_orb.
Qed.

Lemma NoDup_keys_filter (f : QueryParam → bool) (l : list QueryParam) :
  NoDup (map key l) → NoDup (map key (List.filter f l)).
Proof.
  induction l as [|x l IH]; simpl; [done|]. intros Hnd.
  apply NoDup_cons in Hnd as [Hx Hl]. destruct (f x); simpl; [|auto].
  apply NoDup_cons. split; [|auto]. intros Hin. apply Hx.
  apply list_elem_of_In, in_map_iff in Hin as (y & Hy & Hin).
  apply filter_In in Hin as [Hin _]. apply list_elem_of_In, in_map_iff. eauto.
Qed.

(** X4: concatenation keeps query keys unique: when no key is declared twice
    in either operand, none is declared twice in the result. *)
Theorem concat_keys_NoDup (l r : AST) :
  NoDup (map key (queryParamsOf l)) → NoDup (map key (queryParamsOf r)) →
  NoDup (map key (queryParamsOf (concat l r))).
Proof.
  intros Hl Hr. rewrite queryParamsOf_concat, map_app.
  apply NoDup_app. split; [by apply NoDup_keys_filter|]. split; [|done].
  intros k Hk Hin.
  apply list_elem_of_In, in_map_iff in Hk as (x & <- & Hx).
  apply filter_In in Hx as [_ Hx]. apply negb_true_iff in Hx.
  apply existsb_key_elem in Hin. congruence.
Qed.

Lemma concat_keys_NoDup_witness :
  NoDup (map key (queryParamsOf
    (concat (QueryParams (Literal "a") [mkQueryParam "k" (Param "x");
                                        mkQueryParam "l" (Param "y")])
            (QueryParams (Literal "/") [mkQueryParam "k" (Param "w")])))).
Proof.
  apply concat_keys_NoDup; apply (bool_decide_unpack _); vm_compute; reflexivity.
Defined.

Lemma getQueryParams_flatPath (a : AST) :
  flatPath a = true → getQueryParams a = None.
Proof.
  induction a; simpl; try done.
  intros H. apply andb_true_iff in H as [_ H]. auto.
Qed.

(** X5: on well-formed operands, [getQueryParams] finds the query block of a
    concatenation exactly when one of the operands has one, and what it
    finds is the whole result. *)
Theorem getQueryParams_concat (l r : AST) :
  wellFormed l = true → wellFormed r = true →
  getQueryParams (concat l r)
  = if isQueryParams l || isQueryParams r then Some (concat l r) else None.
Proof.
  intros Hl Hr.
  destruct (isQueryParams l || isQueryParams r) eqn:E.
  - destruct l; destruct r; try discriminate E; reflexivity.
  - apply orb_false_iff in E as [El Er].
    assert (concat l r = Concat l r) as -> by (destruct l; destruct r; done).
    simpl. apply getQueryParams_flatPath. by destruct r.
Qed.

Lemma getQueryParams_concat_witness :
  getQueryParams (concat (Literal "users")
                         (QueryParams (Literal "/") [mkQueryParam "q" (Param "x")]))
  = Some (QueryParams (Literal "users") [mkQueryParam "q" (Param "x")]).
Proof.
  exact (getQueryParams_concat (Literal "users")
           (QueryParams (Literal "/") [mkQueryParam "q" (Param "x")])
           eq_refl eq_refl).
Defined.

(** ** Compiling never throws on well-formed ASTs *)

Lemma simpleAstToMatcher_total (a : AST) :
  simpleNode a = true →
  ∀ ctx isOptional isMultiple,
    ∃ m ctx', simpleAstToMatcher a ctx isOptional isMultiple = Ok (m, ctx').
Proof.
  induction a; simpl; try discriminate; intros Ha ctx o m; eauto.
  destruct (IHa Ha ctx o m) as (inner & ctx' & ->). simpl. eauto.
Qed.

Lemma simpleAstToQueryMatcher_total (k : string) (a : AST) :
  simpleNode a = true →
  ∀ ctx isOptional isMultiple,
    ∃ m ctx', simpleAstToQueryMatcher k a ctx isOptional isMultiple = Ok (m, ctx').
Proof.
  induction a; simpl; try discriminate; intros Ha ctx o m; eauto.
  destruct (IHa Ha ctx o m) as (inner & ctx' & ->). simpl. eauto.
Qed.

Lemma simpleAstToInterpolationPart_total (a : AST) :
  simpleNode a = true →
  ∀ n isOptional isMultiple,
    ∃ part n',
      simpleAstToInterpolationPart a (Some n) isOptional isMultiple
      = Ok (part, Some n').
Proof.
  induction a; simpl; try discriminate; intros Ha ctx o m; eauto.
  destruct (IHa Ha ctx o m) as (inner & ctx' & ->). simpl.
  destruct inner; eauto.
Qed.

Lemma compileAll_total {A B S} (compile : A → S → Result (B * S))
    (I : S → Prop) (xs : list A) :
  Forall (λ x, ∀ ctx, I ctx → ∃ b ctx', compile x ctx = Ok (b, ctx') ∧ I ctx') xs →
  ∀ ctx, I ctx → ∃ bs ctx', compileAll compile xs ctx = Ok (bs, ctx') ∧ I ctx'.
Proof.
  induction 1 as [|x xs Hx _ IH]; intros ctx Hctx; simpl; [eauto|].
  destruct (Hx ctx Hctx) as (b & ctx1 & -> & H1). simpl.
  destruct (IH ctx1 H1) as (bs & ctx2 & -> & H2). simpl. eauto.
Qed.

Lemma getAstSegments_flatPath (a : AST) :
  flatPath a = true →
  Forall (λ g, ∃ x, g = [x] ∧ simpleNode x = true) (getAstSegments a).
Proof.
  induction a; simpl; try discriminate; intros Ha;
    try (repeat constructor; eexists; split; [done|done]).
  - destruct (String.eqb _ "/"); repeat constructor. by eexists.
  - apply andb_true_iff in Ha as [H1 H2]. apply Forall_app. auto.
  - auto.
Qed.

Lemma astSegmentToMatcher_simple (x : AST) (ctx : nat) :
  simpleNode x = true →
  astSegmentToMatcher [x] ctx = simpleAstToMatcher x ctx false false.
Proof. by destruct x. Qed.

Lemma astSegmentToInterpolationPart_simple (x : AST) (ctx : InterpolationCtx) :
  simpleNode x = true →
  astSegmentToInterpolationPart [x] ctx
  = simpleAstToInterpolationPart x ctx false false.
Proof. by destruct x. Qed.

Lemma queryParamsToMatcher_total (params : list QueryParam) (ctx : nat) :
  forallb (λ q, simpleNode (value q)) params = true →
  ∃ m ctx', queryParamsToMatcher params ctx = Ok (m, ctx').
Proof.
  intros Hps. unfold queryParamsToMatcher.
  destruct (compileAll_total
              (λ p ctx, simpleAstToQueryMatcher (key p) (value p) ctx false false)
              (λ _, True) params) with (ctx := ctx) as (ms & ctx' & -> & _);
    [|done|simpl; eauto].
  apply Forall_forall. intros q Hq c _.
  rewrite forallb_forall in Hps. apply list_elem_of_In in Hq.
  destruct (simpleAstToQueryMatcher_total (key q) (value q) (Hps q Hq) c false false)
    as (m & c' & ->). eauto.
Qed.

Lemma matcher_groups_total (groups : list (list AST)) (ctx : nat) :
  Forall (λ g, ∃ x, g = [x]
               ∧ (simpleNode x = true
                  ∨ ∃ previous params,
                      x = QueryParams previous params
                      ∧ forallb (λ q, simpleNode (value q)) params = true))
         groups →
  ∃ ms ctx', compileAll astSegmentToMatcher groups ctx = Ok (ms, ctx').
Proof.
  intros Hg.
  destruct (compileAll_total astSegmentToMatcher (λ _, True) groups)
    with (ctx := ctx) as (ms & ctx' & -> & _); [|done|eauto].
  eapply Forall_impl; [exact Hg|]. intros g (x & -> & Hx) c _.
  destruct Hx as [Hx|(previous & params & -> & Hps)].
  - rewrite astSegmentToMatcher_simple by done.
    destruct (simpleAstToMatcher_total x Hx c false false) as (m & c' & ->). eauto.
  - simpl. destruct (queryParamsToMatcher_total params c Hps) as (m & c' & ->).
    eauto.
Qed.

Lemma wellFormed_matcher_total (a : AST) (end_ : bool) :
  wellFormed a = true → ∃ m, astToMatcher a end_ = Ok m.
Proof.
  intros Ha. unfold astToMatcher.
  destruct (matcher_groups_total (getAstSegments a) 0) as (ms & ctx' & ->);
    [|simpl; eauto].
  destruct (isQueryParams a) eqn:E.
  - destruct a; try discriminate E. simpl in *.
    apply andb_true_iff in Ha as [Hprev Hps]. apply Forall_app. split.
    + eapply Forall_impl; [by apply getAstSegments_flatPath|].
      intros g (x & -> & Hx). eauto.
    + repeat constructor. eexists. split; [done|]. right. eauto.
  - assert (Hflat : flatPath a = true) by (by destruct a).
    eapply Forall_impl; [by apply getAstSegments_flatPath|].
    intros g (x & -> & Hx). eauto.
Qed.

Lemma flatPath_interpolator_total (a : AST) :
  flatPath a = true → ∃ i, astToInterpolation a = Ok i.
Proof.
  intros Hflat. unfold astToInterpolation.
  destruct (compileAll_total astSegmentToInterpolationPart is_Some
              (getAstSegments a)) with (ctx := Some 0)
    as (parts & ctx' & -> & _); [|done|].
  - eapply Forall_impl; [by apply getAstSegments_flatPath|].
    intros g (x & -> & Hx) c [n ->].
    rewrite astSegmentToInterpolationPart_simple by done.
    destruct (simpleAstToInterpolationPart_total x Hx n false false)
      as (part & n' & ->). eauto.
  - simpl. destruct (forallb isLiteralPart parts); eauto.
Qed.

(** X6: compiling a well-formed AST never throws: its matcher always exists,
    and so does its interpolator when there is no query block. *)
Theorem wellFormed_compiles (a : AST) (end_ : bool) :
  wellFormed a = true →
  (∃ m, astToMatcher a end_ = Ok m)
  ∧ (isQueryParams a = false → ∃ i, astToInterpolation a = Ok i).
Proof.
  intros Ha. split; [by apply wellFormed_matcher_total|].
  intros E. apply flatPath_interpolator_total. by destruct a.
Qed.

Lemma wellFormed_compiles_witness :
  (∃ m, astToMatcher searchAst true = Ok m)
  ∧ ∃ i, astToInterpolation (Concat (Prefix "user-" UnnamedParam)
                                    (ZeroOrMore (Param "rest"))) = Ok i.
Proof.
  split.
  - apply (wellFormed_compiles searchAst true). reflexivity.
  - apply (wellFormed_compiles
             (Concat (Prefix "user-" UnnamedParam) (ZeroOrMore (Param "rest")))
             false); reflexivity.
Defined.

(** ** The shape of parsed patterns *)

Lemma parseParam_rev_simple (r : list ascii) :
  simpleNode (parseParam_rev r) = true.
Proof.
  induction r as [|a r IH]; simpl; [done|].
  repeat (match goal with |- context [if ?b then _ else _] => destruct b end);
    done.
Qed.

Lemma parsePathPart_simple (part : string) :
  simpleNode (parsePathPart part) = true.
Proof.
  unfold parsePathPart, parsePrefix, parseParam.
  repeat (match goal with
          | |- context [if ?b then _ else _] => destruct b
          | |- context [match ?l with [] => _ | _ :: _ => _ end] => destruct l
          end);
    simpl; auto using parseParam_rev_simple.
Qed.

Lemma fold_left_Concat_flat (rest : list AST) (x : AST) :
  flatPath x = true → Forall (λ a, flatPath a = true) rest →
  flatPath (fold_left Concat rest x) = true.
Proof.
  intros Hx Hrest. revert x Hx.
  induction Hrest as [|y rest Hy _ IH]; intros x Hx; [done|].
  simpl. apply IH. simpl. by rewrite Hx, Hy.
Qed.

Lemma parsePathSegment_flat (segment : string) (a : AST) :
  parsePathSegment segment = Ok a → flatPath a = true.
Proof.
  unfold parsePathSegment.
  assert (Hparts : Forall (λ p, flatPath p = true)
                     (map parsePathPart (splitByPrefixes segment))).
  { apply Forall_forall. intros p Hp. apply list_elem_of_In, in_map_iff in Hp.
    destruct Hp as (x & <- & _).
    apply simpleNode_flatPath, parsePathPart_simple. }
  destruct (map parsePathPart (splitByPrefixes segment)) as [|p [|p' ps]].
  - by intros [= <-].
  - intros [= <-]. exact (Forall_inv Hparts).
  - intros [= <-]. apply (fold_left_Concat_flat (p' :: ps) p).
    + exact (Forall_inv Hparts).
    + exact (Forall_inv_tail Hparts).
Qed.

Lemma pathAst_flat (segments : list string) (a : AST) :
  pathAst segments = Ok a → flatPath a = true.
Proof.
  unfold pathAst. destruct (mapM parsePathSegment segments) as [all|] eqn:E;
    simpl; [|discriminate].
  apply (mapM_Ok_Forall _ (λ p, flatPath p = true)) in E;
    [|apply parsePathSegment_flat].
  destruct all as [|x rest].
  - by intros [= <-].
  - intros [= <-]. apply fold_left_Concat_flat.
    + exact (Forall_inv E).
    + exact (Forall_inv_tail E).
Qed.

Lemma parseQueryParam_flat (param : string) (q : QueryParam) :
  parseQueryParam param = Ok q → flatPath (value q) = true.
Proof.
  unfold parseQueryParam, parseQueryParamValue.
  destruct (Js.split_char "=" param) as [|k [|v rest]]; simpl; try discriminate.
  destruct (String.eqb v EmptyString).
  - by intros [= <-].
  - destruct (parsePathSegment v) as [a|] eqn:E; simpl; [|discriminate].
    intros [= <-]. by apply parsePathSegment_flat in E.
Qed.

(** X7: a parsed pattern has its query block, if any, at the root: the path
    under it and every query value are concatenations of simple nodes, so no
    query block and no concatenation sits under a modifier or a prefix. *)
Theorem parse_shape (pattern : string) (a : AST) :
  parse pattern = Ok a →
  flatPath (pathPartOf a) = true
  ∧ Forall (λ q, flatPath (value q) = true) (queryParamsOf a).
Proof.
  unfold parse. destruct (splitByQueryParams pattern) as [segments queryString].
  destruct (pathAst segments) as [p|] eqn:Ep; simpl; [|discriminate].
  apply pathAst_flat in Ep.
  destruct (String.eqb (Js.trim queryString) EmptyString).
  - intros [= <-]. split; [by destruct p|].
    apply flatPath_not_query in Ep. destruct p; try discriminate Ep; constructor.
  - unfold parseQuery.
    set (q := if Js.head_is "?" queryString then _ else _).
    pose proof (split_char_nonempty "&" q) as Hne.
    destruct (Js.split_char "&" q) as [|x l]; [done|].
    destruct (mapM parseQueryParam (x :: l)) as [ps|] eqn:E; simpl; [|discriminate].
    intros [= <-]. split; [done|]. simpl.
    by apply (mapM_Ok_Forall parseQueryParam _ _ parseQueryParam_flat) in E.
Qed.

Lemma parse_shape_witness :
  flatPath (pathPartOf searchAst) = true
  ∧ Forall (λ q, flatPath (value q) = true) (queryParamsOf searchAst).
Proof. apply (parse_shape searchPattern). vm_compute. reflexivity. Defined.

(** X8: a pattern without a query part always parses, and what it parses to
    always compiles, to a matcher and to an interpolator. *)
Theorem parse_path_only_compiles (pattern : string) (end_ : bool) :
  Js.trim (snd (splitByQueryParams pattern)) = EmptyString →
  ∃ a m i, parse pattern = Ok a
           ∧ astToMatcher a end_ = Ok m
           ∧ astToInterpolation a = Ok i.
Proof.
  intros Hblank. unfold parse.
  destruct (splitByQueryParams pattern) as [segments queryString].
  simpl in Hblank. destruct (pathAst_total segments) as [a Ea].
  pose proof (pathAst_flat _ _ Ea) as Hflat.
  destruct (wellFormed_matcher_total a end_) as [m Hm]; [by destruct a|].
  destruct (flatPath_interpolator_total a Hflat) as [i Hi].
  exists a, m, i. rewrite Ea, Hblank. by simpl.
Qed.

Lemma parse_path_only_compiles_witness :
  ∃ a m i, parse "/files/{v:version}/:path*" = Ok a
           ∧ astToMatcher a true = Ok m
           ∧ astToInterpolation a = Ok i.
Proof.
  apply (parse_path_only_compiles "/files/{v:version}/:path*" true).
  vm_compute. reflexivity.
Defined.

(** ** When parsing a query part throws *)

Lemma split_char_absent (c : ascii) (s : string) :
  hasChar c s = false → Js.split_char c s = [s].
Proof.
  induction s as [|a s IH]; simpl; [done|]. intros H.
  apply orb_false_iff in H as [-> H]. by rewrite IH.
Qed.

Lemma split_char_present (c : ascii) (s : string) :
  hasChar c s = true → ∃ k v rest, Js.split_char c s = k :: v :: rest.
Proof.
  induction s as [|a s IH]; simpl; [done|].
  pose proof (split_char_nonempty c s) as Hne.
  destruct (Ascii.eqb a c); simpl.
  - intros _. destruct (Js.split_char c s) as [|v rest]; [done|]. eauto.
  - intros H. destruct (IH H) as (k & v & rest & ->). eauto.
Qed.

Lemma parseQueryParam_ok_iff (param : string) :
  (∃ q, parseQueryParam param = Ok q) ↔ hasChar "=" param = true.
Proof.
  unfold parseQueryParam. destruct (hasChar "=" param) eqn:E.
  - destruct (split_char_present _ _ E) as (k & v & rest & ->). simpl.
    split; [done|]. intros _. destruct (String.eqb v EmptyString); [eauto|].
    destruct (parsePathSegment_total v) as [a ->]. simpl. eauto.
  - rewrite (split_char_absent _ _ E). simpl. split; [|done].
    by intros [q Hq].
Qed.

Lemma mapM_Ok_iff {A B} (f : A → Result B) (l : list A) :
  (∃ l', mapM f l = Ok l') ↔ Forall (λ x, ∃ b, f x = Ok b) l.
Proof.
  induction l as [|x l IH]; simpl.
  - split; [constructor|eauto].
  - split.
    + intros [l' H]. destruct (f x) as [b|] eqn:Eb; simpl in H; [|discriminate].
      destruct (mapM f l) as [bs|] eqn:Ebs; simpl in H; [|discriminate].
      constructor; [eauto|]. apply IH. eauto.
    + intros H. apply Forall_cons in H as [[b Hb] Hl].
      apply IH in Hl as [l' Hl]. rewrite Hb, Hl. simpl. eauto.
Qed.

(** X10: a pattern with a query part parses exactly when every pair of the
    query part, cut at the ampersands, has an equals sign; otherwise parsing
    throws. *)
Theorem parse_query_ok_iff (pattern : string) :
  Js.trim (snd (splitByQueryParams pattern)) ≠ EmptyString →
  (∃ a, parse pattern = Ok a)
  ↔ Forall (λ pair, hasChar "=" pair = true)
           (queryPairs (snd (splitByQueryParams pattern))).
Proof.
  intros Hq. unfold parse.
  destruct (splitByQueryParams pattern) as [segments queryString].
  simpl in *. destruct (pathAst_total segments) as [p ->]. simpl.
  destruct (String.eqb_spec (Js.trim queryString) EmptyString); [done|].
  unfold parseQuery, queryPairs.
  set (q := if Js.head_is "?" queryString then _ else _).
  pose proof (split_char_nonempty "&" q) as Hne.
  destruct (Js.split_char "&" q) as [|x l] eqn:El; [done|].
  assert (Hiff : Forall (λ pair, hasChar "=" pair = true) (x :: l)
                 ↔ Forall (λ pair, ∃ b, parseQueryParam pair = Ok b) (x :: l)).
  { apply Forall_iff. intros pair. symmetry. apply parseQueryParam_ok_iff. }
  rewrite Hiff, <- mapM_Ok_iff. split.
  - intros [a Ha].
    destruct (mapM parseQueryParam (x :: l)) as [ps|]; [eauto|discriminate].
  - intros [ps ->]. simpl. eauto.
Qed.

Lemma parse_query_ok_iff_witness :
  (∃ a, parse ("/a" +:+ query_marker +:+ "k=:v&flag") = Ok a)
  ↔ Forall (λ pair, hasChar "=" pair = true) ["k=:v"; "flag"].
Proof.
  apply (parse_query_ok_iff ("/a" +:+ query_marker +:+ "k=:v&flag")).
  vm_compute. discriminate.
Defined.

(** ** The end flag *)

(** X11: requiring the whole path to be consumed only ever removes matches:
    what a route matches with the flag set, it matches with the same
    parameters without it. *)
Theorem match_end_weakens (a : AST) (path : string) (P : gmap string ParamValue) :
  Route.match_ (Route.make a (Some true)) path = Ok (Some P) →
  Route.match_ (Route.make a (Some false)) path = Ok (Some P).
Proof.
  unfold Route.match_, Route.getMatch, astToMatcher, Route.make. simpl.
  destruct (compileAll astSegmentToMatcher (getAstSegments a) 0)
    as [[matchers ctx]|]; simpl; [|done].
  match goal with
  | |- context [runMatchers ?ms ?acc ?c0] =>
      destruct (runMatchers ms acc c0) as [[result|] c]
  end; [|done].
  by destruct (Nat.ltb 0 (length (pathSegments c))).
Qed.

Lemma match_end_weakens_witness :
  Route.match_ (Route.make articleAst (Some false)) "/articles/123"
  = Ok (Some {[ "slug" := Str "123" ]}).
Proof.
  apply match_end_weakens. vm_compute. reflexivity.
Defined.

(** ** The specificity order is consistent *)

Lemma comparePaths_keys_lists (aParts bParts : list string) :
  match Route.compareParts aParts bParts with
  | Some r => r
  | None =>
      if Nat.eqb (length aParts) (length bParts) then 0%Z
      else if Nat.ltb (length bParts) (length aParts) then (-1)%Z
      else 1%Z
  end
  = compareKeys (map Route.guessComplexity aParts)
                (map Route.guessComplexity bParts).
Proof.
  revert bParts. induction aParts as [|a aRest IH]; intros [|b bRest];
    try reflexivity.
  specialize (IH bRest). cbn [Route.compareParts map compareKeys length].
  cbn [length] in IH.
  destruct (String.eqb_spec a b) as [->|Hab].
  - rewrite Z.eqb_refl. exact IH.
  - destruct (Z.eqb (Route.guessComplexity a) (Route.guessComplexity b));
      [exact IH|].
    by repeat match goal with |- context [if ?c then _ else _] => destruct c end.
Qed.

Lemma comparePaths_keys (aPath bPath : string) :
  Route.comparePaths aPath bPath
  = compareKeys (map Route.guessComplexity (Js.split_char "/" aPath))
                (map Route.guessComplexity (Js.split_char "/" bPath)).
Proof. apply comparePaths_keys_lists. Qed.

Lemma compareKeys_refl (k : list Z) : compareKeys k k = 0%Z.
Proof. induction k as [|x k IH]; simpl; [done|]. by rewrite Z.eqb_refl. Qed.

Lemma compareKeys_trans (a b c : list Z) :
  (compareKeys a b ≤ 0)%Z → (compareKeys b c ≤ 0)%Z → (compareKeys a c ≤ 0)%Z.
Proof.
  revert b c. induction a as [|x a IH]; intros [|y b] [|z c]; simpl;
    try lia.
  destruct (Z.eqb_spec x y), (Z.eqb_spec y z), (Z.eqb_spec x z);
    subst; try lia; try apply IH;
    repeat match goal with
           | |- context [Z.eqb ?u 0] => destruct (Z.eqb_spec u 0)
           | |- context [Z.ltb ?u ?v] => destruct (Z.ltb_spec u v)
           end; lia.
Qed.

(** X12: the comparator is a consistent one: a route ties with itself,
    swapping the arguments swaps the sign, and being placed no later is
    transitive. *)
Theorem Order_consistent `{Path.PathDSL} (a b c : Route.Route) :
  Route.Order a a = 0%Z
  ∧ Route.Order b a = (- Route.Order a b)%Z
  ∧ ((Route.Order a b ≤ 0)%Z → (Route.Order b c ≤ 0)%Z →
     (Route.Order a c ≤ 0)%Z).
Proof.
  unfold Route.Order. split; [|split].
  - rewrite comparePaths_keys. apply compareKeys_refl.
  - apply comparePaths_swap.
  - rewrite !comparePaths_keys. apply compareKeys_trans.
Qed.

Lemma Order_consistent_witness :
  (@Route.Order Path.syntaxDSL settingsRoute usersRoute ≤ 0)%Z.
Proof.
  destruct (@Order_consistent Path.syntaxDSL settingsRoute postsRoute usersRoute)
    as (_ & _ & Htrans).
  apply Htrans; vm_compute; discriminate.
Defined.

(** ** What sorting returns *)

Section SortedOutput.
Context {A : Type} (compare : A → A → Z).
Hypothesis compare_swap : ∀ x y, compare y x = (- compare x y)%Z.
Hypothesis compare_trans :
  ∀ x y z, (compare x y ≤ 0)%Z → (compare y z ≤ 0)%Z → (compare x z ≤ 0)%Z.

Lemma sortBy_StronglySorted (l : list A) :
  StronglySorted (inOrder compare) (EffectArray.sortBy compare l).
Proof.
  assert (Transitive (inOrder compare)) by (intros x y z; apply compare_trans).
  apply Sorted_StronglySorted; [done|]. apply sortBy_sorted.
  intros x y Hxy. rewrite (compare_swap x y). lia.
Qed.

Lemma insert_keeps_ties (z x : A) (l : list A) :
  List.filter (tied compare z) (EffectArray.insert compare x l)
  = List.filter (tied compare z) (x :: l).
Proof.
  induction l as [|y l IH]; [done|]. cbn [EffectArray.insert].
  destruct (Z.leb_spec (compare x y) 0) as [Hxy|Hxy]; [done|].
  cbn [List.filter] in *. rewrite IH.
  destruct (tied compare z x) eqn:Ex, (tied compare z y) eqn:Ey; try done.
  unfold tied in *. apply Z.eqb_eq in Ex, Ey.
  assert (compare x y ≤ 0)%Z; [|lia].
  apply (compare_trans x z y); [rewrite compare_swap|]; lia.
Qed.

Lemma sortBy_keeps_ties (z : A) (l : list A) :
  List.filter (tied compare z) (EffectArray.sortBy compare l)
  = List.filter (tied compare z) l.
Proof.
  induction l as [|x l IH]; [done|].
  change (EffectArray.sortBy compare (x :: l))
    with (EffectArray.insert compare x (EffectArray.sortBy compare l)).
  rewrite insert_keeps_ties. cbn [List.filter]. by rewrite IH.
Qed.
End SortedOutput.

Lemma Order_trans `{Path.PathDSL} (a b c : Route.Route) :
  (Route.Order a b ≤ 0)%Z → (Route.Order b c ≤ 0)%Z → (Route.Order a c ≤ 0)%Z.
Proof. unfold Route.Order. rewrite !comparePaths_keys. apply compareKeys_trans. Qed.

Lemma Order_swap `{Path.PathDSL} (a b : Route.Route) :
  Route.Order b a = (- Route.Order a b)%Z.
Proof. apply comparePaths_swap. Qed.

(** X13: sorting keeps the routes it is given, each as often as it was
    there, and puts every route in front of all the routes it does not have
    to follow: no later route is strictly more specific than an earlier one. *)
Theorem sortRoutes_sorted_permutation `{Path.PathDSL} (routes : list Route.Route) :
  Route.sortRoutes routes ≡ₚ routes
  ∧ StronglySorted (λ a b, (Route.Order a b ≤ 0)%Z) (Route.sortRoutes routes).
Proof.
  split; [apply sortBy_Permutation|].
  apply (sortBy_StronglySorted Route.Order); intros; [apply Order_swap|].
  by eapply Order_trans.
Qed.

(** X14: sorting is stable: the routes that tie with a given route come out
    in the order in which they went in. *)
Theorem sortRoutes_stable `{Path.PathDSL} (x : Route.Route)
    (routes : list Route.Route) :
  List.filter (tied Route.Order x) (Route.sortRoutes routes)
  = List.filter (tied Route.Order x) routes.
Proof.
  apply (sortBy_keeps_ties Route.Order); intros; [apply Order_swap|].
  by eapply Order_trans.
Qed.

(** ** Segment routes: what their matcher computes *)

Lemma compileAll_app {A B S} (compile : A → S → Result (B * S))
    (xs ys : list A) (ctx : S) :
  compileAll compile (xs ++ ys) ctx
  = '(bs, ctx1) ← compileAll compile xs ctx;
    '(cs, ctx2) ← compileAll compile ys ctx1;
    Ok (bs ++ cs, ctx2).
Proof.
  revert ctx. induction xs as [|x xs IH]; intros ctx; simpl.
  - destruct (compileAll compile ys ctx) as [[cs c2]|]; reflexivity.
  - destruct (compile x ctx) as [[b c1]|]; simpl; [|done]. rewrite IH.
    destruct (compileAll compile xs c1) as [[bs c2]|]; simpl; [|done].
    destruct (compileAll compile ys c2) as [[cs c3]|]; reflexivity.
Qed.

Lemma compile_piece_matchers (a : AST) :
  ∀ ctx ps ctx', pieces a ctx = Some (ps, ctx') →
  compileAll astSegmentToMatcher (getAstSegments a) ctx
  = Ok (map pieceMatcher ps, ctx').
Proof.
  induction a; intros ctx ps ctx' Hp; simpl in Hp; try discriminate.
  - injection Hp as <- <-. simpl. by destruct (String.eqb _ "/").
  - by injection Hp as <- <-.
  - by injection Hp as <- <-.
  - destruct a; try discriminate; by injection Hp as <- <-.
  - destruct (pieces a1 ctx) as [[ls c1]|] eqn:E1; [|discriminate].
    destruct (pieces a2 c1) as [[rs c2]|] eqn:E2; [|discriminate].
    injection Hp as <- <-. simpl.
    rewrite compileAll_app, (IHa1 _ _ _ E1). simpl.
    rewrite (IHa2 _ _ _ E2). simpl. by rewrite map_app.
Qed.

Lemma compile_piece_parts (a : AST) :
  ∀ ctx ps ctx', pieces a ctx = Some (ps, ctx') →
  compileAll astSegmentToInterpolationPart (getAstSegments a) (Some ctx)
  = Ok (map piecePart ps, Some ctx').
Proof.
  induction a; intros ctx ps ctx' Hp; simpl in Hp; try discriminate.
  - injection Hp as <- <-. simpl. by destruct (String.eqb _ "/").
  - by injection Hp as <- <-.
  - by injection Hp as <- <-.
  - destruct a; try discriminate; by injection Hp as <- <-.
  - destruct (pieces a1 ctx) as [[ls c1]|] eqn:E1; [|discriminate].
    destruct (pieces a2 c1) as [[rs c2]|] eqn:E2; [|discriminate].
    injection Hp as <- <-. simpl.
    rewrite compileAll_app, (IHa1 _ _ _ E1). simpl.
    rewrite (IHa2 _ _ _ E2). simpl. by rewrite map_app.
Qed.

Lemma pieceMatcher_spec (p : Piece) (segments : list string) (q : URLSearchParams) :
  match segments with
  | s :: rest =>
      if accepts p s
      then pieceMatcher p (mkCursor segments q)
           = (Some (captureOf p s), mkCursor rest q)
      else fst (pieceMatcher p (mkCursor segments q)) = None
  | [] => fst (pieceMatcher p (mkCursor segments q)) = None
  end.
Proof.
  destruct segments as [|s rest]; [by destruct p|].
  destruct p as [l|k|pre k]; simpl.
  - unfold literalMatcher. simpl. by destruct (String.eqb s l).
  - unfold getParamByKey. simpl. by destruct (String.eqb s EmptyString).
  - unfold prefixMatcher, getParamByKey. simpl.
    destruct (Js.startsWith pre s); [|done]. simpl.
    by destruct (String.eqb (Js.slice_from (String.length pre) s) EmptyString).
Qed.

(** The compiled matchers of the pieces compute [matchPieces]. *)
Lemma run_piece_matchers (ps : list Piece) :
  ∀ (acc : gmap string Captured) (segments : list string) (q : URLSearchParams),
  match matchPieces ps segments acc with
  | Some (res, rest) =>
      runMatchers (map pieceMatcher ps) acc (mkCursor segments q)
      = (Some res, mkCursor rest q)
  | None =>
      fst (runMatchers (map pieceMatcher ps) acc (mkCursor segments q)) = None
  end.
Proof.
  induction ps as [|p ps IH]; intros acc segments q; [done|].
  cbn [matchPieces map runMatchers].
  pose proof (pieceMatcher_spec p segments q) as Hp.
  destruct segments as [|s rest].
  - by destruct (pieceMatcher p (mkCursor [] q)) as [[m|] c]; simpl in *.
  - destruct (accepts p s).
    + rewrite Hp. apply IH.
    + by destruct (pieceMatcher p (mkCursor (s :: rest) q)) as [[m|] c];
        simpl in *.
Qed.

Lemma match_pieces (a : AST) (end_ : bool) (ps : list Piece) (ctx : nat)
    (path : string) :
  pieces a 0 = Some (ps, ctx) →
  Route.match_ (Route.make a (Some end_)) path
  = Ok (match matchPieces ps (fst (getPathAndQuery path)) ∅ with
        | Some (res, rest) =>
            if end_ && Nat.ltb 0 (length rest) then None
            else Some (observe rest <$> res)
        | None => None
        end).
Proof.
  intros Hp. unfold Route.match_, Route.getMatch, astToMatcher, Route.make.
  cbn [Route.routeAst Route.routeOptions Route.end_ default].
  rewrite (compile_piece_matchers _ _ _ _ Hp). cbn [mbind Result_bind].
  destruct (getPathAndQuery path) as [segments q]. cbn [fst].
  pose proof (run_piece_matchers ps ∅ segments q) as Hrun.
  destruct (matchPieces ps segments ∅) as [[res rest]|].
  - by rewrite Hrun.
  - by destruct (runMatchers (map pieceMatcher ps) ∅ (mkCursor segments q))
      as [[m|] c]; simpl in *.
Qed.

Lemma matchPieces_Some (ps : list Piece) :
  ∀ segments acc res rest,
    matchPieces ps segments acc = Some (res, rest) →
    ∃ used, segments = used ++ rest
            ∧ Forall2 (λ p s, accepts p s = true) ps used
            ∧ res = capturedBy ps used acc.
Proof.
  induction ps as [|p ps IH]; intros segments acc res rest; simpl.
  - intros [= <- <-]. exists []. by repeat split; constructor.
  - destruct segments as [|s segs]; [done|].
    destruct (accepts p s) eqn:E; [|done]. intros H.
    destruct (IH _ _ _ _ H) as (used & -> & Hall & ->).
    exists (s :: used). split; [done|]. split; [by constructor|done].
Qed.

Lemma matchPieces_accepts (ps : list Piece) (used : list string) :
  Forall2 (λ p s, accepts p s = true) ps used →
  ∀ rest acc,
    matchPieces ps (used ++ rest) acc = Some (capturedBy ps used acc, rest).
Proof.
  induction 1 as [|p s ps used Hp _ IH]; intros rest acc; [done|].
  simpl. rewrite Hp. apply IH.
Qed.

(** X15: on a path that the model of the URL parser covers, a segment
    route matches exactly when its groups accept the first segments of the
    path one for one (a literal its own text, a parameter any segment that
    is not empty, a prefix a segment that starts with it and goes on) and,
    with the end flag set, no segment is left. *)
Theorem segment_route_match_iff (a : AST) (end_ : bool) (ps : list Piece)
    (ctx : nat) (path : string) :
  pieces a 0 = Some (ps, ctx) →
  urlPlain path = true →
  (∃ P, Route.match_ (Route.make a (Some end_)) path = Ok (Some P))
  ↔ ∃ used rest,
      fst (getPathAndQuery path) = used ++ rest
      ∧ Forall2 (λ p s, accepts p s = true) ps used
      ∧ (end_ = true → rest = []).
Proof.
  intros Hp _. rewrite (match_pieces _ _ _ _ _ Hp). split.
  - intros [P HP].
    destruct (matchPieces ps (fst (getPathAndQuery path)) ∅)
      as [[res rest]|] eqn:E; [|done].
    destruct (matchPieces_Some _ _ _ _ _ E) as (used & Hsegs & Hall & _).
    exists used, rest. split; [done|]. split; [done|].
    intros ->. destruct rest; [done|]. discriminate HP.
  - intros (used & rest & -> & Hall & Hend).
    rewrite (matchPieces_accepts _ _ Hall).
    destruct end_; [rewrite Hend by done|]; simpl; eauto.
Qed.

Lemma segment_route_match_iff_witness :
  ∃ P, Route.match_ (Route.make (Concat (Literal "users")
                                        (Prefix "user-" UnnamedParam))
                                (Some true)) "/users/user-7" = Ok (Some P).
Proof.
  apply (segment_route_match_iff
           (Concat (Literal "users") (Prefix "user-" UnnamedParam)) true
           [PieceLiteral "users"; PiecePrefix "user-" "0"] 1 "/users/user-7");
    [reflexivity|reflexivity|].
  exists ["users"; "user-7"], []. split; [reflexivity|]. split; [|done].
  repeat constructor.
Defined.

(** ** Segment routes: rendering and the two round trips *)

Lemma startsWith_app (pre s : string) : Js.startsWith pre (pre +:+ s) = true.
Proof.
  induction pre as [|a pre IH]; [by destruct s|].
  rewrite append_cons. simpl. by rewrite Ascii.eqb_refl, IH.
Qed.

Lemma slice_from_app (pre s : string) :
  Js.slice_from (String.length pre) (pre +:+ s) = s.
Proof. induction pre as [|a pre IH]; [done|]. by rewrite append_cons. Qed.


Lemma allPlain_app (s t : string) :
  allPlain (s +:+ t) = allPlain s && allPlain t.
Proof.
  induction s as [|a s IH]; [done|]. rewrite append_cons. simpl.
  by rewrite IH, andb_assoc.
Qed.

Lemma plainSegment_prefixed (pre s : string) :
  allPlain pre = true → plainSegment s = true → plainSegment (pre +:+ s) = true.
Proof.
  intros Hpre Hs. destruct pre as [|a pre]; [done|].
  unfold plainSegment in *. rewrite allPlain_app, Hpre.
  apply andb_true_iff in Hs as [Hs Hdd]. apply andb_true_iff in Hs as [Hs Hd].
  apply andb_true_iff in Hs as [Hne Hall]. rewrite Hall.
  destruct s as [|b s]; [done|].
  destruct pre as [|c pre].
  - change (String a EmptyString +:+ String b s) with (String a (String b s)).
    cbn [String.eqb]. cbn [String.eqb] in Hd.
    destruct (Ascii.eqb a "."); cbn [negb andb]; [exact Hd|reflexivity].
  - destruct pre as [|d pre].
    + change (String a (String c EmptyString) +:+ String b s)
        with (String a (String c (String b s))).
      cbn [String.eqb]. by destruct (Ascii.eqb a "."), (Ascii.eqb c ".").
    + change (String a (String c (String d pre)) +:+ String b s)
        with (String a (String c (String d (pre +:+ String b s)))).
      cbn [String.eqb]. by destruct (Ascii.eqb a "."), (Ascii.eqb c ".").
Qed.

Lemma literal_part_values (P : gmap string ParamValue)
    (parts : list InterpolationPart) :
  forallb isLiteralPart parts = true →
  mapM (λ part, partValue part P) parts
  = Ok (map (λ part, match part with
                     | InterpolateLiteral v => v
                     | InterpolateParam _ => EmptyString
                     end) parts).
Proof.
  induction parts as [|part parts IH]; [done|]. simpl.
  destruct part; [|discriminate]. simpl. intros H. by rewrite IH.
Qed.

Lemma interpolate_pieces (a : AST) (o : Route.RouteOptions) (ps : list Piece)
    (ctx : nat) (P : gmap string ParamValue) (vals : list string) :
  pieces a 0 = Some (ps, ctx) →
  mapM (λ part, partValue part P) (map piecePart ps) = Ok vals →
  Route.interpolate (Route.mkRoute a o) P = Ok (orRoot (Path.pathJoin vals)).
Proof.
  intros Hp Hvals.
  unfold Route.interpolate, Route.getInterpolate, astToInterpolation.
  cbn [Route.routeAst]. rewrite (compile_piece_parts _ _ _ _ Hp).
  cbn [mbind Result_bind].
  destruct (forallb isLiteralPart (map piecePart ps)) eqn:E.
  - rewrite (literal_part_values P _ E) in Hvals. by injection Hvals as <-.
  - cbn [mbind Result_bind]. by rewrite Hvals.
Qed.

Lemma piece_values (P : gmap string ParamValue) (ps : list Piece) :
  Forall (pieceBound P) ps →
  mapM (λ part, partValue part P) (map piecePart ps)
  = Ok (map (renderPiece P) ps).
Proof.
  induction 1 as [|p ps Hp _ IH]; [done|]. cbn [map mapM]. rewrite IH.
  destruct p as [l|k|pre k]; [done|..]; destruct Hp as (s & Hs & Hplain);
    apply plainSegment_inv in Hplain as [Hne _];
    simpl; unfold getParam; rewrite Hs; by destruct s.
Qed.

Lemma renderPiece_accepted (P : gmap string ParamValue) (ps : list Piece) :
  Forall (pieceBound P) ps →
  Forall2 (λ p s, accepts p s = true) ps (map (renderPiece P) ps).
Proof.
  induction 1 as [|p ps Hp _ IH]; [constructor|]. constructor; [|done].
  destruct p as [l|k|pre k]; simpl.
  - apply String.eqb_refl.
  - destruct Hp as (s & -> & Hs). apply plainSegment_inv in Hs as [Hne _].
    by destruct s.
  - destruct Hp as (s & -> & Hs). apply plainSegment_inv in Hs as [Hne _].
    rewrite startsWith_app, slice_from_app. by destruct s.
Qed.

Lemma renderPiece_plain (P : gmap string ParamValue) (ps : list Piece) :
  Forall (pieceBound P) ps → Forall (λ p, plainPiece p = true) ps →
  Forall (λ s, plainSegment s = true) (map (renderPiece P) ps).
Proof.
  induction 1 as [|p ps Hp _ IH]; intros Hplain; [constructor|].
  apply Forall_cons in Hplain as [Hpp Hplain]. constructor; [|auto].
  destruct p as [l|k|pre k]; simpl in *; [done|..];
    destruct Hp as (s & -> & Hs); [done|]. by apply plainSegment_prefixed.
Qed.

Lemma capturedBy_cons (p : Piece) (s : string) (ps : list Piece)
    (used : list string) (acc : gmap string Captured) :
  capturedBy (p :: ps) (s :: used) acc
  = capturedBy ps used (assign acc (captureOf p s)).
Proof. reflexivity. Qed.

Lemma pieceKeys_cons_notin (k : string) (p : Piece) (ps : list Piece) :
  k ∉ pieceKeys (p :: ps) → (k ∉ pieceKeys [p]) ∧ (k ∉ pieceKeys ps).
Proof.
  unfold pieceKeys. destruct p; cbn [omap list_omap]; intros Hk.
  - split; [apply not_elem_of_nil|done].
  - apply not_elem_of_cons in Hk as [Hne Hk]. split; [|done].
    by rewrite list_elem_of_singleton.
  - apply not_elem_of_cons in Hk as [Hne Hk]. split; [|done].
    by rewrite list_elem_of_singleton.
Qed.

Lemma captureOf_notin (p : Piece) (s k : string) :
  k ∉ pieceKeys [p] → captureOf p s !! k = None.
Proof.
  destruct p as [l|k'|pre k']; simpl; [by rewrite lookup_empty|..];
    intros H; apply lookup_singleton_ne; intros ->; apply H; by left.
Qed.

Lemma assign_captureOf (acc : gmap string Captured) (p : Piece) (s : string) :
  proto_key ∉ pieceKeys [p] →
  assign acc (captureOf p s) = captureOf p s ∪ acc.
Proof. intros H. apply assign_union. by apply captureOf_notin. Qed.


Lemma capturedBy_rendered (P : gmap string ParamValue) (ps : list Piece) :
  Forall (pieceBound P) ps →
  proto_key ∉ pieceKeys ps →
  ∀ acc k,
    capturedBy ps (map (renderPiece P) ps) acc !! k
    = if decide (k ∈ pieceKeys ps) then Own <$> P !! k else acc !! k.
Proof.
  induction 1 as [|p ps Hp _ IH]; intros Hproto acc k.
  - by rewrite decide_False by (by intros ?%elem_of_nil).
  - apply pieceKeys_cons_notin in Hproto as [Hproto1 Hproto].
    cbn [map]. rewrite capturedBy_cons, (IH Hproto).
    rewrite (assign_captureOf _ _ _ Hproto1). unfold pieceKeys.
    destruct p as [l|k'|pre k']; cbn [omap list_omap]; fold (pieceKeys ps).
    + simpl. by rewrite (left_id_L ∅ (∪)).
    + destruct Hp as (s & Hs & _). simpl. rewrite Hs.
      destruct (decide (k ∈ pieceKeys ps)) as [Hin|Hin].
      { by rewrite decide_True by (by right). }
      destruct (decide (k = k')) as [->|Hne].
      * rewrite decide_True by (by left).
        by rewrite lookup_union_l', Hs, lookup_singleton_eq
          by (rewrite lookup_singleton_eq; eauto).
      * rewrite decide_False by (rewrite elem_of_cons; by intros [?|?]).
        apply lookup_union_r. by apply lookup_singleton_ne.
    + destruct Hp as (s & Hs & _). simpl. rewrite Hs, slice_from_app.
      destruct (decide (k ∈ pieceKeys ps)) as [Hin|Hin].
      { by rewrite decide_True by (by right). }
      destruct (decide (k = k')) as [->|Hne].
      * rewrite decide_True by (by left).
        by rewrite lookup_union_l', Hs, lookup_singleton_eq
          by (rewrite lookup_singleton_eq; eauto).
      * rewrite decide_False by (rewrite elem_of_cons; by intros [?|?]).
        apply lookup_union_r. by apply lookup_singleton_ne.
Qed.

(** X16: the round trip of a segment route: with plain literals and
    prefixes, no key named [__proto__], and a map that gives a plain segment
    to each of its keys and to nothing else (an unnamed parameter has its
    position among the unnamed ones as key), the route renders the map as a
    path, and matching that path gives the map back. The keys of the two
    directions agree. *)
Theorem segment_route_round_trip (a : AST) (end_ : bool) (ps : list Piece)
    (ctx : nat) (P : gmap string ParamValue) :
  pieces a 0 = Some (ps, ctx) →
  Forall (λ p, plainPiece p = true) ps →
  proto_key ∉ pieceKeys ps →
  dom P = list_to_set (pieceKeys ps) →
  (∀ k v, P !! k = Some v → ∃ s, v = Str s ∧ plainSegment s = true) →
  ∃ path,
    Route.interpolate (Route.make a (Some end_)) P = Ok path
    ∧ Route.match_ (Route.make a (Some end_)) path = Ok (Some P).
Proof.
  intros Hp Hplain Hproto Hdom Hvalues.
  assert (Hbound : Forall (pieceBound P) ps).
  { apply Forall_forall. intros p Hin.
    assert (Hkey : ∀ k, k ∈ pieceKeys ps →
                        ∃ s, P !! k = Some (Str s) ∧ plainSegment s = true).
    { intros k Hk.
      assert (Hd : k ∈ dom P) by (rewrite Hdom; by apply elem_of_list_to_set).
      apply elem_of_dom in Hd as [v Hv].
      destruct (Hvalues k v Hv) as (s & -> & Hs). eauto. }
    destruct p as [l|k|pre k]; simpl; [done|..]; apply Hkey;
      unfold pieceKeys; apply list_elem_of_omap; eexists; (split; [exact Hin|done]). }
  pose proof (renderPiece_plain P ps Hbound Hplain) as Hsegs.
  exists (orRoot (slashed (map (renderPiece P) ps))). split.
  - rewrite <- (pathJoin_plain _ Hsegs).
    apply (interpolate_pieces a _ ps ctx); [done|]. by apply piece_values.
  - rewrite (match_pieces _ _ _ _ _ Hp), (getPathAndQuery_slashed _ Hsegs).
    cbn [fst]. rewrite <- (app_nil_r (map (renderPiece P) ps)).
    rewrite (matchPieces_accepts _ _ (renderPiece_accepted P ps Hbound)).
    cbn [length Nat.ltb Nat.leb]. rewrite andb_false_r. do 2 f_equal.
    apply map_eq. intros k. rewrite lookup_fmap, capturedBy_rendered by done.
    destruct (decide (k ∈ pieceKeys ps)) as [Hin|Hin].
    + by destruct (P !! k).
    + rewrite lookup_empty. symmetry. apply not_elem_of_dom.
      rewrite Hdom. by rewrite elem_of_list_to_set.
Qed.

Lemma segment_route_round_trip_witness :
  ∃ path,
    Route.interpolate
      (Route.make (Concat UnnamedParam (Prefix "user-" UnnamedParam)) (Some true))
      ({[ "0" := Str "x" ]} ∪ {[ "1" := Str "7" ]}) = Ok path
    ∧ Route.match_
        (Route.make (Concat UnnamedParam (Prefix "user-" UnnamedParam)) (Some true))
        path
      = Ok (Some ({[ "0" := Str "x" ]} ∪ {[ "1" := Str "7" ]})).
Proof.
  apply (segment_route_round_trip
           (Concat UnnamedParam (Prefix "user-" UnnamedParam)) true
           [PieceKey "0"; PiecePrefix "user-" "1"] 2).
  - reflexivity.
  - repeat constructor.
  - apply (bool_decide_unpack _). vm_compute. reflexivity.
  - vm_compute. reflexivity.
  - intros k v Hkv. apply lookup_union_Some_raw in Hkv as [Hkv|[_ Hkv]];
      apply lookup_singleton_Some in Hkv as [_ <-]; eexists;
      (split; [reflexivity | vm_compute; reflexivity]).
Defined.







(** ** When rendering throws *)

Lemma getParam_ok_iff (k : string) (P : gmap string ParamValue) :
  (∃ v, getParam k false false P = Ok v)
  ↔ ∃ s, P !! k = Some (Str s) ∧ s ≠ EmptyString.
Proof.
  unfold getParam. destruct (P !! k) as [[s|l]|]; simpl.
  - destruct s as [|c s].
    + split; [by intros [v Hv]|]. by intros (s & [= <-] & Hs).
    + split; [|eauto]. intros _. eexists. by split.
  - split; [|by intros (s & Hs & _)].
    intros [v Hv]. by destruct (Nat.eqb (length l) 0).
  - split; [by intros [v Hv]|]. by intros (s & Hs & _).
Qed.

Lemma piecePart_ok_iff (p : Piece) (P : gmap string ParamValue) :
  (∃ v, partValue (piecePart p) P = Ok v)
  ↔ ∀ k, k ∈ pieceKeys [p] → ∃ s, P !! k = Some (Str s) ∧ s ≠ EmptyString.
Proof.
  destruct p as [l|k|pre k]; unfold pieceKeys; cbn [omap list_omap partValue piecePart].
  - split; [|eauto]. intros _ k Hk. by apply elem_of_nil in Hk.
  - rewrite getParam_ok_iff. split.
    + intros H k' Hk. by apply list_elem_of_singleton in Hk as ->.
    + intros H. apply H. by apply list_elem_of_singleton.
  - split.
    + intros [v Hv] k' Hk. apply list_elem_of_singleton in Hk as ->.
      apply getParam_ok_iff.
      destruct (getParam k false false P) as [w|]; [eauto|discriminate].
    + intros H. destruct (proj2 (getParam_ok_iff k P)) as [w Hw].
      { apply H. by apply list_elem_of_singleton. }
      rewrite Hw. simpl. eauto.
Qed.

(** X18: rendering a segment route, none of whose keys is the name of a
    property every object inherits, succeeds exactly when the map gives
    every key of the route a string that is not empty; a missing key, an
    empty string or a list makes it throw. *)
Theorem segment_route_interpolate_ok_iff (a : AST) (o : Route.RouteOptions)
    (ps : list Piece) (ctx : nat) (P : gmap string ParamValue) :
  pieces a 0 = Some (ps, ctx) →
  Forall (λ k, ordinaryKey k = true) (pieceKeys ps) →
  (∃ path, Route.interpolate (Route.mkRoute a o) P = Ok path)
  ↔ ∀ k, k ∈ pieceKeys ps → ∃ s, P !! k = Some (Str s) ∧ s ≠ EmptyString.
Proof.
  intros Hp _.
  assert (Hmap : (∃ path, Route.interpolate (Route.mkRoute a o) P = Ok path)
                 ↔ ∃ vals, mapM (λ part, partValue part P) (map piecePart ps)
                           = Ok vals).
  { split.
    - intros [path Hpath].
      unfold Route.interpolate, Route.getInterpolate, astToInterpolation in Hpath.
      cbn [Route.routeAst] in Hpath.
      rewrite (compile_piece_parts _ _ _ _ Hp) in Hpath.
      cbn [mbind Result_bind] in Hpath.
      destruct (forallb isLiteralPart (map piecePart ps)) eqn:E.
      + rewrite (literal_part_values P _ E). eauto.
      + cbn [mbind Result_bind] in Hpath.
        destruct (mapM _ (map piecePart ps)) as [vals|]; [eauto|discriminate].
    - intros [vals Hvals]. rewrite (interpolate_pieces a o ps ctx P vals); eauto. }
  rewrite Hmap, mapM_Ok_iff, Forall_fmap, Forall_forall. split.
  - intros H k Hk. apply list_elem_of_omap in Hk as (p & Hin & Hk).
    apply (proj1 (piecePart_ok_iff p P) (H p Hin)).
    unfold pieceKeys. apply list_elem_of_omap. exists p. split; [by left|done].
  - intros H p Hin. apply piecePart_ok_iff. intros k Hk. apply H.
    apply list_elem_of_omap in Hk as (p' & Hin' & Hk).
    apply list_elem_of_singleton in Hin' as ->.
    apply list_elem_of_omap. eauto.
Qed.

Lemma segment_route_interpolate_ok_iff_witness :
  (∃ path, Route.interpolate (Route.mkRoute articleAst (Route.mkRouteOptions false))
             {[ "slug" := Arr ["a"] ]} = Ok path)
  ↔ ∀ k, k ∈ ["slug"] →
         ∃ s, ({[ "slug" := Arr ["a"] ]} : gmap string ParamValue) !! k
              = Some (Str s) ∧ s ≠ EmptyString.
Proof.
  apply (segment_route_interpolate_ok_iff articleAst _
           [PieceLiteral "articles"; PieceKey "slug"] 0).
  - reflexivity.
  - repeat constructor.
Defined.

(** ** Segment routes that end in a repetition *)

Lemma runMatchers_app (ms ms' : list Matcher) :
  ∀ acc c,
    runMatchers (ms ++ ms') acc c
    = match runMatchers ms acc c with
      | (Some r, c') => runMatchers ms' r c'
      | (None, c') => (None, c')
      end.
Proof.
  induction ms as [|m ms IH]; intros acc c; [done|]. simpl.
  destruct (m c) as [[r|] c']; [apply IH|done].
Qed.

Lemma match_after_pieces (a : AST) (optional : bool) (k : string)
    (end_ : bool) (ps : list Piece) (ctx : nat) (path : string) :
  pieces a 0 = Some (ps, ctx) →
  k ≠ proto_key →
  Route.match_ (Route.make (Concat a (repetition optional k)) (Some end_)) path
  = Ok (match matchPieces ps (fst (getPathAndQuery path)) ∅ with
        | Some (res, rest) =>
            if (if Nat.eqb (length rest) 0 then optional else negb end_)
            then Some (<[ k := Arr rest ]> (observe rest <$> res))
            else None
        | None => None
        end).
Proof.
  intros Hp Hk. unfold Route.match_, Route.getMatch, astToMatcher, Route.make.
  cbn [Route.routeAst Route.routeOptions Route.end_ default getAstSegments].
  assert (Hrep : getAstSegments (repetition optional k) = [[repetition optional k]])
    by (by destruct optional).
  rewrite Hrep, compileAll_app, (compile_piece_matchers _ _ _ _ Hp).
  assert (Hc : compileAll astSegmentToMatcher [[repetition optional k]] ctx
               = Ok ([getParamByKey k optional true], ctx))
    by (by destruct optional).
  cbn [mbind Result_bind]. rewrite Hc. cbn [mbind Result_bind].
  destruct (getPathAndQuery path) as [segments q]. cbn [fst]. f_equal.
  rewrite runMatchers_app.
  pose proof (run_piece_matchers ps ∅ segments q) as Hrun.
  destruct (matchPieces ps segments ∅) as [[res rest]|].
  - rewrite Hrun. cbn [runMatchers]. unfold getParamByKey. cbn [pathSegments].
    destruct rest as [|s rest]; destruct optional; destruct end_; simpl;
      try reflexivity;
      rewrite assign_singleton by done;
      by rewrite map_fmap_union, map_fmap_singleton, insert_union_singleton_l.
  - by destruct (runMatchers (map pieceMatcher ps) ∅ (mkCursor segments q))
      as [[m|] c]; simpl in *.
Qed.

(** X19: a repetition that closes a segment route, under a name other
    than [__proto__], captures the segments the groups before it leave and
    consumes none of them: when none is left the route matches only if the
    repetition is the optional one, and when some are left only if the end
    flag is off. The path is one the model of the URL parser covers. *)
Theorem trailing_repetition_match (a : AST) (optional : bool) (k : string)
    (end_ : bool) (ps : list Piece) (ctx : nat) (path : string) :
  pieces a 0 = Some (ps, ctx) →
  k ≠ proto_key →
  urlPlain path = true →
  Route.match_ (Route.make (Concat a (repetition optional k)) (Some end_)) path
  = Ok (match matchPieces ps (fst (getPathAndQuery path)) ∅ with
        | Some (res, rest) =>
            if (if Nat.eqb (length rest) 0 then optional else negb end_)
            then Some (<[ k := Arr rest ]> (observe rest <$> res))
            else None
        | None => None
        end).
Proof. intros Hp Hk _. by apply (match_after_pieces _ _ _ _ _ ctx). Qed.

Lemma trailing_repetition_match_witness :
  Route.match_ (Route.make (Concat (Literal "files") (repetition false "path"))
                           (Some true)) "/files/a/b"
  = Ok None.
Proof.
  apply (trailing_repetition_match (Literal "files") false "path" true
           [PieceLiteral "files"] 0 "/files/a/b");
    [reflexivity|discriminate|reflexivity].
Defined.

(** ** What a matcher reads of the query string *)

Lemma query_get_head (k : string) (q : URLSearchParams) :
  query_get k q = head (query_getAll k q).
Proof.
  unfold query_get, query_getAll. induction q as [|kv q IH]; [done|].
  simpl. by destruct (has_key k kv).
Qed.

Lemma query_getAll_cons (k k0 v : string) (q : URLSearchParams) :
  query_getAll k ((k0, v) :: q)
  = if String.eqb k0 k then v :: query_getAll k q else query_getAll k q.
Proof.
  unfold query_getAll. cbn [List.filter]. unfold has_key at 1. cbn [fst].
  by destruct (String.eqb k0 k).
Qed.

Lemma query_getAll_delete (k k' : string) (q : URLSearchParams) :
  query_getAll k (query_delete k' q)
  = if String.eqb k' k then [] else query_getAll k q.
Proof.
  induction q as [|[k0 v] q IH]; [by destruct (String.eqb k' k)|].
  change (query_delete k' ((k0, v) :: q))
    with (if negb (String.eqb k0 k') then (k0, v) :: query_delete k' q
          else query_delete k' q).
  rewrite (query_getAll_cons k k0 v q).
  destruct (String.eqb k0 k') eqn:E0; cbn [negb].
  - apply String.eqb_eq in E0 as ->. rewrite IH.
    by destruct (String.eqb k' k).
  - rewrite query_getAll_cons, IH. destruct (String.eqb k' k) eqn:E; [|done].
    apply String.eqb_eq in E as ->. by rewrite E0.
Qed.

Lemma query_getAll_appended (k k' : string) (vs : list string) :
  ∀ q, query_getAll k (fold_left (λ q v, query_append k' v q) vs q)
       = query_getAll k q ++ (if String.eqb k' k then vs else []).
Proof.
  induction vs as [|v vs IH]; intros q; simpl.
  - destruct (String.eqb k' k); by rewrite app_nil_r.
  - rewrite IH. unfold query_append, query_getAll at 1.
    rewrite List.filter_app, map_app. fold (query_getAll k q).
    simpl. unfold has_key. simpl.
    destruct (String.eqb k' k); simpl; by rewrite <- app_assoc.
Qed.

(** The values a prefix matcher leaves under each key. *)
Lemma query_getAll_trimmed (k k' : string) (n : nat) (q : URLSearchParams) :
  query_getAll k
    (fold_left (λ q v, query_append k' v q)
               (map (Js.slice_from n) (query_getAll k' q)) (query_delete k' q))
  = if String.eqb k' k then map (Js.slice_from n) (query_getAll k q)
    else query_getAll k q.
Proof.
  rewrite query_getAll_appended, query_getAll_delete.
  destruct (String.eqb k' k) eqn:E; [|by rewrite app_nil_r].
  by apply String.eqb_eq in E as ->.
Qed.

Lemma getParamByKey_pathOnly (k : string) (isOptional isMultiple : bool) :
  pathOnly (getParamByKey k isOptional isMultiple).
Proof.
  intros segments. unfold getParamByKey. cbn [pathSegments].
  destruct isOptional, isMultiple, segments as [|v rest]; simpl;
    try (eexists _, _; intros q; reflexivity);
    destruct (String.eqb v EmptyString); eexists _, _; intros q; reflexivity.
Qed.

Lemma simpleAstToMatcher_pathOnly (a : AST) :
  ∀ ctx isOptional isMultiple m ctx',
    simpleAstToMatcher a ctx isOptional isMultiple = Ok (m, ctx') → pathOnly m.
Proof.
  induction a; intros ctx o mu m ctx' Hm; simpl in Hm; try discriminate; eauto.
  - injection Hm as <- <-. intros [|s rest]; unfold literalMatcher; simpl.
    + eexists _, _; intros q; reflexivity.
    + match goal with
      | |- context [String.eqb s ?l] => destruct (String.eqb s l)
      end; eexists _, _; intros q; reflexivity.
  - injection Hm as <- <-. apply getParamByKey_pathOnly.
  - injection Hm as <- <-. apply getParamByKey_pathOnly.
  - destruct (simpleAstToMatcher a ctx o mu) as [[inner c1]|] eqn:E;
      [|discriminate].
    injection Hm as <- <-. specialize (IHa _ _ _ _ _ E).
    intros [|s rest]; unfold prefixMatcher; simpl.
    + eexists _, _; intros q; reflexivity.
    + match goal with
      | |- context [Js.startsWith ?p s] => destruct (Js.startsWith p s)
      end.
      * apply IHa.
      * eexists _, _; intros q; reflexivity.
Qed.

Lemma pathOnly_readsOnly (keys : list string) (m : Matcher) :
  pathOnly m → readsOnly keys m.
Proof.
  intros Hm [segments q] [segments' q'] Hs Hq. simpl in Hs, Hq. subst segments'.
  destruct (Hm segments) as (r & rest & H). by rewrite !H.
Qed.

Lemma pathOnly_keepsAbsent (k : string) (m : Matcher) :
  pathOnly m → keepsAbsent k m.
Proof.
  intros Hm [segments q] Hq. destruct (Hm segments) as (r & rest & H).
  by rewrite H.
Qed.

Lemma simpleAstToQueryMatcher_readsOnly (keys : list string) (k : string)
    (v : AST) :
  k ∈ keys →
  ∀ ctx isOptional isMultiple m ctx',
    simpleAstToQueryMatcher k v ctx isOptional isMultiple = Ok (m, ctx') →
    readsOnly keys m.
Proof.
  intros Hk.
  induction v; intros ctx o mu m ctx' Hm; simpl in Hm; try discriminate; eauto.
  - injection Hm as <- <-. intros c c' Hs Hq. unfold literalQueryMatcher.
    rewrite !query_get_head, (Hq k Hk).
    destruct (head (query_getAll k (query c'))) as [w|]; [|done].
    match goal with
    | |- context [String.eqb w ?l] => by destruct (String.eqb w l)
    end.
  - injection Hm as <- <-. intros c c' Hs Hq. unfold getQueryParamByKey.
    rewrite !query_get_head, (Hq k Hk).
    destruct mu, o; simpl; try done.
    + by destruct (Nat.eqb (length (query_getAll k (query c'))) 0).
    + by destruct (head (query_getAll k (query c'))).
    + by destruct (head (query_getAll k (query c'))).
  - injection Hm as <- <-. intros c c' Hs Hq. unfold getQueryParamByKey.
    rewrite !query_get_head, (Hq k Hk).
    destruct mu, o; simpl; try done.
    + by destruct (Nat.eqb (length (query_getAll k (query c'))) 0).
    + by destruct (head (query_getAll k (query c'))).
    + by destruct (head (query_getAll k (query c'))).
  - destruct (simpleAstToQueryMatcher k v ctx o mu) as [[inner c1]|] eqn:E;
      [|discriminate].
    injection Hm as <- <-. specialize (IHv _ _ _ _ _ E).
    intros c c' Hs Hq. unfold prefixQueryMatcher. apply IHv; [done|].
    cbn [query]. intros k0 Hk0. rewrite !query_getAll_trimmed.
    by rewrite (Hq k0 Hk0).
Qed.

Lemma runMatchers_readsOnly (keys : list string) (ms : list Matcher) :
  Forall (readsOnly keys) ms → ∀ acc, readsOnly keys (runMatchers ms acc).
Proof.
  induction 1 as [|m ms Hm _ IH]; intros acc c c' Hs Hq; [done|]. simpl.
  destruct (Hm c c' Hs Hq) as (H1 & H2 & H3).
  destruct (m c) as [[r|] c1], (m c') as [[r'|] c1']; simpl in *;
    try discriminate; [|done].
  injection H1 as <-. by apply IH.
Qed.

Lemma compileAll_Forall {A B S} (compile : A → S → Result (B * S))
    (Q : B → Prop) (xs : list A) :
  Forall (λ x, ∀ ctx b ctx', compile x ctx = Ok (b, ctx') → Q b) xs →
  ∀ ctx bs ctx', compileAll compile xs ctx = Ok (bs, ctx') → Forall Q bs.
Proof.
  induction 1 as [|x xs Hx _ IH]; intros ctx bs ctx' Hc; simpl in Hc.
  - injection Hc as <- <-. constructor.
  - destruct (compile x ctx) as [[b c1]|] eqn:E; [|discriminate].
    simpl in Hc.
    destruct (compileAll compile xs c1) as [[bs' c2]|] eqn:E'; [|discriminate].
    injection Hc as <- <-. constructor; eauto.
Qed.

Lemma compileAll_Exists {A B S} (compile : A → S → Result (B * S))
    (Q : B → Prop) (x : A) (xs : list A) :
  x ∈ xs →
  (∀ ctx b ctx', compile x ctx = Ok (b, ctx') → Q b) →
  ∀ ctx bs ctx', compileAll compile xs ctx = Ok (bs, ctx') → Exists Q bs.
Proof.
  intros Hin Hx. induction xs as [|y xs IH]; intros ctx bs ctx' Hc.
  - by apply elem_of_nil in Hin.
  - simpl in Hc.
    destruct (compile y ctx) as [[b c1]|] eqn:E; [|discriminate].
    simpl in Hc.
    destruct (compileAll compile xs c1) as [[bs' c2]|] eqn:E'; [|discriminate].
    injection Hc as <- <-.
    apply elem_of_cons in Hin as [->|Hin]; [left; eauto|right; eauto].
Qed.

Lemma queryParamsToMatcher_readsOnly (params : list QueryParam) (ctx : nat)
    (m : Matcher) (ctx' : nat) :
  queryParamsToMatcher params ctx = Ok (m, ctx') →
  readsOnly (key <$> params) m.
Proof.
  unfold queryParamsToMatcher. intros Hm.
  destruct (compileAll _ params ctx) as [[ms c1]|] eqn:E; [|discriminate].
  injection Hm as <- <-. apply runMatchers_readsOnly.
  eapply compileAll_Forall; [|exact E].
  apply Forall_forall. intros p Hp c b c' Hb.
  eapply simpleAstToQueryMatcher_readsOnly; [|exact Hb].
  apply list_elem_of_fmap. eauto.
Qed.

Lemma matcher_groups_readsOnly (a : AST) :
  wellFormed a = true →
  Forall (λ g, ∀ ctx m ctx',
            astSegmentToMatcher g ctx = Ok (m, ctx') →
            readsOnly (key <$> queryParamsOf a) m)
         (getAstSegments a).
Proof.
  intros Ha.
  assert (Hflat : ∀ b keys, flatPath b = true →
            Forall (λ g, ∀ ctx m ctx',
                      astSegmentToMatcher g ctx = Ok (m, ctx') →
                      readsOnly keys m)
                   (getAstSegments b)).
  { intros b keys Hb. eapply Forall_impl; [by apply getAstSegments_flatPath|].
    intros g (x & -> & Hx) ctx m ctx' Hm.
    rewrite astSegmentToMatcher_simple in Hm by done.
    apply pathOnly_readsOnly. by eapply simpleAstToMatcher_pathOnly. }
  destruct (isQueryParams a) eqn:E.
  - destruct a; try discriminate E. simpl in Ha.
    apply andb_true_iff in Ha as [Hprev _]. cbn [getAstSegments queryParamsOf].
    apply Forall_app. split; [by apply Hflat|].
    constructor; [|constructor]. intros ctx m ctx' Hm. simpl in Hm.
    by eapply queryParamsToMatcher_readsOnly.
  - apply Hflat. by destruct a.
Qed.

(** X20: what a well-formed route matches depends on the segments of the
    path and on the values the query string holds under the keys of the
    route's query block, and on nothing else: the other keys of the query
    string, and all of it when the route has no query block, are ignored.
    The two inputs are ones the model of the URL parser covers. *)
Theorem match_reads_declared_keys (a : AST) (o : Route.RouteOptions)
    (path path' : string) :
  wellFormed a = true →
  urlPlain path = true → urlPlain path' = true →
  fst (getPathAndQuery path) = fst (getPathAndQuery path') →
  Forall (λ k, query_getAll k (snd (getPathAndQuery path))
               = query_getAll k (snd (getPathAndQuery path')))
         (key <$> queryParamsOf a) →
  Route.match_ (Route.mkRoute a o) path = Route.match_ (Route.mkRoute a o) path'.
Proof.
  intros Ha _ _ Hs Hq. unfold Route.match_, Route.getMatch, astToMatcher.
  cbn [Route.routeAst Route.routeOptions default].
  destruct (compileAll astSegmentToMatcher (getAstSegments a) 0)
    as [[ms c1]|] eqn:E; [|done].
  cbn [mbind Result_bind]. f_equal.
  destruct (getPathAndQuery path) as [segments q].
  destruct (getPathAndQuery path') as [segments' q'].
  simpl in Hs, Hq. subst segments'.
  assert (Hms : Forall (readsOnly (key <$> queryParamsOf a)) ms).
  { eapply compileAll_Forall; [|exact E]. by apply matcher_groups_readsOnly. }
  destruct (runMatchers_readsOnly _ _ Hms ∅ (mkCursor segments q)
              (mkCursor segments q')) as (H1 & H2 & _); [done| |].
  { intros k Hk. rewrite Forall_forall in Hq. by apply Hq. }
  destruct (runMatchers ms ∅ (mkCursor segments q)) as [r c],
           (runMatchers ms ∅ (mkCursor segments q')) as [r' c'].
  simpl in H1, H2. subst r'. rewrite H2. reflexivity.
Qed.

Lemma match_reads_declared_keys_witness :
  Route.match_ (Route.mkRoute searchAst (Route.mkRouteOptions true))
               "/search?q=test&lang=en"
  = Route.match_ (Route.mkRoute searchAst (Route.mkRouteOptions true))
                 "/search?q=test".
Proof.
  apply match_reads_declared_keys;
    [reflexivity|reflexivity|reflexivity|reflexivity|].
  repeat constructor.
Defined.

(** ** Mandatory query keys *)

Lemma simpleAstToQueryMatcher_keepsAbsent (k k' : string) (v : AST) :
  ∀ ctx isOptional isMultiple m ctx',
    simpleAstToQueryMatcher k' v ctx isOptional isMultiple = Ok (m, ctx') →
    keepsAbsent k m.
Proof.
  induction v; intros ctx o mu m ctx' Hm; simpl in Hm; try discriminate; eauto.
  - injection Hm as <- <-. intros c Hc. unfold literalQueryMatcher.
    destruct (query_get k' (query c)) as [w|]; [|done].
    match goal with
    | |- context [String.eqb w ?l] => by destruct (String.eqb w l)
    end.
  - injection Hm as <- <-. intros c Hc. unfold getQueryParamByKey.
    destruct mu, o; simpl; try done.
    + by destruct (Nat.eqb (length (query_getAll k' (query c))) 0).
    + by destruct (query_get k' (query c)).
    + by destruct (query_get k' (query c)).
  - injection Hm as <- <-. intros c Hc. unfold getQueryParamByKey.
    destruct mu, o; simpl; try done.
    + by destruct (Nat.eqb (length (query_getAll k' (query c))) 0).
    + by destruct (query_get k' (query c)).
    + by destruct (query_get k' (query c)).
  - destruct (simpleAstToQueryMatcher k' v ctx o mu) as [[inner c1]|] eqn:E;
      [|discriminate].
    injection Hm as <- <-. specialize (IHv _ _ _ _ _ E).
    intros c Hc. unfold prefixQueryMatcher. apply IHv. cbn [query].
    rewrite query_getAll_trimmed, Hc. by destruct (String.eqb k' k).
Qed.

Lemma simpleAstToQueryMatcher_needsKey (k : string) (v : AST) :
  ∀ ctx isOptional isMultiple m ctx',
    requiresKey v isOptional = true →
    simpleAstToQueryMatcher k v ctx isOptional isMultiple = Ok (m, ctx') →
    needsKey k m.
Proof.
  induction v; intros ctx o mu m ctx' Hv Hm; simpl in Hv, Hm;
    try discriminate; eauto.
  - injection Hm as <- <-. intros c Hc. unfold literalQueryMatcher.
    by rewrite query_get_head, Hc.
  - injection Hm as <- <-. apply negb_true_iff in Hv as ->.
    intros c Hc. unfold getQueryParamByKey.
    rewrite query_get_head, Hc. by destruct mu.
  - injection Hm as <- <-. apply negb_true_iff in Hv as ->.
    intros c Hc. unfold getQueryParamByKey.
    rewrite query_get_head, Hc. by destruct mu.
  - destruct (simpleAstToQueryMatcher k v ctx o mu) as [[inner c1]|] eqn:E;
      [|discriminate].
    injection Hm as <- <-. specialize (IHv _ _ _ _ _ Hv E).
    intros c Hc. unfold prefixQueryMatcher. apply IHv. cbn [query].
    by rewrite query_getAll_trimmed, Hc, String.eqb_refl.
Qed.

Lemma runMatchers_keepsAbsent (k : string) (ms : list Matcher) :
  Forall (keepsAbsent k) ms → ∀ acc, keepsAbsent k (runMatchers ms acc).
Proof.
  induction 1 as [|m ms Hm _ IH]; intros acc c Hc; [done|]. simpl.
  specialize (Hm c Hc). destruct (m c) as [[r|] c1]; simpl in *; [|done].
  by apply IH.
Qed.

Lemma runMatchers_needsKey (k : string) (ms : list Matcher) :
  Forall (keepsAbsent k) ms → Exists (needsKey k) ms →
  ∀ acc, needsKey k (runMatchers ms acc).
Proof.
  induction 1 as [|m ms Hm Hms IH]; intros Hex acc c Hc.
  - by apply Exists_nil in Hex.
  - simpl. specialize (Hm c Hc).
    apply Exists_cons in Hex as [Hneeds|Hex].
    + specialize (Hneeds c Hc). by destruct (m c) as [[r|] c1]; simpl in *.
    + destruct (m c) as [[r|] c1]; simpl in *; [|done]. by apply IH.
Qed.

Lemma runParts_keepsAbsent (k : string) (parts : list Matcher) :
  Forall (keepsAbsent k) parts →
  ∀ c, query_getAll k (query c) = [] →
       query_getAll k (query (snd (runParts parts c))) = [].
Proof.
  induction 1 as [|m ms Hm _ IH]; intros c Hc; [done|]. simpl.
  specialize (Hm c Hc). destruct (m c) as [r c1]. simpl in Hm.
  specialize (IH c1 Hm). by destruct (runParts ms c1) as [rs c2].
Qed.

Lemma queryParamsToMatcher_keepsAbsent (k : string) (params : list QueryParam)
    (ctx : nat) (m : Matcher) (ctx' : nat) :
  queryParamsToMatcher params ctx = Ok (m, ctx') → keepsAbsent k m.
Proof.
  unfold queryParamsToMatcher. intros Hm.
  destruct (compileAll _ params ctx) as [[ms c1]|] eqn:E; [|discriminate].
  injection Hm as <- <-. apply runMatchers_keepsAbsent.
  eapply compileAll_Forall; [|exact E].
  apply Forall_forall. intros p Hp c b c' Hb.
  by eapply simpleAstToQueryMatcher_keepsAbsent.
Qed.

Lemma astSegmentToMatcher_keepsAbsent (k : string) (g : list AST) (ctx : nat)
    (m : Matcher) (ctx' : nat) :
  astSegmentToMatcher g ctx = Ok (m, ctx') → keepsAbsent k m.
Proof.
  assert (Hsimple : ∀ x c b c',
            simpleAstToMatcher x c false false = Ok (b, c') → keepsAbsent k b).
  { intros x c b c' Hb. apply pathOnly_keepsAbsent.
    by eapply simpleAstToMatcher_pathOnly. }
  destruct g as [|x [|y g]]; [done| |].
  - intros Hm. destruct x;
      first [ discriminate Hm
            | exact (queryParamsToMatcher_keepsAbsent _ _ _ _ _ Hm)
            | match type of Hm with
              | astSegmentToMatcher [?x] _ = _ => exact (Hsimple x _ _ _ Hm)
              end ].
  - unfold astSegmentToMatcher. intros Hm.
    destruct (compileAll _ (x :: y :: g) ctx) as [[parts c1]|] eqn:E;
      [|discriminate].
    injection Hm as <- <-. intros c Hc.
    assert (Hparts : Forall (keepsAbsent k) parts).
    { eapply compileAll_Forall; [|exact E].
      apply Forall_forall. intros z _. apply Hsimple. }
    pose proof (runParts_keepsAbsent k parts Hparts c Hc) as Hrun.
    destruct (runParts parts c) as [result c2]. simpl in Hrun.
    by destruct (forallb _ result).
Qed.

Lemma missing_key_fails (previous : AST) (params : list QueryParam)
    (end_ : bool) (p : QueryParam) (m : MatchFn) :
  p ∈ params →
  requiresKey (value p) false = true →
  astToMatcher (QueryParams previous params) end_ = Ok m →
  ∀ segments q, query_getAll (key p) q = [] → m segments q = None.
Proof.
  intros Hp Hv. unfold astToMatcher. intros Hm.
  destruct (compileAll astSegmentToMatcher
              (getAstSegments (QueryParams previous params)) 0)
    as [[ms c1]|] eqn:E; [|discriminate].
  injection Hm as <-. intros segments q Hq.
  assert (Hkeep : Forall (keepsAbsent (key p)) ms).
  { eapply compileAll_Forall; [|exact E].
    apply Forall_forall. intros g _ c b c'.
    apply astSegmentToMatcher_keepsAbsent. }
  assert (Hneed : Exists (needsKey (key p)) ms).
  { eapply (compileAll_Exists _ _ [QueryParams previous params]); [| |exact E].
    - cbn [getAstSegments]. apply elem_of_app. right. by left.
    - intros c b c'. cbn [astSegmentToMatcher]. unfold queryParamsToMatcher.
      intros Hb.
      destruct (compileAll _ params c) as [[qs c2]|] eqn:Eq; [|discriminate].
      injection Hb as <- <-. apply runMatchers_needsKey.
      + eapply compileAll_Forall; [|exact Eq].
        apply Forall_forall. intros z _ c3 b c4.
        apply simpleAstToQueryMatcher_keepsAbsent.
      + eapply (compileAll_Exists _ _ p); [done| |exact Eq].
        intros c3 b c4. by apply simpleAstToQueryMatcher_needsKey. }
  pose proof (runMatchers_needsKey _ _ Hkeep Hneed ∅ (mkCursor segments q) Hq)
    as Hnone.
  destruct (runMatchers ms ∅ (mkCursor segments q)) as [[r|] c]; simpl in *;
    [discriminate|done].
Qed.

(** X21: a route with a query block never matches an input whose query
    string lacks a key that the block makes mandatory, whatever its path
    and the other keys are; when the route is well formed the result is
    [None] rather than an exception. The input is one the model of the URL
    parser covers. *)
Theorem missing_query_key_no_match (previous : AST) (params : list QueryParam)
    (o : Route.RouteOptions) (p : QueryParam) (path : string) :
  p ∈ params →
  requiresKey (value p) false = true →
  urlPlain path = true →
  query_getAll (key p) (snd (getPathAndQuery path)) = [] →
  (∀ P, Route.match_ (Route.mkRoute (QueryParams previous params) o) path
        ≠ Ok (Some P))
  ∧ (wellFormed (QueryParams previous params) = true →
     Route.match_ (Route.mkRoute (QueryParams previous params) o) path = Ok None).
Proof.
  intros Hp Hv _ Hq.
  assert (Hnone : ∀ m, astToMatcher (QueryParams previous params)
                         (Route.end_ o) = Ok m →
            Route.match_ (Route.mkRoute (QueryParams previous params) o) path
            = Ok None).
  { intros m Hm. unfold Route.match_, Route.getMatch.
    cbn [Route.routeAst Route.routeOptions default from_option id]. rewrite Hm.
    cbn [mbind Result_bind]. f_equal.
    destruct (getPathAndQuery path) as [segments q].
    by apply (missing_key_fails previous params (Route.end_ o) p m). }
  split.
  - intros P HP.
    destruct (astToMatcher (QueryParams previous params) (Route.end_ o))
      as [m|msg] eqn:E.
    + rewrite (Hnone m eq_refl) in HP. discriminate.
    + unfold Route.match_, Route.getMatch in HP.
      cbn [Route.routeAst Route.routeOptions default from_option id] in HP.
      rewrite E in HP. discriminate.
  - intros Hwf.
    destruct (wellFormed_matcher_total _ (Route.end_ o) Hwf) as [m Hm].
    by apply (Hnone m).
Qed.

Lemma missing_query_key_no_match_witness :
  (∀ P, Route.match_ (Route.mkRoute searchAst (Route.mkRouteOptions false))
          "/search?page=2" ≠ Ok (Some P))
  ∧ (wellFormed searchAst = true →
     Route.match_ (Route.mkRoute searchAst (Route.mkRouteOptions false))
       "/search?page=2" = Ok None).
Proof.
  apply (missing_query_key_no_match (Literal "search") _ _
           (mkQueryParam "q" (Param "query")));
    [by left|reflexivity|reflexivity|reflexivity].
Defined.

(** ** Parsing a pattern segment by segment *)

Lemma last_char_app (x y : string) :
  y ≠ EmptyString → Js.last_char (x +:+ y) = Js.last_char y.
Proof.
  intros Hy. induction x as [|a x IH]; [done|].
  rewrite append_cons. cbn [Js.last_char]. rewrite IH.
  destruct (x +:+ y) eqn:E; [|done].
  destruct x; [|by rewrite append_cons in E]. by destruct y.
Qed.

Lemma endsWith_char_absent (c : ascii) (s : string) :
  hasChar c s = false → Js.endsWith_char c s = false.
Proof.
  unfold Js.endsWith_char. induction s as [|a s IH]; [done|].
  cbn [hasChar Js.last_char]. intros H. apply orb_false_iff in H as [Ha Hs].
  destruct s; [done|]. by apply IH.
Qed.

Lemma slashed_nonempty (s : string) (rest : list string) :
  slashed (s :: rest) ≠ EmptyString.
Proof. cbn [slashed]. by rewrite append_cons. Qed.

Lemma endsWith_slashed (c : ascii) (rest : list string) :
  ∀ s, Forall (λ s, s ≠ EmptyString ∧ hasChar c s = false) (s :: rest) →
       Js.endsWith_char c (slashed (s :: rest)) = false.
Proof.
  induction rest as [|t rest IH]; intros s Hall.
  - apply Forall_inv in Hall as [Hne Hs]. cbn [slashed].
    rewrite append_empty_r. unfold Js.endsWith_char.
    rewrite last_char_app by done. by apply endsWith_char_absent.
  - apply Forall_inv_tail in Hall.
    change (slashed (s :: t :: rest))
      with (("/" +:+ s) +:+ slashed (t :: rest)).
    unfold Js.endsWith_char.
    rewrite last_char_app by apply slashed_nonempty. by apply IH.
Qed.

Lemma hasChar_slashed (c : ascii) (segments : list string) :
  Ascii.eqb "/" c = false →
  Forall (λ s, hasChar c s = false) segments →
  hasChar c (slashed segments) = false.
Proof.
  intros Hc. induction 1 as [|s rest Hs _ IH]; [done|].
  cbn [slashed]. rewrite append_cons. cbn [hasChar].
  change (EmptyString +:+ s +:+ slashed rest) with (s +:+ slashed rest).
  by rewrite Hc, hasChar_app, IH, Hs.
Qed.

Lemma occurs_marker_absent (s : string) :
  hasChar Js.backslash s = false → occurs query_marker s = false.
Proof.
  induction s as [|a s IH]; [done|].
  cbn [hasChar occurs]. intros H. apply orb_false_iff in H as [Ha Hs].
  by rewrite startsWith_marker, Ascii.eqb_sym, Ha, IH.
Qed.

Lemma split_slashed_free (rest : list string) :
  ∀ s, Forall (λ s, hasChar "/" s = false) (s :: rest) →
       Js.split_char "/" (s +:+ slashed rest) = s :: rest.
Proof.
  induction rest as [|t rest IH]; intros s Hall.
  - apply Forall_inv in Hall. rewrite split_char_app by done. simpl.
    by rewrite append_empty_r.
  - pose proof (Forall_inv Hall) as Hs. apply Forall_inv_tail in Hall.
    rewrite split_char_app by done.
    change (slashed (t :: rest)) with ("/" +:+ t +:+ slashed rest).
    change (Js.split_char "/" ("/" +:+ t +:+ slashed rest))
      with (EmptyString :: Js.split_char "/" (t +:+ slashed rest)).
    by rewrite (IH t Hall), append_empty_r.
Qed.

Lemma pop_empty_nonempty (segments : list string) :
  Forall (λ s, s ≠ EmptyString) segments → pop_empty segments = segments.
Proof.
  intros Hall. unfold pop_empty. destruct (last segments) as [x|] eqn:E; [|done].
  apply last_Some_elem_of in E. rewrite Forall_forall in Hall.
  apply Hall in E. by destruct (String.eqb_spec x EmptyString).
Qed.

Lemma splitByQueryParams_slashed (s : string) (rest : list string) :
  Forall (λ s, s ≠ EmptyString ∧ hasChar "/" s = false
               ∧ hasChar Js.backslash s = false) (s :: rest) →
  splitByQueryParams (slashed (s :: rest)) = (s :: rest, EmptyString).
Proof.
  intros Hall. unfold splitByQueryParams, Path.removeTrailingSlash.
  rewrite endsWith_slashed
    by (eapply Forall_impl; [exact Hall|]; by intros x (? & ? & ?)).
  change (Path.removeLeadingSlash (slashed (s :: rest)))
    with (s +:+ slashed rest).
  pose proof (Forall_inv Hall) as (Hne & _ & _).
  assert (Hback : hasChar Js.backslash (s +:+ slashed rest) = false).
  { change (s +:+ slashed rest)
      with (Js.drop_first (slashed (s :: rest))).
    pose proof (hasChar_slashed Js.backslash (s :: rest) eq_refl) as H.
    cbn [slashed] in H. rewrite append_cons in H. cbn [hasChar] in H.
    cbn [slashed]. rewrite append_cons. cbn [Js.drop_first].
    change (EmptyString +:+ s +:+ slashed rest) with (s +:+ slashed rest) in *.
    apply H. eapply Forall_impl; [exact Hall|]. by intros x (? & ? & ?). }
  destruct (String.eqb_spec (s +:+ slashed rest) EmptyString) as [E|_].
  { destruct s; [done|]. by rewrite append_cons in E. }
  rewrite split_marker_free by by apply occurs_marker_absent.
  cbn [head default from_option id lookup list_lookup].
  rewrite (endsWith_char_absent _ _ Hback).
  rewrite split_slashed_free
    by (eapply Forall_impl; [exact Hall|]; by intros x (? & ? & ?)).
  cbn [shift_empty]. destruct (String.eqb_spec s EmptyString) as [|_]; [done|].
  rewrite pop_empty_nonempty; [done|].
  eapply Forall_impl; [exact Hall|]. by intros x (? & ? & ?).
Qed.

Lemma regexp_split_free (s : string) :
  hasChar "{" s = false → regexp_split_from 0 s = [s].
Proof.
  induction s as [|a s IH]; [done|].
  cbn [hasChar regexp_split_from]. intros H.
  apply orb_false_iff in H as [Ha Hs]. by rewrite Ha, IH.
Qed.

Lemma validToken_text (t : Token) :
  validToken t = true →
  tokenText t ≠ EmptyString ∧ hasChar "/" (tokenText t) = false
  ∧ hasChar Js.backslash (tokenText t) = false
  ∧ hasChar "{" (tokenText t) = false.
Proof.
  unfold validToken, freeText. intros H.
  apply andb_true_iff in H as [H Ht].
  apply andb_true_iff in H as [H H3]. apply andb_true_iff in H as [H1 H2].
  apply negb_true_iff in H1, H2, H3. split; [|done].
  destruct t as [text|name]; [|done]. simpl in *.
  destruct text; [done|done].
Qed.

Lemma parsePathSegment_token (t : Token) :
  validToken t = true → parsePathSegment (tokenText t) = Ok (tokenNode t).
Proof.
  intros Ht. destruct (validToken_text t Ht) as (Hne & _ & _ & Hbrace).
  unfold parsePathSegment, splitByPrefixes.
  rewrite (regexp_split_free _ Hbrace). cbn [map].
  destruct (String.eqb_spec (tokenText t) EmptyString) as [|_]; [done|].
  unfold parsePathPart. destruct t as [text|name].
  - unfold validToken in Ht. apply andb_true_iff in Ht as [_ Ht].
    apply andb_true_iff in Ht as [Ht H4]. apply andb_true_iff in Ht as [Ht H3].
    apply andb_true_iff in Ht as [_ H2].
    apply negb_true_iff in H2, H3, H4. cbn [tokenText tokenNode] in *.
    rewrite H2, H3, H4.
    destruct text as [|a text]; [done|]. cbn [Js.head_is hasChar] in *.
    apply orb_false_iff in Hbrace as [-> _]. done.
  - reflexivity.
Qed.

Lemma mapM_tokens (ts : list Token) :
  forallb validToken ts = true →
  mapM parsePathSegment (map tokenText ts) = Ok (map tokenNode ts).
Proof.
  induction ts as [|t ts IH]; [done|]. cbn [forallb map mapM].
  intros H. apply andb_true_iff in H as [Ht Hts].
  by rewrite (parsePathSegment_token t Ht), (IH Hts).
Qed.

(** X22: a pattern written as segments behind separators, each a literal or
    a colon and a parameter name with its modifiers, parses to the
    concatenation, nested to the left, of the nodes of its segments. *)
Theorem parse_tokens (t : Token) (ts : list Token) :
  forallb validToken (t :: ts) = true →
  parse (slashed (map tokenText (t :: ts)))
  = Ok (fold_left Concat (map tokenNode ts) (tokenNode t)).
Proof.
  intros Hall. unfold parse. cbn [map].
  rewrite splitByQueryParams_slashed.
  - unfold pathAst. change (tokenText t :: map tokenText ts)
      with (map tokenText (t :: ts)).
    by rewrite (mapM_tokens _ Hall).
  - change (tokenText t :: map tokenText ts) with (map tokenText (t :: ts)).
    apply Forall_fmap, Forall_forall. intros x Hx.
    rewrite forallb_forall in Hall. apply list_elem_of_In, Hall in Hx.
    destruct (validToken_text x Hx) as (? & ? & ? & ?). done.
Qed.

Lemma parse_tokens_witness :
  parse "/users/:id/posts/:post?"
  = Ok (Concat (Concat (Concat (Literal "users") (Param "id")) (Literal "posts"))
               (Optional (Param "post"))).
Proof.
  apply (parse_tokens (TokenLiteral "users")
           [TokenParam "id"; TokenLiteral "posts"; TokenParam "post?"]).
  reflexivity.
Defined.

(** ** Query routes: the round trip *)

Lemma compile_field_matchers (fs : list Field) (ctx : nat) :
  compileAll (λ p ctx, simpleAstToQueryMatcher (key p) (value p) ctx false false)
             (map fieldParam fs) ctx
  = Ok (map fieldMatcher fs, ctx).
Proof.
  induction fs as [|f fs IH]; [done|]. cbn [map compileAll].
  assert (Hf : simpleAstToQueryMatcher (key (fieldParam f)) (value (fieldParam f))
                 ctx false false = Ok (fieldMatcher f, ctx)) by (by destruct f).
  rewrite Hf. cbn [mbind Result_bind]. by rewrite IH.
Qed.

Lemma compile_field_parts (fs : list Field) :
  mapM (λ qp, queryParamToInterpolationPart qp None) (map fieldParam fs)
  = Ok (map fieldPart fs).
Proof.
  induction fs as [|f fs IH]; [done|]. cbn [map mapM].
  assert (Hf : queryParamToInterpolationPart (fieldParam f) None
               = Ok (fieldPart f)) by (by destruct f).
  by rewrite Hf, IH.
Qed.

Lemma pairText_nonempty (kv : string * string) : pairText kv ≠ EmptyString.
Proof. destruct kv as [[|a k] v]; unfold pairText; simpl; by rewrite ?append_cons. Qed.

Lemma fieldBound_stringAt (P : gmap string ParamValue) (f : Field) :
  fieldBound P f →
  match stringAt P (fieldName f) with
  | Some s => P !! fieldName f = Some (Str s) ∧ plainSegment s = true
  | None => P !! fieldName f = None ∧ fieldOptional f = true
  end.
Proof.
  unfold fieldBound, stringAt. by destruct (P !! fieldName f) as [[s|l]|].
Qed.

Lemma field_values (P : gmap string ParamValue) (fs : list Field) :
  Forall (fieldBound P) fs →
  ∃ values,
    mapM (λ part, partValue part P) (map fieldPart fs) = Ok values
    ∧ nonEmpty values = map pairText (fieldPairs P fs).
Proof.
  induction 1 as [|f fs Hf _ (values & IH & Hne)]; [by exists []|].
  apply fieldBound_stringAt in Hf. unfold fieldPairs. cbn [map mapM omap list_omap].
  fold (fieldPairs P fs). rewrite IH.
  cbn [partValue fieldPart]. unfold getParam.
  destruct (stringAt P (fieldName f)) as [s|] eqn:Es.
  - destruct Hf as [-> Hs]. apply plainSegment_inv in Hs as [Hs _].
    destruct s as [|a s]; [done|]. cbn [mbind Result_bind String.eqb fmap option_fmap option_map].
    eexists. split; [reflexivity|]. unfold nonEmpty. cbn [List.filter].
    destruct (String.eqb_spec (fieldKey f +:+ "=" +:+ String a s) EmptyString)
      as [E|_].
    { by apply (pairText_nonempty (fieldKey f, String a s)) in E. }
    cbn [negb map]. by rewrite <- Hne.
  - destruct Hf as [-> ->]. cbn [mbind Result_bind String.eqb fmap option_fmap option_map].
    eexists. split; [reflexivity|]. unfold nonEmpty. cbn [List.filter String.eqb negb].
    exact Hne.
Qed.

Lemma mapM_Ok_app {A B} (f : A → Result B) (l l' : list A) (ys : list B) :
  mapM f l' = Ok ys →
  ∀ xs, mapM f l = Ok xs → mapM f (l ++ l') = Ok (xs ++ ys).
Proof.
  intros Hys. induction l as [|x l IH]; intros xs Hxs.
  - by injection Hxs as <-.
  - cbn [mapM app] in *. destruct (f x) as [b|]; [|discriminate].
    cbn [mbind Result_bind] in *.
    destruct (mapM f l) as [bs|]; [|discriminate].
    injection Hxs as <-. by rewrite (IH bs eq_refl).
Qed.

Lemma fieldPairs_plain (P : gmap string ParamValue) (fs : list Field) :
  Forall (λ f, allPlain (fieldKey f) = true) fs →
  Forall (fieldBound P) fs →
  Forall (λ kv, allPlain (fst kv) = true ∧ plainSegment (snd kv) = true)
         (fieldPairs P fs).
Proof.
  induction 1 as [|f fs Hk _ IH]; intros Hb; [constructor|].
  apply Forall_cons in Hb as [Hf Hb]. apply fieldBound_stringAt in Hf.
  unfold fieldPairs. cbn [omap list_omap]. fold (fieldPairs P fs).
  destruct (stringAt P (fieldName f)) as [s|]; [|by apply IH].
  destruct Hf as [_ Hs]. constructor; [done|by apply IH].
Qed.

Lemma join_cons (sep x y : string) (l : list string) :
  Js.join sep (x :: y :: l) = x +:+ sep +:+ Js.join sep (y :: l).
Proof. reflexivity. Qed.

Lemma query_absent (c : ascii) (q : URLSearchParams) :
  plainChar c = false → Ascii.eqb "=" c = false → Ascii.eqb "&" c = false →
  Forall (λ kv, allPlain (fst kv) = true ∧ plainSegment (snd kv) = true) q →
  hasChar c (Js.join "&" (map pairText q)) = false.
Proof.
  intros Hc Heq Hamp.
  assert (Hpair : ∀ kv, allPlain (fst kv) = true ∧ plainSegment (snd kv) = true →
                        hasChar c (pairText kv) = false).
  { intros [k v] [Hk Hv]. apply plainSegment_inv in Hv as [_ Hv].
    unfold pairText. cbn [fst snd] in *.
    rewrite hasChar_app, append_cons. cbn [hasChar].
    change (EmptyString +:+ v) with v.
    by rewrite Heq, (allPlain_hasChar _ _ Hk Hc), (allPlain_hasChar _ _ Hv Hc). }
  induction 1 as [|kv q Hkv Hq IH]; [done|].
  destruct q as [|kv' q]; [by apply Hpair|].
  cbn [map]. rewrite join_cons, hasChar_app, append_cons. cbn [hasChar].
  change (EmptyString +:+ Js.join "&" (pairText kv' :: map pairText q))
    with (Js.join "&" (map pairText (kv' :: q))).
  by rewrite Hamp, IH, (Hpair _ Hkv).
Qed.

Lemma formatPart_queryText (q : URLSearchParams) :
  Forall (λ kv, allPlain (fst kv) = true ∧ plainSegment (snd kv) = true) q →
  Path.formatPart (queryText q) = queryText q.
Proof.
  intros Hq. unfold queryText.
  destruct (String.eqb (Js.join "&" (map pairText q)) EmptyString); [done|].
  pose proof (query_absent "/" q eq_refl eq_refl eq_refl Hq) as Hslash.
  unfold Path.formatPart, Path.removeTrailingSlash.
  rewrite append_cons. change (EmptyString +:+ ?x) with x.
  rewrite endsWith_char_absent; [done|]. cbn [hasChar]. by rewrite Hslash.
Qed.

Lemma pathJoin_with_query (segments : list string) (qt : string) :
  Forall (λ s, plainSegment s = true) segments →
  Path.formatPart qt = qt →
  Path.pathJoin (segments ++ [qt]) = slashed segments +:+ qt.
Proof.
  intros Hsegs Hqt. unfold Path.pathJoin.
  induction Hsegs as [|s rest Hs _ IH]; [by cbn; rewrite Hqt|].
  cbn [map app slashed]. rewrite join_empty_cons, IH, (formatPart_plain _ Hs).
  by rewrite !append_assoc.
Qed.

Lemma interpolate_query_route (previous : AST) (fs : list Field)
    (o : Route.RouteOptions) (ps : list Piece) (ctx : nat)
    (P : gmap string ParamValue) :
  pieces previous 0 = Some (ps, ctx) →
  Forall (pieceBound P) ps →
  Forall (fieldBound P) fs →
  Route.interpolate (Route.mkRoute (QueryParams previous (map fieldParam fs)) o) P
  = Ok (orRoot (Path.pathJoin (map (renderPiece P) ps
                               ++ [queryText (fieldPairs P fs)]))).
Proof.
  intros Hp Hps Hfs.
  unfold Route.interpolate, Route.getInterpolate, astToInterpolation.
  cbn [Route.routeAst getAstSegments].
  rewrite compileAll_app, (compile_piece_parts _ _ _ _ Hp).
  cbn [mbind Result_bind compileAll astSegmentToInterpolationPart].
  unfold queryParamsToInterpolationPart. rewrite compile_field_parts.
  cbn [mbind Result_bind]. rewrite forallb_app. cbn [forallb isLiteralPart].
  rewrite andb_false_r. cbn [mbind Result_bind].
  destruct (field_values P fs Hfs) as (values & Hvalues & Hne).
  erewrite mapM_Ok_app; [reflexivity| |by apply piece_values].
  cbn [mapM partValue]. rewrite Hvalues. cbn [mbind Result_bind].
  by rewrite Hne.
Qed.

Lemma before_char_app (c : ascii) (x y : string) :
  hasChar c x = false → before_char c (x +:+ String c y) = x.
Proof.
  induction x as [|a x IH]; intros H.
  - change (EmptyString +:+ String c y) with (String c y).
    cbn [before_char]. by rewrite Ascii.eqb_refl.
  - cbn [hasChar] in H. apply orb_false_iff in H as [Ha Hx].
    rewrite append_cons. cbn [before_char]. by rewrite Ha, IH.
Qed.

Lemma after_char_app (c : ascii) (x y : string) :
  hasChar c x = false → after_char c (x +:+ String c y) = y.
Proof.
  induction x as [|a x IH]; intros H.
  - change (EmptyString +:+ String c y) with (String c y).
    cbn [after_char]. by rewrite Ascii.eqb_refl.
  - cbn [hasChar] in H. apply orb_false_iff in H as [Ha Hx].
    rewrite append_cons. cbn [after_char]. by rewrite Ha, IH.
Qed.

Lemma split_join (c : ascii) (x : string) (l : list string) :
  Forall (λ x, hasChar c x = false) (x :: l) →
  Js.split_char c (Js.join (String c EmptyString) (x :: l)) = x :: l.
Proof.
  revert x. induction l as [|y l IH]; intros x Hall.
  - apply Forall_inv in Hall. cbn [Js.join].
    rewrite <- (append_empty_r x) at 1. rewrite split_char_app by done.
    simpl. by rewrite append_empty_r.
  - pose proof (Forall_inv Hall) as Hx. apply Forall_inv_tail in Hall.
    rewrite join_cons, split_char_app by done.
    rewrite append_cons. cbn [Js.split_char]. rewrite Ascii.eqb_refl.
    change (EmptyString +:+ ?z) with z.
    by rewrite (IH y Hall), append_empty_r.
Qed.

Lemma pairText_absent (c : ascii) (kv : string * string) :
  plainChar c = false → Ascii.eqb "=" c = false →
  allPlain (fst kv) = true ∧ plainSegment (snd kv) = true →
  hasChar c (pairText kv) = false.
Proof.
  intros Hc Heq [Hk Hv]. apply plainSegment_inv in Hv as [_ Hv].
  destruct kv as [k v]. unfold pairText. cbn [fst snd] in *.
  rewrite hasChar_app, append_cons. cbn [hasChar].
  change (EmptyString +:+ v) with v.
  by rewrite Heq, (allPlain_hasChar _ _ Hk Hc), (allPlain_hasChar _ _ Hv Hc).
Qed.

Lemma pairs_of_texts (q : URLSearchParams) :
  Forall (λ kv, allPlain (fst kv) = true ∧ plainSegment (snd kv) = true) q →
  map (λ pair, (before_char "=" pair, after_char "=" pair))
      (List.filter (λ pair, negb (String.eqb pair EmptyString)) (map pairText q))
  = q.
Proof.
  induction 1 as [|[k v] q [Hk _] _ IH]; [done|]. cbn [map List.filter].
  destruct (String.eqb_spec (pairText (k, v)) EmptyString) as [E|_].
  { by apply pairText_nonempty in E. }
  cbn [negb map]. rewrite IH. unfold pairText. cbn [fst snd] in *.
  change (k +:+ "=" +:+ v) with (k +:+ String "=" v).
  by rewrite before_char_app, after_char_app
    by (by apply allPlain_hasChar).
Qed.

Lemma join_nonempty (sep x : string) (l : list string) :
  x ≠ EmptyString → Js.join sep (x :: l) ≠ EmptyString.
Proof.
  intros Hx. destruct l as [|y l]; [done|]. rewrite join_cons.
  destruct x; [done|]. by rewrite append_cons.
Qed.

Lemma getPathAndQuery_rendered (segments : list string) (q : URLSearchParams) :
  Forall (λ s, plainSegment s = true) segments →
  Forall (λ kv, allPlain (fst kv) = true ∧ plainSegment (snd kv) = true) q →
  getPathAndQuery (orRoot (slashed segments +:+ queryText q)) = (segments, q).
Proof.
  intros Hsegs Hq. destruct q as [|kv q].
  { change (queryText []) with EmptyString. rewrite append_empty_r.
    by apply getPathAndQuery_slashed. }
  unfold queryText.
  destruct (String.eqb_spec (Js.join "&" (map pairText (kv :: q))) EmptyString)
    as [E|_].
  { by apply join_nonempty in E; [|apply pairText_nonempty]. }
  set (query := Js.join "&" (map pairText (kv :: q))).
  change ("?" +:+ query) with (String "?" query).
  assert (Hroot : orRoot (slashed segments +:+ String "?" query)
                  = slashed segments +:+ String "?" query).
  { unfold orRoot. by destruct (slashed segments). }
  rewrite Hroot. unfold getPathAndQuery, url_pathname, url_searchParams.
  assert (Hhash : hasChar "#" (slashed segments +:+ String "?" query) = false).
  { rewrite hasChar_app, slashed_absent by done. cbn [hasChar].
    unfold query. by rewrite (query_absent "#" (kv :: q)). }
  rewrite (before_char_absent "#") by done.
  rewrite before_char_app, after_char_app by by apply slashed_absent.
  f_equal.
  - destruct segments as [|s rest]; [reflexivity|].
    change (Js.head_is "/" (slashed (s :: rest))) with true. cbn iota.
    rewrite (split_slashed _ _ Hsegs).
    change (pop_empty (s :: rest) = s :: rest). by apply pop_empty_plain.
  - unfold query. cbn [map]. rewrite split_join.
    + by apply (pairs_of_texts (kv :: q)).
    + change (pairText kv :: map pairText q) with (map pairText (kv :: q)).
      apply Forall_fmap. eapply Forall_impl; [exact Hq|].
      intros x Hx. by apply pairText_absent.
Qed.

Lemma fieldPairs_cons (P : gmap string ParamValue) (f : Field) (fs : list Field) :
  fieldPairs P (f :: fs)
  = match stringAt P (fieldName f) with
    | Some s => (fieldKey f, s) :: fieldPairs P fs
    | None => fieldPairs P fs
    end.
Proof. unfold fieldPairs. cbn [omap list_omap]. by destruct (stringAt P _). Qed.

Lemma query_get_cons (k k0 v : string) (q : URLSearchParams) :
  query_get k ((k0, v) :: q) = if String.eqb k0 k then Some v else query_get k q.
Proof.
  unfold query_get. cbn [List.find]. unfold has_key at 1. cbn [fst].
  by destruct (String.eqb k0 k).
Qed.

Lemma query_get_other (P : gmap string ParamValue) (k : string) (fs : list Field) :
  k ∉ fieldKey <$> fs → query_get k (fieldPairs P fs) = None.
Proof.
  induction fs as [|f fs IH]; [done|]. cbn [fmap list_fmap].
  intros Hk. apply not_elem_of_cons in Hk as [Hne Hk].
  rewrite fieldPairs_cons. destruct (stringAt P (fieldName f)); [|by apply IH].
  rewrite query_get_cons. destruct (String.eqb_spec (fieldKey f) k); [done|].
  by apply IH.
Qed.

Lemma query_get_field (P : gmap string ParamValue) (fs : list Field) (f : Field) :
  NoDup (fieldKey <$> fs) → f ∈ fs →
  query_get (fieldKey f) (fieldPairs P fs) = stringAt P (fieldName f).
Proof.
  induction fs as [|g fs IH]; intros Hnd Hf; [by apply elem_of_nil in Hf|].
  cbn [fmap list_fmap] in Hnd. apply NoDup_cons in Hnd as [Hg Hnd].
  rewrite fieldPairs_cons. apply elem_of_cons in Hf as [->|Hf].
  - destruct (stringAt P (fieldName g)) as [s|].
    + by rewrite query_get_cons, String.eqb_refl.
    + by apply query_get_other.
  - assert (Hne : fieldKey g ≠ fieldKey f).
    { intros E. apply Hg. rewrite E. apply list_elem_of_fmap. eauto. }
    destruct (stringAt P (fieldName g)) as [s|]; [|by apply IH].
    rewrite query_get_cons. destruct (String.eqb_spec (fieldKey g) (fieldKey f));
      [done|by apply IH].
Qed.

Lemma run_field_matchers (P : gmap string ParamValue) (c : Cursor)
    (fs : list Field) :
  Forall (fieldBound P) fs →
  (∀ f, f ∈ fs → query_get (fieldKey f) (query c) = stringAt P (fieldName f)) →
  ∀ acc, runMatchers (map fieldMatcher fs) acc c
         = (Some (fieldCaptures P fs acc), c).
Proof.
  induction 1 as [|f fs Hf _ IH]; intros Hget acc; [done|].
  cbn [map runMatchers]. unfold fieldMatcher at 1, getQueryParamByKey.
  rewrite (Hget f) by by left. apply fieldBound_stringAt in Hf.
  unfold fieldCaptures. cbn [fold_left]. fold (fieldCaptures P fs).
  destruct (stringAt P (fieldName f)) as [s|].
  - apply IH. intros g Hg. apply Hget. by right.
  - destruct Hf as [_ ->]. apply IH. intros g Hg. apply Hget. by right.
Qed.

Lemma fieldCaptures_sub (P : gmap string ParamValue) (fs : list Field) :
  ∀ acc, acc ⊆ Own <$> P → fieldCaptures P fs acc ⊆ Own <$> P.
Proof.
  induction fs as [|f fs IH]; intros acc Hacc; [done|].
  unfold fieldCaptures. cbn [fold_left]. fold (fieldCaptures P fs).
  apply IH. apply assign_least; [|done].
  unfold stringAt. destruct (P !! fieldName f) as [[s|l]|] eqn:E;
    try apply map_empty_subseteq.
  apply map_singleton_subseteq_l. by rewrite lookup_fmap, E.
Qed.

Lemma fieldCaptures_dom (P : gmap string ParamValue) (fs : list Field) (k : string) :
  proto_key ∉ fieldName <$> fs →
  ∀ acc,
    k ∈ dom acc ∨ (k ∈ fieldName <$> fs ∧ is_Some (stringAt P k)) →
    k ∈ dom (fieldCaptures P fs acc).
Proof.
  induction fs as [|f fs IH]; intros Hproto acc Hk.
  - destruct Hk as [Hk|[Hk _]]; [done|by apply elem_of_nil in Hk].
  - cbn [fmap list_fmap] in Hproto.
    apply not_elem_of_cons in Hproto as [Hne Hproto].
    unfold fieldCaptures. cbn [fold_left]. fold (fieldCaptures P fs).
    apply (IH Hproto).
    destruct Hk as [Hk|[Hk Hs]]; [left; by apply dom_assign_target|].
    cbn [fmap list_fmap] in Hk. apply elem_of_cons in Hk as [->|Hk]; [|by right].
    left. destruct Hs as [s ->]. rewrite assign_singleton by done.
    rewrite dom_union_L, elem_of_union, dom_singleton_L. left.
    by apply elem_of_singleton.
Qed.

Lemma capturedBy_sub (P : gmap string ParamValue) (ps : list Piece) :
  Forall (pieceBound P) ps →
  proto_key ∉ pieceKeys ps →
  capturedBy ps (map (renderPiece P) ps) ∅ ⊆ Own <$> P
  ∧ ∀ k, k ∈ pieceKeys ps →
         k ∈ dom (capturedBy ps (map (renderPiece P) ps) ∅) ∨ P !! k = None.
Proof.
  intros Hps Hproto. split.
  - apply map_subseteq_spec. intros k x.
    rewrite capturedBy_rendered by done.
    destruct (decide (k ∈ pieceKeys ps)); [by rewrite lookup_fmap|done].
  - intros k Hk. destruct (P !! k) as [v|] eqn:E; [left|by right].
    apply elem_of_dom. rewrite capturedBy_rendered by done.
    rewrite decide_True by done. rewrite E. by eexists.
Qed.

(** X23: the round trip of a route with a query block: a segment route with
    plain literals and no key named [__proto__], under a block of fields
    with plain, distinct keys, each carrying a named parameter that is
    mandatory or optional and whose name is not that of a property every
    object inherits. A map that gives a plain segment to every key of the
    path and to every mandatory field, and to nothing but keys of the path
    and names of fields, is rendered as a path with its query string (the
    optional fields it has no value for are left out), and matching that
    path gives the map back. *)
Theorem query_route_round_trip (previous : AST) (fs : list Field) (end_ : bool)
    (ps : list Piece) (ctx : nat) (P : gmap string ParamValue) :
  pieces previous 0 = Some (ps, ctx) →
  Forall (λ p, plainPiece p = true) ps →
  proto_key ∉ pieceKeys ps →
  Forall (λ f, allPlain (fieldKey f) = true) fs →
  Forall (λ f, ordinaryKey (fieldName f) = true) fs →
  NoDup (fieldKey <$> fs) →
  (∀ k v, P !! k = Some v → ∃ s, v = Str s ∧ plainSegment s = true) →
  list_to_set (pieceKeys ps ++ requiredNames fs) ⊆ dom P →
  dom P ⊆ list_to_set (pieceKeys ps ++ (fieldName <$> fs)) →
  ∃ path,
    Route.interpolate
      (Route.make (QueryParams previous (map fieldParam fs)) (Some end_)) P
    = Ok path
    ∧ Route.match_
        (Route.make (QueryParams previous (map fieldParam fs)) (Some end_)) path
      = Ok (Some P).
Proof.
  intros Hp Hplain Hproto Hkeys Hnames Hnd Hvalues Hneeded Hdom.
  assert (Hprotof : proto_key ∉ fieldName <$> fs).
  { intros Hin. apply list_elem_of_fmap in Hin as (f & Hf & Hin).
    rewrite Forall_forall in Hnames.
    by apply (ordinaryKey_proto _ (Hnames f Hin)). }
  assert (Hkey : ∀ k, k ∈ pieceKeys ps ++ requiredNames fs →
                      ∃ s, P !! k = Some (Str s) ∧ plainSegment s = true).
  { intros k Hk.
    assert (Hd : k ∈ dom P) by (apply Hneeded; by apply elem_of_list_to_set).
    apply elem_of_dom in Hd as [v Hv].
    destruct (Hvalues k v Hv) as (s & -> & Hs). eauto. }
  assert (Hps : Forall (pieceBound P) ps).
  { apply Forall_forall. intros p Hin.
    destruct p as [l|k|pre k]; simpl; [done|..]; apply Hkey;
      apply elem_of_app; left; unfold pieceKeys; apply list_elem_of_omap;
      eexists; (split; [exact Hin|done]). }
  assert (Hfs : Forall (fieldBound P) fs).
  { apply Forall_forall. intros f Hin. unfold fieldBound.
    destruct (P !! fieldName f) as [v|] eqn:E.
    - by destruct (Hvalues _ _ E) as (s & -> & Hs).
    - destruct (fieldOptional f) eqn:Eo; [done|].
      destruct (Hkey (fieldName f)) as (s & Hs & _); [|congruence].
      apply elem_of_app. right. unfold requiredNames.
      apply list_elem_of_fmap. exists f. split; [done|].
      apply list_elem_of_In, filter_In. split; [by apply list_elem_of_In|].
      by rewrite Eo. }
  pose proof (renderPiece_plain P ps Hps Hplain) as Hsegs.
  pose proof (fieldPairs_plain P fs Hkeys Hfs) as Hq.
  exists (orRoot (slashed (map (renderPiece P) ps) +:+ queryText (fieldPairs P fs))).
  split.
  - rewrite <- (pathJoin_with_query _ _ Hsegs (formatPart_queryText _ Hq)).
    by apply (interpolate_query_route previous fs _ ps ctx).
  - unfold Route.match_, Route.getMatch, astToMatcher, Route.make.
    cbn [Route.routeAst Route.routeOptions Route.end_ default from_option id
         getAstSegments].
    rewrite compileAll_app, (compile_piece_matchers _ _ _ _ Hp).
    cbn [mbind Result_bind compileAll astSegmentToMatcher].
    unfold queryParamsToMatcher. rewrite compile_field_matchers.
    cbn [mbind Result_bind]. rewrite (getPathAndQuery_rendered _ _ Hsegs Hq).
    f_equal. rewrite runMatchers_app.
    pose proof (run_piece_matchers ps ∅ (map (renderPiece P) ps ++ [])
                  (fieldPairs P fs)) as Hrun.
    rewrite (matchPieces_accepts _ _ (renderPiece_accepted P ps Hps)) in Hrun.
    rewrite app_nil_r in Hrun. rewrite Hrun. cbn [runMatchers].
    rewrite (run_field_matchers P) by
      (done || (intros f Hf; by apply query_get_field)).
    cbn [pathSegments length Nat.ltb Nat.leb]. rewrite andb_false_r.
    f_equal. destruct (capturedBy_sub P ps Hps Hproto) as [Hsub Hpdom].
    assert (Heq : assign (capturedBy ps (map (renderPiece P) ps) ∅)
                         (fieldCaptures P fs ∅)
                  = Own <$> P).
    { apply subseteq_dom_eq.
      - apply assign_least; [|done].
        apply fieldCaptures_sub, map_empty_subseteq.
      - intros k Hk. rewrite dom_fmap_L in Hk.
        pose proof (Hdom k Hk) as Hin. apply elem_of_list_to_set in Hin.
        apply elem_of_dom in Hk as [v Hv].
        apply elem_of_app in Hin as [Hin|Hin].
        + apply dom_assign_target.
          destruct (Hpdom k Hin) as [?|E]; [done|congruence].
        + assert (Hne : k ≠ proto_key) by (by intros ->).
          unfold assign. rewrite dom_union_L, elem_of_union. left.
          rewrite dom_delete_L, elem_of_difference, not_elem_of_singleton.
          split; [|done]. apply fieldCaptures_dom; [done|]. right.
          split; [done|]. destruct (Hvalues k v Hv) as (s & -> & _).
          unfold stringAt. rewrite Hv. by eexists. }
    rewrite Heq. apply map_eq. intros k. rewrite !lookup_fmap.
    by destruct (P !! k).
Qed.

Lemma query_route_round_trip_witness :
  ∃ path,
    Route.interpolate
      (Route.make (QueryParams (Literal "search")
                     (map fieldParam [FieldRequired "q" "query";
                                      FieldOptional "page" "page"]))
                  (Some true))
      {[ "query" := Str "test" ]} = Ok path
    ∧ Route.match_
        (Route.make (QueryParams (Literal "search")
                       (map fieldParam [FieldRequired "q" "query";
                                        FieldOptional "page" "page"]))
                    (Some true))
        path
      = Ok (Some {[ "query" := Str "test" ]}).
Proof.
  apply (query_route_round_trip (Literal "search") _ true
           [PieceLiteral "search"] 0).
  - reflexivity.
  - repeat constructor.
  - apply (bool_decide_unpack _). vm_compute. reflexivity.
  - repeat constructor.
  - repeat constructor.
  - apply (bool_decide_unpack _). vm_compute. reflexivity.
  - intros k v Hkv. apply lookup_singleton_Some in Hkv as [_ <-].
    eexists. split; [reflexivity | vm_compute; reflexivity].
  - apply (bool_decide_unpack _). vm_compute. reflexivity.
  - apply (bool_decide_unpack _). vm_compute. reflexivity.
Defined.

(** ** Concatenation keeps the groups of its operands *)

Lemma emptyLiteral_groups (a : AST) :
  isEmptyLiteral a = true → a ≠ Literal EmptyString → getAstSegments a = [].
Proof.
  destruct a as [s| | | | | | | | |]; try discriminate. simpl.
  unfold Path.removeTrailingSlash, Js.endsWith_char.
  destruct s as [|a [|b s]]; [done| |].
  - cbn [Js.last_char Js.drop_last].
    destruct (Ascii.eqb_spec a "/") as [->|]; [done|discriminate].
  - intros H _. exfalso. revert H.
    change (Js.last_char (String a (String b s)))
      with (Js.last_char (String b s)).
    change (Js.drop_last (String a (String b s)))
      with (String a (Js.drop_last (String b s))).
    by destruct (Js.last_char (String b s)) as [c|]; [destruct (Ascii.eqb c "/")|].
Qed.

(** X24: the groups of a concatenation are the path groups of the left
    operand, then those of the right one, then the query block if there is
    one: nothing of either path is lost or reordered, and the query block
    comes last. An operand whose path is the literal of the empty text is
    left aside, as the concatenation drops that literal next to a query
    block. *)
Theorem concat_groups (l r : AST) :
  pathPartOf l ≠ Literal EmptyString →
  pathPartOf r ≠ Literal EmptyString →
  getAstSegments (concat l r)
  = getAstSegments (pathPartOf l) ++ getAstSegments (pathPartOf r)
    ++ (if isQueryParams l || isQueryParams r then [[concat l r]] else []).
Proof.
  intros Hl Hr.
  destruct (isQueryParams l) eqn:El, (isQueryParams r) eqn:Er.
  - destruct l as [| | | | | | |lprev lps| |]; try discriminate El.
    destruct r as [| | | | | | |rprev rps| |]; try discriminate Er.
    cbn [pathPartOf] in *. cbn [concat orb getAstSegments].
    destruct (isEmptyLiteral rprev) eqn:E.
    + by rewrite (emptyLiteral_groups rprev E Hr).
    + cbn [getAstSegments]. by rewrite app_assoc.
  - destruct l as [| | | | | | |lprev lps| |]; try discriminate El.
    cbn [pathPartOf] in Hl. cbn [pathPartOf orb].
    assert (Hc : concat (QueryParams lprev lps) r
                 = QueryParams (if isEmptyLiteral lprev then r
                                else Concat lprev r) lps)
      by (by destruct r).
    assert (Hpr : pathPartOf r = r) by (by destruct r).
    rewrite Hc, Hpr. cbn [getAstSegments].
    destruct (isEmptyLiteral lprev) eqn:E.
    + by rewrite (emptyLiteral_groups lprev E Hl).
    + cbn [getAstSegments]. by rewrite app_assoc.
  - destruct r as [| | | | | | |rprev rps| |]; try discriminate Er.
    cbn [pathPartOf] in Hr. cbn [pathPartOf].
    assert (Hc : concat l (QueryParams rprev rps)
                 = QueryParams (if isEmptyLiteral rprev then l
                                else Concat l rprev) rps)
      by (by destruct l).
    assert (Hpl : pathPartOf l = l) by (by destruct l).
    rewrite Hc, Hpl. cbn [getAstSegments orb].
    destruct (isEmptyLiteral rprev) eqn:E.
    + by rewrite (emptyLiteral_groups rprev E Hr).
    + cbn [getAstSegments]. by rewrite app_assoc.
  - assert (Hc : concat l r = Concat l r) by (by destruct l, r).
    assert (Hpl : pathPartOf l = l) by (by destruct l).
    assert (Hpr : pathPartOf r = r) by (by destruct r).
    rewrite Hc, Hpl, Hpr. cbn [getAstSegments orb]. by rewrite app_nil_r.
Qed.

Lemma concat_groups_witness :
  getAstSegments (concat searchAst articleAst)
  = getAstSegments (pathPartOf searchAst) ++ getAstSegments (pathPartOf articleAst)
    ++ [[concat searchAst articleAst]].
Proof.
  apply (concat_groups searchAst articleAst); discriminate.
Defined.

(** ** Repetitions: the round trip without the end flag *)

Lemma formatPart_inner (x : string) :
  x ≠ EmptyString → Js.endsWith_char "/" x = false →
  Js.head_is "/" x = false → Js.head_is "?" x = false →
  Path.formatPart x = "/" +:+ x.
Proof.
  intros Hne Hend Hslash Hq. unfold Path.formatPart, Path.removeTrailingSlash.
  rewrite Hend. unfold Path.removeLeadingSlash. rewrite Hslash, Hq.
  by destruct x.
Qed.

Lemma formatPart_slashed (s : string) (l : list string) :
  Forall (λ s, plainSegment s = true) (s :: l) →
  Path.formatPart (Js.join "/" (s :: l)) = slashed (s :: l).
Proof.
  intros Hall.
  assert (Hjoin : ∀ l s, slashed (s :: l) = "/" +:+ Js.join "/" (s :: l)).
  { clear. induction l as [|t l IH]; intros s.
    - cbn [slashed Js.join]. by rewrite append_empty_r.
    - change (slashed (s :: t :: l)) with ("/" +:+ s +:+ slashed (t :: l)).
      by rewrite IH, join_cons. }
  rewrite Hjoin. apply formatPart_inner.
  - apply join_nonempty. apply Forall_inv, plainSegment_inv in Hall. tauto.
  - revert s Hall. induction l as [|t l IH]; intros s Hall.
    + apply Forall_inv, plainSegment_inv in Hall as [_ Hs].
      apply endsWith_char_absent. by apply allPlain_hasChar.
    + apply Forall_inv_tail in Hall. rewrite join_cons.
      unfold Js.endsWith_char. rewrite last_char_app.
      * rewrite append_cons. change (EmptyString +:+ ?z) with z.
        pose proof (IH t Hall) as Ht. unfold Js.endsWith_char in Ht.
        cbn [Js.last_char].
        destruct (Js.join "/" (t :: l)) eqn:E; [|done].
        apply join_nonempty in E; [done|].
        apply Forall_inv, plainSegment_inv in Hall. tauto.
      * by rewrite append_cons.
  - apply Forall_inv, plainSegment_inv in Hall as [Hne Hs].
    destruct l as [|t l]; [cbn [Js.join]|rewrite join_cons];
      destruct s as [|c s]; try done; rewrite ?append_cons; cbn [Js.head_is];
      cbn [allPlain] in Hs; apply andb_true_iff in Hs as [Hc _];
      by destruct (plainChar_not_special _ Hc) as (-> & _ & _).
  - apply Forall_inv, plainSegment_inv in Hall as [Hne Hs].
    destruct l as [|t l]; [cbn [Js.join]|rewrite join_cons];
      destruct s as [|c s]; try done; rewrite ?append_cons; cbn [Js.head_is];
      cbn [allPlain] in Hs; apply andb_true_iff in Hs as [Hc _];
      by destruct (plainChar_not_special _ Hc) as (_ & -> & _).
Qed.

Lemma slashed_app (l l' : list string) :
  slashed (l ++ l') = slashed l +:+ slashed l'.
Proof.
  induction l as [|s l IH]; [done|]. cbn [app slashed].
  by rewrite IH, !append_assoc.
Qed.

Lemma pathJoin_with_list (segments l : list string) :
  Forall (λ s, plainSegment s = true) segments →
  Forall (λ s, plainSegment s = true) l →
  Path.pathJoin (segments ++ [Js.join "/" l]) = slashed (segments ++ l).
Proof.
  intros Hsegs Hl. rewrite slashed_app. unfold Path.pathJoin.
  induction Hsegs as [|s rest Hs _ IH].
  - cbn [app map Js.join slashed]. destruct l as [|t l]; [done|].
    by rewrite formatPart_slashed.
  - cbn [map app slashed]. rewrite join_empty_cons, IH, (formatPart_plain _ Hs).
    by rewrite !append_assoc.
Qed.

(** X25: the round trip of a segment route closed by a repetition, matched
    without the end flag, no key being [__proto__]: a map that gives plain
    segments to the keys of the groups and a list of plain segments to the
    repetition (an empty list only to the optional one) is rendered as a
    path, and matching that path gives the map back. *)
Theorem trailing_repetition_round_trip (a : AST) (optional : bool) (k : string)
    (ps : list Piece) (ctx : nat) (P : gmap string ParamValue) (l : list string) :
  pieces a 0 = Some (ps, ctx) →
  Forall (λ p, plainPiece p = true) ps →
  k ∉ pieceKeys ps →
  proto_key ∉ k :: pieceKeys ps →
  P !! k = Some (Arr l) →
  Forall (λ s, plainSegment s = true) l →
  (l = [] → optional = true) →
  dom P = list_to_set (k :: pieceKeys ps) →
  (∀ k' v, k' ≠ k → P !! k' = Some v → ∃ s, v = Str s ∧ plainSegment s = true) →
  ∃ path,
    Route.interpolate
      (Route.make (Concat a (repetition optional k)) (Some false)) P = Ok path
    ∧ Route.match_
        (Route.make (Concat a (repetition optional k)) (Some false)) path
      = Ok (Some P).
Proof.
  intros Hp Hplain Hk Hproto HPk Hl Hopt Hdom Hvalues.
  apply not_elem_of_cons in Hproto as [Hkproto Hproto].
  assert (Hps : Forall (pieceBound P) ps).
  { apply Forall_forall. intros p Hin.
    assert (Hkey : ∀ k', k' ∈ pieceKeys ps →
                         ∃ s, P !! k' = Some (Str s) ∧ plainSegment s = true).
    { intros k' Hk'.
      assert (Hd : k' ∈ dom P).
      { rewrite Hdom. apply elem_of_list_to_set. by right. }
      apply elem_of_dom in Hd as [v Hv].
      destruct (Hvalues k' v) as (s & -> & Hs); [congruence|done|eauto]. }
    destruct p as [lit|k'|pre k']; simpl; [done|..]; apply Hkey;
      unfold pieceKeys; apply list_elem_of_omap; eexists;
      (split; [exact Hin|done]). }
  pose proof (renderPiece_plain P ps Hps Hplain) as Hsegs.
  assert (Hall : Forall (λ s, plainSegment s = true)
                        (map (renderPiece P) ps ++ l))
    by (by apply Forall_app).
  exists (orRoot (slashed (map (renderPiece P) ps ++ l))). split.
  - rewrite <- (pathJoin_with_list _ _ Hsegs Hl).
    unfold Route.interpolate, Route.getInterpolate, astToInterpolation, Route.make.
    cbn [Route.routeAst getAstSegments].
    assert (Hrep : getAstSegments (repetition optional k)
                   = [[repetition optional k]]) by (by destruct optional).
    rewrite Hrep, compileAll_app, (compile_piece_parts _ _ _ _ Hp).
    assert (Hc : compileAll astSegmentToInterpolationPart
                   [[repetition optional k]] (Some ctx)
                 = Ok ([InterpolateParam (getParam k optional true)], Some ctx))
      by (by destruct optional).
    cbn [mbind Result_bind]. rewrite Hc. cbn [mbind Result_bind].
    rewrite forallb_app. cbn [forallb isLiteralPart]. rewrite andb_false_r.
    cbn [mbind Result_bind].
    erewrite mapM_Ok_app; [reflexivity| |by apply piece_values].
    cbn [mapM partValue]. unfold getParam. rewrite HPk.
    destruct l as [|s l]; [by rewrite Hopt|]. by destruct optional.
  - rewrite (match_after_pieces _ _ _ _ _ _ _ Hp) by (by intros ->).
    rewrite (getPathAndQuery_slashed _ Hall). cbn [fst].
    rewrite (matchPieces_accepts _ _ (renderPiece_accepted P ps Hps)).
    assert (Hcond : (if Nat.eqb (length l) 0 then optional else negb false)
                    = true).
    { destruct l; [by apply Hopt|done]. }
    rewrite Hcond. do 2 f_equal. apply map_eq. intros k'.
    destruct (decide (k' = k)) as [->|Hne].
    + by rewrite lookup_insert_eq.
    + rewrite lookup_insert_ne by done.
      rewrite lookup_fmap, capturedBy_rendered by done.
      destruct (decide (k' ∈ pieceKeys ps)) as [Hin|Hin].
      * by destruct (P !! k').
      * rewrite lookup_empty. symmetry. apply not_elem_of_dom.
        rewrite Hdom, elem_of_list_to_set, elem_of_cons. by intros [?|?].
Qed.

Lemma trailing_repetition_round_trip_witness :
  ∃ path,
    Route.interpolate
      (Route.make (Concat (Literal "files") (repetition false "path"))
                  (Some false))
      {[ "path" := Arr ["a"; "b"] ]} = Ok path
    ∧ Route.match_
        (Route.make (Concat (Literal "files") (repetition false "path"))
                    (Some false))
        path
      = Ok (Some {[ "path" := Arr ["a"; "b"] ]}).
Proof.
  apply (trailing_repetition_round_trip (Literal "files") false "path"
           [PieceLiteral "files"] 0 _ ["a"; "b"]).
  - reflexivity.
  - repeat constructor.
  - apply (bool_decide_unpack _). vm_compute. reflexivity.
  - apply (bool_decide_unpack _). vm_compute. reflexivity.
  - reflexivity.
  - repeat constructor.
  - discriminate.
  - vm_compute. reflexivity.
  - intros k' v Hne Hkv. apply lookup_singleton_Some in Hkv as [<- _].
    by destruct Hne.
Defined.

(** ** Segment routes that end in an optional parameter *)

Lemma optional_after_pieces (a : AST) (k : string) (end_ : bool)
    (ps : list Piece) (ctx : nat) (path : string) :
  pieces a 0 = Some (ps, ctx) →
  k ≠ proto_key →
  Route.match_ (Route.make (Concat a (Optional (Param k))) (Some end_)) path
  = Ok (match matchPieces ps (fst (getPathAndQuery path)) ∅ with
        | Some (res, []) => Some (observe [] <$> res)
        | Some (res, s :: rest) =>
            if end_ && Nat.ltb 0 (length rest) then None
            else if String.eqb s EmptyString then Some (observe rest <$> res)
            else Some (<[ k := Str s ]> (observe rest <$> res))
        | None => None
        end).
Proof.
  intros Hp Hk. unfold Route.match_, Route.getMatch, astToMatcher, Route.make.
  cbn [Route.routeAst Route.routeOptions Route.end_ default getAstSegments].
  rewrite compileAll_app, (compile_piece_matchers _ _ _ _ Hp).
  cbn [mbind Result_bind compileAll astSegmentToMatcher simpleAstToMatcher].
  destruct (getPathAndQuery path) as [segments q]. cbn [fst]. f_equal.
  rewrite runMatchers_app.
  pose proof (run_piece_matchers ps ∅ segments q) as Hrun.
  destruct (matchPieces ps segments ∅) as [[res rest]|].
  - rewrite Hrun. cbn [runMatchers]. unfold getParamByKey. cbn [pathSegments].
    destruct rest as [|s rest]; simpl.
    + by rewrite assign_empty, andb_false_r.
    + destruct (String.eqb s EmptyString); simpl;
        destruct (end_ && Nat.ltb 0 (length rest)); try reflexivity.
      * by rewrite assign_empty.
      * rewrite assign_singleton by done.
        by rewrite map_fmap_union, map_fmap_singleton, insert_union_singleton_l.
  - by destruct (runMatchers (map pieceMatcher ps) ∅ (mkCursor segments q))
      as [[m|] c]; simpl in *.
Qed.

(** X26: the round trip of a segment route closed by an optional parameter,
    with or without the end flag: the groups have no key named [__proto__]
    and the name of the parameter is not that of a property every object
    inherits. A map that gives plain segments to the keys of the groups,
    and to the optional parameter or not, is rendered as a path (one
    segment shorter when the parameter has no value), and matching that
    path gives the map back. *)
Theorem trailing_optional_round_trip (a : AST) (k : string) (end_ : bool)
    (ps : list Piece) (ctx : nat) (P : gmap string ParamValue) :
  pieces a 0 = Some (ps, ctx) →
  Forall (λ p, plainPiece p = true) ps →
  k ∉ pieceKeys ps →
  proto_key ∉ pieceKeys ps →
  ordinaryKey k = true →
  list_to_set (pieceKeys ps) ⊆ dom P →
  dom P ⊆ list_to_set (k :: pieceKeys ps) →
  (∀ k' v, P !! k' = Some v → ∃ s, v = Str s ∧ plainSegment s = true) →
  ∃ path,
    Route.interpolate
      (Route.make (Concat a (Optional (Param k))) (Some end_)) P = Ok path
    ∧ Route.match_
        (Route.make (Concat a (Optional (Param k))) (Some end_)) path
      = Ok (Some P).
Proof.
  intros Hp Hplain Hk Hproto Hordinary Hneeded Hdom Hvalues.
  assert (Hps : Forall (pieceBound P) ps).
  { apply Forall_forall. intros p Hin.
    assert (Hkey : ∀ k', k' ∈ pieceKeys ps →
                         ∃ s, P !! k' = Some (Str s) ∧ plainSegment s = true).
    { intros k' Hk'.
      assert (Hd : k' ∈ dom P) by (apply Hneeded; by apply elem_of_list_to_set).
      apply elem_of_dom in Hd as [v Hv].
      destruct (Hvalues k' v Hv) as (s & -> & Hs). eauto. }
    destruct p as [lit|k'|pre k']; simpl; [done|..]; apply Hkey;
      unfold pieceKeys; apply list_elem_of_omap; eexists;
      (split; [exact Hin|done]). }
  pose proof (renderPiece_plain P ps Hps Hplain) as Hsegs.
  set (l := match stringAt P k with Some s => [s] | None => [] end).
  assert (Hl : Forall (λ s, plainSegment s = true) l).
  { unfold l, stringAt. destruct (P !! k) as [[s|?]|] eqn:E; try constructor;
      [|constructor]. by destruct (Hvalues _ _ E) as (? & [= <-] & ?). }
  assert (Hall : Forall (λ s, plainSegment s = true)
                        (map (renderPiece P) ps ++ l))
    by (by apply Forall_app).
  assert (Hrest : ∀ k', k' ≠ k → k' ∉ pieceKeys ps → P !! k' = None).
  { intros k' Hne Hin. apply not_elem_of_dom. intros Hd. apply Hdom in Hd.
    apply elem_of_list_to_set, elem_of_cons in Hd as [?|?]; done. }
  exists (orRoot (slashed (map (renderPiece P) ps ++ l))). split.
  - rewrite <- (pathJoin_with_list _ _ Hsegs Hl).
    unfold Route.interpolate, Route.getInterpolate, astToInterpolation, Route.make.
    cbn [Route.routeAst getAstSegments].
    rewrite compileAll_app, (compile_piece_parts _ _ _ _ Hp).
    cbn [mbind Result_bind compileAll astSegmentToInterpolationPart
         simpleAstToInterpolationPart].
    rewrite forallb_app. cbn [forallb isLiteralPart]. rewrite andb_false_r.
    cbn [mbind Result_bind].
    erewrite mapM_Ok_app; [reflexivity| |by apply piece_values].
    cbn [mapM partValue]. unfold getParam, l, stringAt.
    destruct (P !! k) as [[s|?]|] eqn:E; [| |done].
    + destruct (Hvalues _ _ E) as (? & [= <-] & Hs).
      apply plainSegment_inv in Hs as [Hne _]. by destruct s.
    + by destruct (Hvalues _ _ E) as (? & ? & ?).
  - rewrite (optional_after_pieces _ _ _ _ _ _ Hp)
      by (by apply ordinaryKey_proto).
    rewrite (getPathAndQuery_slashed _ Hall). cbn [fst].
    rewrite (matchPieces_accepts _ _ (renderPiece_accepted P ps Hps)).
    assert (Hcaps : ∀ rest k', k' ≠ k →
              (observe rest <$> capturedBy ps (map (renderPiece P) ps) ∅) !! k'
              = P !! k').
    { intros rest k' Hne. rewrite lookup_fmap, capturedBy_rendered by done.
      destruct (decide (k' ∈ pieceKeys ps)) as [Hin|Hin].
      - by destruct (P !! k').
      - by rewrite lookup_empty, Hrest. }
    assert (Hcapk : ∀ rest,
              (observe rest <$> capturedBy ps (map (renderPiece P) ps) ∅) !! k
              = None).
    { intros rest. rewrite lookup_fmap, capturedBy_rendered by done.
      by rewrite decide_False by done. }
    unfold l, stringAt. destruct (P !! k) as [[s|?]|] eqn:E.
    + destruct (Hvalues _ _ E) as (? & [= <-] & Hs).
      apply plainSegment_inv in Hs as [Hne _].
      cbn [length Nat.ltb Nat.leb]. rewrite andb_false_r.
      destruct (String.eqb_spec s EmptyString) as [|_]; [done|].
      do 2 f_equal. apply map_eq. intros k'.
      destruct (decide (k' = k)) as [->|Hne'].
      * by rewrite lookup_insert_eq.
      * rewrite lookup_insert_ne by done. by apply Hcaps.
    + by destruct (Hvalues _ _ E) as (? & ? & ?).
    + do 2 f_equal. apply map_eq. intros k'.
      destruct (decide (k' = k)) as [->|Hne']; [by rewrite Hcapk|by apply Hcaps].
Qed.

Lemma trailing_optional_round_trip_witness :
  ∃ path,
    Route.interpolate
      (Route.make (Concat (Literal "posts") (Optional (Param "page")))
                  (Some true))
      ∅ = Ok path
    ∧ Route.match_
        (Route.make (Concat (Literal "posts") (Optional (Param "page")))
                    (Some true))
        path
      = Ok (Some ∅).
Proof.
  apply (trailing_optional_round_trip (Literal "posts") "page" true
           [PieceLiteral "posts"] 0).
  - reflexivity.
  - repeat constructor.
  - apply (bool_decide_unpack _). vm_compute. reflexivity.
  - apply (bool_decide_unpack _). vm_compute. reflexivity.
  - reflexivity.
  - apply (bool_decide_unpack _). vm_compute. reflexivity.
  - apply (bool_decide_unpack _). vm_compute. reflexivity.
  - intros k' v Hkv. by rewrite lookup_empty in Hkv.
Defined.

(** ** Parsing a prefix segment *)

Lemma braceFree_inv (a : ascii) (s : string) :
  braceFree (String a s) = true →
  Ascii.eqb a "/" = false ∧ Ascii.eqb a Js.backslash = false
  ∧ Ascii.eqb a "{" = false ∧ Ascii.eqb a "}" = false
  ∧ Ascii.eqb a ":" = false ∧ is_line_terminator a = false
  ∧ braceFree s = true.
Proof.
  cbn [braceFree]. rewrite !andb_true_iff, !negb_true_iff. tauto.
Qed.

Lemma braceFree_hasChar (c : ascii) (s : string) :
  braceFree s = true →
  c = "/"%char ∨ c = Js.backslash ∨ c = "{"%char ∨ c = "}"%char ∨ c = ":"%char →
  hasChar c s = false.
Proof.
  intros Hs Hc. induction s as [|a s IH]; [done|].
  apply braceFree_inv in Hs as (H1 & H2 & H3 & H4 & H5 & _ & Hs).
  cbn [hasChar]. rewrite (IH Hs), orb_false_r.
  destruct Hc as [->|[->|[->|[->| ->]]]]; done.
Qed.

Lemma last_close_tail (s : string) :
  braceFree s = true →
  ∀ i : nat, (1 ≤ i)%nat →
    last_close_from i (s +:+ "}") = Some (i + String.length s)%nat.
Proof.
  induction s as [|a s IH]; intros Hs i Hi.
  - change (EmptyString +:+ "}") with (String "}" EmptyString).
    cbn [last_close_from String.length]. change (is_line_terminator "}") with false.
    cbn iota. rewrite Ascii.eqb_refl. cbn [andb].
    destruct (Nat.leb_spec 1 i); [|lia]. f_equal. lia.
  - apply braceFree_inv in Hs as (_ & _ & _ & H4 & _ & Hlt & Hs).
    rewrite append_cons. cbn [last_close_from String.length]. rewrite Hlt.
    rewrite (IH Hs (S i)) by lia. f_equal. lia.
Qed.

Lemma last_close_colon (pre name : string) :
  braceFree pre = true → braceFree name = true →
  ∀ i : nat,
    last_close_from i (pre +:+ String ":" (name +:+ "}"))
    = Some (i + String.length pre + 1 + String.length name)%nat.
Proof.
  intros Hpre Hname. induction pre as [|a pre IH]; intros i.
  - change (EmptyString +:+ ?z) with z. cbn [last_close_from String.length].
    change (is_line_terminator ":") with false. cbn iota.
    rewrite (last_close_tail name Hname (S i)) by lia. f_equal. lia.
  - apply braceFree_inv in Hpre as (_ & _ & _ & _ & _ & Hlt & Hpre).
    rewrite append_cons. cbn [last_close_from String.length]. rewrite Hlt.
    rewrite (IH Hpre (S i)). f_equal. lia.
Qed.

Lemma length_append (s t : string) :
  String.length (s +:+ t) = (String.length s + String.length t)%nat.
Proof.
  induction s as [|a s IH]; [done|]. rewrite append_cons. cbn [String.length].
  by rewrite IH.
Qed.

Lemma take_string_all (s : string) : take_string (String.length s) s = s.
Proof. induction s as [|a s IH]; [done|]. cbn. by rewrite IH. Qed.

Lemma regexp_split_skip_all (s : string) :
  regexp_split_from (String.length s) s = [EmptyString].
Proof. induction s as [|a s IH]; [done|]. cbn. exact IH. Qed.

Lemma drop_last_snoc (s : string) (a : ascii) :
  Js.drop_last (s +:+ String a EmptyString) = s.
Proof.
  induction s as [|b s IH]; [done|]. rewrite append_cons.
  cbn [Js.drop_last]. rewrite IH.
  destruct (s +:+ String a EmptyString) eqn:E; [|done].
  by destruct s.
Qed.

Lemma splitByPrefixes_prefixText (pre name : string) :
  braceFree pre = true → braceFree name = true →
  splitByPrefixes (prefixText pre name) = ["/"; prefixText pre name; "/"].
Proof.
  intros Hpre Hname. unfold splitByPrefixes, prefixText.
  set (body := pre +:+ String ":" (name +:+ "}")).
  assert (Hlen : String.length body
                 = S (String.length pre + 1 + String.length name)%nat).
  { unfold body. rewrite length_append. cbn [String.length].
    rewrite length_append. cbn [String.length]. lia. }
  cbn [regexp_split_from]. rewrite Ascii.eqb_refl.
  unfold body at 1. rewrite (last_close_colon pre name Hpre Hname 0).
  cbn [Nat.add]. fold body. rewrite <- Hlen.
  by rewrite take_string_all, regexp_split_skip_all.
Qed.

Lemma parsePathPart_prefixText (pre name : string) :
  braceFree pre = true → braceFree name = true →
  parsePathPart (prefixText pre name) = Prefix pre (parseParam name).
Proof.
  intros Hpre Hname. unfold parsePathPart, prefixText.
  cbn [Js.head_is]. rewrite Ascii.eqb_refl. unfold parsePrefix.
  cbn [Js.drop_first].
  change (pre +:+ String ":" (name +:+ "}"))
    with (pre +:+ (String ":" name +:+ String "}" EmptyString)).
  rewrite <- append_assoc, drop_last_snoc.
  rewrite split_char_app by (apply braceFree_hasChar; tauto).
  cbn [Js.split_char]. rewrite Ascii.eqb_refl.
  rewrite <- (append_empty_r name) at 1.
  rewrite split_char_app by (apply braceFree_hasChar; tauto).
  cbn [Js.split_char]. by rewrite !append_empty_r.
Qed.

(** X27: a pattern of one segment that holds a prefix and a parameter
    between braces, [/{prefix:name}], both of them ASCII texts without
    separator, backslash, brace, colon and line terminator, parses to the
    prefix node of the parameter between two bare separators, which add no
    group: the only group of the result is the prefix node. *)
Theorem parse_prefix_segment (pre name : string) :
  braceFree pre = true → braceFree name = true →
  parse ("/" +:+ prefixText pre name)
  = Ok (Concat (Concat (Literal "/") (Prefix pre (parseParam name)))
               (Literal "/"))
  ∧ getAstSegments (Concat (Concat (Literal "/") (Prefix pre (parseParam name)))
                           (Literal "/"))
    = [[Prefix pre (parseParam name)]].
Proof.
  intros Hpre Hname. split; [|reflexivity].
  unfold parse.
  assert (Hs : "/" +:+ prefixText pre name = slashed [prefixText pre name])
    by (cbn [slashed]; by rewrite append_empty_r).
  rewrite Hs, splitByQueryParams_slashed.
  - unfold pathAst. cbn [mapM]. unfold parsePathSegment.
    rewrite (splitByPrefixes_prefixText _ _ Hpre Hname). cbn [map].
    by rewrite (parsePathPart_prefixText _ _ Hpre Hname).
  - constructor; [|constructor]. split; [done|].
    unfold prefixText. cbn [hasChar]. rewrite !hasChar_app. cbn [hasChar].
    rewrite !hasChar_app. cbn [hasChar].
    by rewrite !(braceFree_hasChar _ pre), !(braceFree_hasChar _ name)
      by tauto.
Qed.

Lemma parse_prefix_segment_witness :
  parse "/{user-:id}"
  = Ok (Concat (Concat (Literal "/") (Prefix "user-" (Param "id"))) (Literal "/"))
  ∧ getAstSegments
      (Concat (Concat (Literal "/") (Prefix "user-" (Param "id"))) (Literal "/"))
    = [[Prefix "user-" (Param "id")]].
Proof.
  apply (parse_prefix_segment "user-" "id"); reflexivity.
Defined.
